(** * I18nStatic: the client-side translation engine

    A shallow embedding of [public/i18n/client.js] (class [I18nStatic]):
    locale detection, dictionary loading with its fallback chain, dotted-key
    resolution, DOM synchronisation, locale switching, subscriber
    notification, and the start of the script ([initializeI18n]).  The
    [updateElement] of the earlier copy of the file is kept in module
    [Previous] for comparison.

    Conventions of the embedding.
    - JS strings are [string]; one [ascii] stands for one code unit.
    - A parsed JS object is modelled by its own enumerable properties, in
      enumeration order.  A property read that finds no own member goes on
      to the standard prototypes, [Object.prototype] and [Array.prototype],
      taken as a page has them that did not alter them.
    - A statement that may raise yields a [completion]; [try]/[catch] is the
      combinator [try_catch] on values and [attempt] on actions.
    - DOM nodes live in a store and are addressed by identity, so that a
      static node list stays valid while the tree is being rewritten;
      [document.title] is a field of its own.
    - What the engine calls and does not define (URL, [navigator], [fetch],
      [JSON.parse], the HTML parser, subscribers) is a parameter, [Host].
      A request always settles, and a subscriber is opaque: its call is
      recorded and it may raise, it does not call back into the engine.
    - One call of the engine runs to completion, and what is proved of a
      whole call is about calls that do not overlap.  What happens when a
      second load begins while a first is suspended at its [await] is
      described by the two parts of a load, [load_begin] and [load_resume].
    - [console.warn]/[console.error] output is not part of the state. *)

From Stdlib Require Import ZArith QArith Ascii String DecimalString List Bool Lia.
From stdpp Require Import base option gmap strings list.

Set Warnings "-register-all".
Local Open Scope string_scope.
Local Open Scope list_scope.

(** ** Module-level constants *)

Definition SUPPORTED_LANGUAGES : list string := ["en"; "es"; "fr"; "pt"].
Definition DEFAULT_LANGUAGE : string := "es".
Definition STORAGE_KEY : string := "i18nextLng".

(** [SUPPORTED_LANGUAGES.includes(x)] *)
Definition includes (l : list string) (x : string) : bool :=
  existsb (String.eqb x) l.

Definition supported (x : string) : bool := includes SUPPORTED_LANGUAGES x.

(** ** Strings *)

(** [s.split(sep)] for a one-character separator: never empty, the empty
    string splits into one empty segment. *)
Fixpoint split (sep : ascii) (s : string) : list string :=
  match s with
  | EmptyString => [EmptyString]
  | String c r =>
      if Ascii.eqb c sep then EmptyString :: split sep r
      else match split sep r with
           | [] => [String c EmptyString]
           | h :: t => String c h :: t
           end
  end.

(** [segs.join(sep)], used to state that [split] loses nothing. *)
Fixpoint join (sep : ascii) (segs : list string) : string :=
  match segs with
  | [] => EmptyString
  | [s] => s
  | s :: rest => s +:+ String sep (join sep rest)
  end.

(** JS truthiness of a string. *)
Definition str_truthy (s : string) : bool :=
  match s with EmptyString => false | _ => true end.

(** Decimal rendering of an array index, as in the property name of [a[i]]. *)
Definition index_name (i : nat) : string :=
  NilEmpty.string_of_uint (Nat.to_uint i).

(** ** JSON values: what [response.json()] and [JSON.parse] produce *)

Inductive JSON : Type :=
| JNull
| JBool (b : bool)
| JNum (n : Z)
| JStr (s : string)
| JArr (items : list JSON)
| JObj (fields : list (string * JSON)).

(** A JS value held in a variable: a JSON value or [undefined] ([None]). *)
Abbreviation value := (option JSON).
Abbreviation undefined := (@None JSON).

(** [!!v] *)
Definition truthy (v : value) : bool :=
  match v with
  | None | Some JNull => false
  | Some (JBool b) => b
  | Some (JNum n) => negb (Z.eqb n 0)
  | Some (JStr s) => str_truthy s
  | Some (JArr _) | Some (JObj _) => true
  end.

(** [typeof v === 'object'] *)
Definition typeof_object (v : value) : bool :=
  match v with
  | Some JNull | Some (JArr _) | Some (JObj _) => true
  | _ => false
  end.

(** Own property of a parsed object. *)
Fixpoint assoc (k : string) (fields : list (string * JSON)) : value :=
  match fields with
  | [] => undefined
  | (k', v) :: rest => if String.eqb k k' then Some v else assoc k rest
  end.

(** Element of a parsed array addressed by property name. *)
Fixpoint item_at (k : string) (i : nat) (items : list JSON) : value :=
  match items with
  | [] => undefined
  | x :: rest => if String.eqb k (index_name i) then Some x
                 else item_at k (S i) rest
  end.

(** The members a parsed value holds itself: the fields of an object, the
    elements and the [length] of an array. *)
Definition own_prop (v : value) (k : string) : value :=
  match v with
  | Some (JObj fields) => assoc k fields
  | Some (JArr items) =>
      if String.eqb k "length" then Some (JNum (Z.of_nat (length items)))
      else item_at k 0 items
  | _ => undefined
  end.

(** *** Members found on the prototype chain *)

(** A property read [v[k]] that finds no own member goes on to the prototype
    of [v].  Besides parsed data, a read can therefore give a built-in
    function or one of the two prototype objects. *)
Inductive builtin : Type :=
| BuiltinFunction      (* a built-in function; [typeof] answers ['function'] *)
| ObjectPrototype      (* [Object.prototype] *)
| ArrayPrototype.      (* [Array.prototype] *)

Inductive jsvalue : Type :=
| Plain (v : value)          (* parsed data, or [undefined] *)
| Inherited (b : builtin).

(** The function-valued members of [Object.prototype] and of
    [Array.prototype] (ECMAScript 2023 and the legacy accessors of browsers). *)
Definition object_prototype_functions : list string :=
  ["constructor"; "__defineGetter__"; "__defineSetter__"; "hasOwnProperty";
   "__lookupGetter__"; "__lookupSetter__"; "isPrototypeOf";
   "propertyIsEnumerable"; "toString"; "valueOf"; "toLocaleString"].

Definition array_prototype_functions : list string :=
  ["at"; "concat"; "constructor"; "copyWithin"; "entries"; "every"; "fill";
   "filter"; "find"; "findIndex"; "findLast"; "findLastIndex"; "flat";
   "flatMap"; "forEach"; "includes"; "indexOf"; "join"; "keys"; "lastIndexOf";
   "map"; "pop"; "push"; "reduce"; "reduceRight"; "reverse"; "shift"; "slice";
   "some"; "sort"; "splice"; "toLocaleString"; "toReversed"; "toSorted";
   "toSpliced"; "toString"; "unshift"; "values"; "with"].

(** The read of [k] once it has reached [Object.prototype]; [proto] is what
    the accessor [__proto__] answers, the prototype of the receiver. *)
Definition from_object_prototype (proto : jsvalue) (k : string) : jsvalue :=
  if includes object_prototype_functions k then Inherited BuiltinFunction
  else if String.eqb k "__proto__" then proto
  else Plain undefined.

(** The read of [k] once it has reached [Array.prototype], whose own [length]
    is 0 and whose prototype is [Object.prototype]. *)
Definition from_array_prototype (proto : jsvalue) (k : string) : jsvalue :=
  if includes array_prototype_functions k then Inherited BuiltinFunction
  else if String.eqb k "length" then Plain (Some (JNum 0))
  else from_object_prototype proto k.

(** [v[k]] for a [v] that passed [v && typeof v === 'object']: the own member
    if there is one, the inherited one otherwise. *)
Definition get_prop (v : jsvalue) (k : string) : jsvalue :=
  match v with
  | Plain (Some (JObj fields)) =>
      match assoc k fields with
      | Some d => Plain (Some d)
      | None => from_object_prototype (Inherited ObjectPrototype) k
      end
  | Plain (Some (JArr items)) =>
      match own_prop (Some (JArr items)) k with
      | Some d => Plain (Some d)
      | None => from_array_prototype (Inherited ArrayPrototype) k
      end
  | Inherited ObjectPrototype => from_object_prototype (Plain (Some JNull)) k
  | Inherited ArrayPrototype => from_array_prototype (Inherited ObjectPrototype) k
  | _ => Plain undefined
  end.

(** [!!v] and [typeof v === 'object'] on what a read can give. *)
Definition js_truthy (v : jsvalue) : bool :=
  match v with
  | Plain d => truthy d
  | Inherited _ => true
  end.

Definition js_typeof_object (v : jsvalue) : bool :=
  match v with
  | Plain d => typeof_object d
  | Inherited BuiltinFunction => false
  | Inherited _ => true
  end.

(** [a || b] *)
Definition js_or (a b : jsvalue) : jsvalue := if js_truthy a then a else b.

(** ** Completions, for code that may raise *)

Inductive completion (A : Type) : Type :=
| Return (a : A)
| Throw.
Arguments Return {A} a.
Arguments Throw {A}.

Definition cbind {A B} (c : completion A) (k : A → completion B) : completion B :=
  match c with
  | Return a => k a
  | Throw => Throw
  end.

(** [try { body } catch (e) { handler }] *)
Definition try_catch {A} (body : completion A) (handler : completion A) : completion A :=
  match body with
  | Return a => Return a
  | Throw => handler
  end.

Definition returns {A} (c : completion A) : Prop := ∃ a, c = Return a.

(** ** The engine object *)

(** A subscriber: an opaque function value identified by a number. *)
Definition callback := nat.

Record I18nStatic : Type := mkI18n {
  currentLang : string;
  translations : gmap string JSON;
  initialized : bool;
  observers : list callback;
  isApplying : bool;
  observer : option bool  (* [null], or a MutationObserver and whether it is connected *)
}.

(** *** getTranslation (client.js, lines 100-133) *)

(** [this.translations[lang]]: the store is an object literal, so a locale
    it does not hold is looked for on [Object.prototype]. *)
Definition stored (this : I18nStatic) (lang : string) : jsvalue :=
  match translations this !! lang with
  | Some d => Plain (Some d)
  | None => from_object_prototype (Inherited ObjectPrototype) lang
  end.

(** [value && typeof value === 'object'] *)
Definition traversable (v : jsvalue) : bool := js_truthy v && js_typeof_object v.

(** The [for (const k of keys)] loop with its [break]. *)
Fixpoint walk (v : jsvalue) (keys : list string) : jsvalue :=
  match keys with
  | [] => v
  | k :: rest =>
      if traversable v then walk (get_prop v k) rest
      else Plain undefined
  end.

Definition is_undefined (v : jsvalue) : bool :=
  match v with Plain None => true | _ => false end.

(** [lang || this.currentLang] *)
Definition target_lang (this : I18nStatic) (lang : option string) : string :=
  match lang with
  | Some l => if str_truthy l then l else currentLang this
  | None => currentLang this
  end.

(** The body of [getTranslation] once [key] is known to be a non-empty string. *)
Definition resolve (this : I18nStatic) (key : string) (lang : option string) : string :=
  let targetLang := target_lang this lang in
  let dict := js_or (stored this targetLang)
                (js_or (stored this DEFAULT_LANGUAGE) (Plain (Some (JObj [])))) in
  let keys := split "." key in
  let v := walk dict keys in
  let v :=
    if is_undefined v && negb (String.eqb targetLang DEFAULT_LANGUAGE) then
      let enTranslations :=
        js_or (stored this DEFAULT_LANGUAGE) (Plain (Some (JObj []))) in
      walk enTranslations keys
    else v in
  match v with
  | Plain (Some (JStr s)) => s
  | _ => key
  end.

(** [getTranslation(key, lang = null)].  [key] is whatever the caller passes:
    a falsy value returns [''] at once, a string is resolved, and any other
    truthy value has no [split] method, so [key.split('.')] raises. *)
Definition getTranslation (this : I18nStatic) (key : JSON) (lang : option string)
  : completion string :=
  if negb (truthy (Some key)) then Return ""
  else match key with
       | JStr k => Return (resolve this k lang)
       | _ => Throw
       end.

(** *** The spec's reading of a dotted path *)

(** A traversable tree node: a non-null object (or array). *)
Definition tree_node (d : JSON) : bool :=
  match d with
  | JArr _ | JObj _ => true
  | _ => false
  end.

(** [leads_to d ks r]: every segment of [ks] is present in the dictionary,
    each one read off a tree node, and the walk ends on [r]. *)
Inductive leads_to : JSON → list string → JSON → Prop :=
| leads_here d :
    leads_to d [] d
| leads_down d k d' ks r :
    tree_node d = true →
    own_prop (Some d) k = Some d' →
    leads_to d' ks r →
    leads_to d (k :: ks) r.

(** [path_fails d ks]: a segment is missing from the dictionary, or a segment
    has to be read off something that is not a tree node. *)
Inductive path_fails : JSON → list string → Prop :=
| fails_not_tree d k ks :
    tree_node d = false →
    path_fails d (k :: ks)
| fails_missing d k ks :
    tree_node d = true →
    own_prop (Some d) k = undefined →
    path_fails d (k :: ks)
| fails_below d k d' ks :
    tree_node d = true →
    own_prop (Some d) k = Some d' →
    path_fails d' ks →
    path_fails d (k :: ks).

(** The two readings above as one function over the members a dictionary
    holds itself. *)
Fixpoint own_walk (v : value) (keys : list string) : value :=
  match keys with
  | [] => v
  | k :: rest =>
      if truthy v && typeof_object v then own_walk (own_prop v k) rest
      else undefined
  end.

(** A key has a translation in a dictionary when its path leads to a string. *)
Definition translated_in (d : JSON) (key : string) (s : string) : Prop :=
  leads_to d (split "." key) (JStr s).

Definition untranslated_in (dict : value) (key : string) : Prop :=
  ∀ d s, dict = Some d → ¬ translated_in d key s.

(** *** The path as the code reads it *)

(** [path_undefined v ks]: the loop ends on [undefined], because a segment is
    neither held nor inherited by the node it is read off, or because it has
    to be read off something that is not a truthy object. *)
Inductive path_undefined : jsvalue → list string → Prop :=
| undefined_not_traversable v k ks :
    traversable v = false →
    path_undefined v (k :: ks)
| undefined_absent v k ks :
    traversable v = true →
    get_prop v k = Plain undefined →
    path_undefined v (k :: ks)
| undefined_below v k ks :
    traversable v = true →
    path_undefined (get_prop v k) ks →
    path_undefined v (k :: ks).

(** What holds no string and leads to none: no lookup ends on a text there. *)
Definition stringless (v : jsvalue) : Prop :=
  ∀ ks s, walk v ks ≠ Plain (Some (JStr s)).

(** A name that objects or arrays inherit. *)
Definition inherited_name (k : string) : bool :=
  includes object_prototype_functions k
  || includes array_prototype_functions k
  || String.eqb k "__proto__".

(** *** A small store used to exercise the resolver *)

Definition dict_es : JSON :=
  JObj [("nav", JObj [("home", JStr "Inicio"); ("about", JStr "Nosotros")]);
        ("title", JStr "Nuevos Horizontes")].

Definition dict_fr : JSON :=
  JObj [("nav", JObj [("home", JStr "Accueil")]);
        ("title", JObj [("short", JStr "NH")])].

Definition engine_es_fr : I18nStatic :=
  {| currentLang := "es";
     translations := {[ "es" := dict_es; "fr" := dict_fr ]};
     initialized := true;
     observers := [];
     isApplying := false;
     observer := None |}.

(** A default dictionary with an entry named like a member every object
    inherits, beside the French dictionary, which has no such entry. *)
Definition dict_es_builder : JSON :=
  JObj [("nav", JObj [("home", JStr "Inicio"); ("constructor", JStr "Constructor")])].

Definition engine_builder : I18nStatic :=
  {| currentLang := "es";
     translations := {[ "es" := dict_es_builder; "fr" := dict_fr ]};
     initialized := true;
     observers := [];
     isApplying := false;
     observer := None |}.

(** ** The browser around the engine *)

(** What reading one detection source can do. *)
Inductive signal : Type :=
| Raises                 (* the read throws *)
| Absent                 (* [null] / [undefined] *)
| Present (s : string).

(** [localStorage]. *)
Inductive storage : Type :=
| StorageUndefined       (* [typeof localStorage === 'undefined'] *)
| StorageDenied          (* touching [localStorage] raises a SecurityError *)
| StorageItems (items : gmap string string) (full : bool).
                         (* [full]: [setItem] raises a QuotaExceededError *)

(** Outcome of [fetch(url)] followed by [response.json()]. *)
Inductive fetch_outcome : Type :=
| NetworkError                                 (* [fetch] rejects *)
| Response (ok : bool) (body : option JSON).   (* [body = None]: [json()] rejects *)

(** Parsed markup, as produced by the HTML fragment parser. *)
Inductive markup : Type :=
| MText (data : string)
| MComment (data : string)
| MElement (name : string) (attrs : list (string * string)) (children : list markup).

(** The parts of the platform the engine calls and does not define. *)
Record Host : Type := mkHost {
  (** [new URLSearchParams(window.location.search).get('lang')] *)
  url_lang : signal;
  (** [navigator.language], [None] when [navigator] or the property is missing *)
  navigator_language : option string;
  (** result of the [n]-th [fetch], for the file of locale [lang] *)
  fetch : nat → string → fetch_outcome;
  (** [JSON.parse], [None] for a SyntaxError *)
  JSON_parse : string → option JSON;
  (** the fragment parser behind [element.innerHTML = s], by context element *)
  parse_fragment : string → string → list markup;
  (** whether [setAttribute] accepts the name *)
  valid_attribute_name : string → bool;
  (** whether [new CustomEvent(..)] and [dispatchEvent] are available *)
  custom_events : bool;
  (** whether subscriber [cb] raises when called with [lang] *)
  callback_raises : callback → string → bool
}.

(** *** detectLanguage (client.js, lines 40-70) *)

(** [x && SUPPORTED_LANGUAGES.includes(x)] *)
Definition accepted (x : option string) : bool :=
  match x with
  | Some s => str_truthy s && supported s
  | None => false
  end.

(** [localStorage.getItem(STORAGE_KEY)] once [typeof localStorage] did not raise. *)
Definition getItem (items : gmap string string) (k : string) : option string :=
  items !! k.

(** [navigator.language.split('-')[0]] *)
Definition first_subtag (language : string) : string :=
  match split "-" language with
  | [] => ""
  | t :: _ => t
  end.

(** The browser step, which cannot raise. *)
Definition detect_from_browser (h : Host) : option string :=
  match navigator_language h with
  | Some language =>
      if str_truthy language then
        let browserLang := first_subtag language in
        if supported browserLang then Some browserLang else None
      else None
  | None => None
  end.

(** The storage step and what follows it inside the [try]. *)
Definition detect_from_storage (h : Host) (st : storage) : completion (option string) :=
  match st with
  | StorageDenied => Throw
  | StorageUndefined => Return (detect_from_browser h)
  | StorageItems items _ =>
      let stored := getItem items STORAGE_KEY in
      if accepted stored then Return stored
      else Return (detect_from_browser h)
  end.

(** The [try] block: [Return (Some l)] is a [return l] inside it,
    [Return None] is falling off its end. *)
Definition detect_try (h : Host) (st : storage) : completion (option string) :=
  match url_lang h with
  | Raises => Throw
  | Absent => detect_from_storage h st
  | Present urlLang =>
      if accepted (Some urlLang) then Return (Some urlLang)
      else detect_from_storage h st
  end.

Definition detectLanguage (h : Host) (st : storage) : completion string :=
  match try_catch (detect_try h st) (Return None) with
  | Return (Some lang) => Return lang
  | Return None => Return DEFAULT_LANGUAGE
  | Throw => Throw
  end.

(** *** Detection as the specification words it *)

(** A source that fails or is absent gives no signal. *)
Definition url_signal (h : Host) : option string :=
  match url_lang h with
  | Present s => Some s
  | _ => None
  end.

Definition storage_signal (st : storage) : option string :=
  match st with
  | StorageItems items _ => getItem items STORAGE_KEY
  | _ => None
  end.

Definition browser_signal (h : Host) : option string :=
  match navigator_language h with
  | Some language => if str_truthy language then Some (first_subtag language) else None
  | None => None
  end.

(** First accepted signal in the list, else the default. *)
Fixpoint first_accepted (signals : list (option string)) : string :=
  match signals with
  | [] => DEFAULT_LANGUAGE
  | s :: rest => if accepted s then default DEFAULT_LANGUAGE s else first_accepted rest
  end.

(** Every source is consulted in turn, a failed one counting as silent. *)
Definition detect_by_priority (h : Host) (st : storage) : string :=
  first_accepted [url_signal h; storage_signal st; browser_signal h].

(** A source raises before any source ahead of it has produced an accepted
    locale. *)
Definition detection_interrupted (h : Host) (st : storage) : bool :=
  match url_lang h with
  | Raises => true
  | _ => negb (accepted (url_signal h)) &&
         match st with StorageDenied => true | _ => false end
  end.

(** A German browser, no locale in the URL, nothing reachable on the network. *)
Definition host_plain : Host :=
  {| url_lang := Absent;
     navigator_language := Some "de-DE";
     fetch := λ _ _, NetworkError;
     JSON_parse := λ _, None;
     parse_fragment := λ _ s, [MText s];
     valid_attribute_name := str_truthy;
     custom_events := true;
     callback_raises := λ _ _, false |}.

(** A French browser without [URLSearchParams]: reading the URL raises. *)
Definition host_no_url_api : Host :=
  {| url_lang := Raises;
     navigator_language := Some "fr-FR";
     fetch := λ _ _, NetworkError;
     JSON_parse := λ _, None;
     parse_fragment := λ _ s, [MText s];
     valid_attribute_name := str_truthy;
     custom_events := true;
     callback_raises := λ _ _, false |}.

(** A French browser in which storage access is denied. *)
Definition host_browser_fr : Host :=
  {| url_lang := Absent;
     navigator_language := Some "fr-FR";
     fetch := λ _ _, NetworkError;
     JSON_parse := λ _, None;
     parse_fragment := λ _ s, [MText s];
     valid_attribute_name := str_truthy;
     custom_events := true;
     callback_raises := λ _ _, false |}.

Definition storage_pt : storage := StorageItems {[ STORAGE_KEY := "pt" ]} false.

(** ** Numbers *)

(** A JS number: a finite value (compared exactly), an infinity, or NaN. *)
Inductive number : Type :=
| NaN
| Infinity (negative : bool)
| Finite (q : Q).

(** [a <= b] *)
Definition num_le (a b : number) : bool :=
  match a, b with
  | NaN, _ | _, NaN => false
  | Infinity true, _ => true
  | _, Infinity false => true
  | Infinity false, _ => false
  | _, Infinity true => false
  | Finite p, Finite q => Qle_bool p q
  end.

(** [a === b] *)
Definition num_eq (a b : number) : bool :=
  match a, b with
  | Finite p, Finite q => Qeq_bool p q
  | Infinity s, Infinity t => Bool.eqb s t
  | _, _ => false
  end.

Definition one : number := Finite 1.

(** The same comparisons as propositions. *)
Definition at_most_one (count : number) : Prop :=
  match count with
  | NaN => False
  | Infinity negative => negative = true
  | Finite q => (q <= 1)%Q
  end.

Definition exactly_one (count : number) : Prop :=
  match count with
  | Finite q => (q == 1)%Q
  | _ => False
  end.

(** *** pluralize (client.js, lines 459-467) *)

Definition pluralize {A} (this : I18nStatic) (count : number) (singular plural : A)
    (lang : option string) : A :=
  let targetLang := target_lang this lang in
  if String.eqb targetLang "fr" then
    if num_le count one then singular else plural
  else if String.eqb targetLang "pt" then
    if num_le count one then singular else plural
  else
    if num_eq count one then singular else plural.

(** ** The document *)

(** Nodes live in a store and are referred to by identity; an element holds
    the identities of its children.  A node remains in the store when it is
    detached from the tree. *)
Definition node_id := nat.

Record element : Type := mkElement {
  localName : string;
  attributes : gmap string string;
  childNodes : list node_id
}.

Inductive node : Type :=
| TextNode (data : string)
| CommentNode (data : string)
| ElementNode (e : element).

Record Document : Type := mkDocument {
  nodes : gmap node_id node;
  documentElement : option node_id;
  title : string;          (* [document.title] *)
  loading : bool           (* [document.readyState === 'loading'] *)
}.

Definition with_attribute (name val : string) (e : element) : element :=
  {| localName := localName e;
     attributes := <[name := val]> (attributes e);
     childNodes := childNodes e |}.

Definition with_childNodes (ids : list node_id) (e : element) : element :=
  {| localName := localName e;
     attributes := attributes e;
     childNodes := ids |}.

Definition with_nodes (h : gmap node_id node) (d : Document) : Document :=
  {| nodes := h; documentElement := documentElement d;
     title := title d; loading := loading d |}.

Definition with_title (t : string) (d : Document) : Document :=
  {| nodes := nodes d; documentElement := documentElement d;
     title := t; loading := loading d |}.

(** [node.nodeType === 1] *)
Definition is_element (h : gmap node_id node) (i : node_id) : bool :=
  match h !! i with
  | Some (ElementNode _) => true
  | _ => false
  end.

(** [element.children]: the child nodes that are elements. *)
Definition children (h : gmap node_id node) (e : element) : list node_id :=
  List.filter (is_element h) (childNodes e).

(** [element.getAttribute(name)] *)
Definition getAttribute (h : gmap node_id node) (i : node_id) (name : string)
  : option string :=
  match h !! i with
  | Some (ElementNode e) => attributes e !! name
  | _ => None
  end.

(** The attribute store behind [element.setAttribute(name, val)] and behind
    the reflecting properties [placeholder], [lang] and (for buttons) [value]. *)
Definition set_attribute (h : gmap node_id node) (i : node_id) (name val : string)
  : gmap node_id node :=
  match h !! i with
  | Some (ElementNode e) => <[i := ElementNode (with_attribute name val e)]> h
  | _ => h
  end.

(** *** String helpers of the DOM code *)

Definition lower_ascii (c : ascii) : ascii :=
  let n := nat_of_ascii c in
  if (65 <=? n)%nat && (n <=? 90)%nat then ascii_of_nat (n + 32) else c.

Fixpoint lowercase (s : string) : string :=
  match s with
  | EmptyString => EmptyString
  | String c r => String (lower_ascii c) (lowercase r)
  end.

(** White space and line terminators removed by [String.prototype.trim],
    among the code units below 256. *)
Definition is_white (c : ascii) : bool :=
  let n := nat_of_ascii c in
  ((9 <=? n)%nat && (n <=? 13)%nat) || (n =? 32)%nat || (n =? 160)%nat.

Fixpoint trim_start (s : string) : string :=
  match s with
  | EmptyString => EmptyString
  | String c r => if is_white c then trim_start r else s
  end.

(** [s.trim()] *)
Definition trim (s : string) : string :=
  String.rev (trim_start (String.rev (trim_start s))).

(** *** updateElement (client.js, lines 270-304) *)

(** [element.type] of an input or textarea: the [type] attribute in its
    canonical form, ["text"] when missing or unknown. *)
Definition input_types : list string :=
  ["hidden"; "text"; "search"; "tel"; "url"; "email"; "password"; "date";
   "month"; "week"; "time"; "datetime-local"; "number"; "range"; "color";
   "checkbox"; "radio"; "file"; "submit"; "image"; "reset"; "button"].

Definition element_type (e : element) : string :=
  if String.eqb (localName e) "textarea" then "textarea"
  else match attributes e !! "type" with
       | Some t => if includes input_types (lowercase t) then lowercase t else "text"
       | None => "text"
       end.

(** [node.textContent] (getter). *)
Fixpoint textContent (fuel : nat) (h : gmap node_id node) (i : node_id) : string :=
  match h !! i with
  | Some (TextNode data) => data
  | Some (CommentNode data) => data
  | Some (ElementNode e) =>
      match fuel with
      | O => ""
      | S fuel' =>
          String.concat ""
            (map (λ c, match h !! c with
                       | Some (CommentNode _) => ""
                       | _ => textContent fuel' h c
                       end) (childNodes e))
      end
  | None => ""
  end.

(** [element.textContent = s]: the children are replaced by one new text
    node, or by nothing when [s] is empty. *)
Definition set_textContent (h : gmap node_id node) (i : node_id) (e : element)
    (s : string) : gmap node_id node :=
  if str_truthy s then
    let t := fresh (dom h) in
    <[i := ElementNode (with_childNodes [t] e)]> (<[t := TextNode s]> h)
  else <[i := ElementNode (with_childNodes [] e)]> h.

(** The loop over [element.childNodes]: the first text node whose trimmed
    content is not empty. *)
Fixpoint first_text_child (h : gmap node_id node) (ids : list node_id)
  : option node_id :=
  match ids with
  | [] => None
  | c :: rest =>
      match h !! c with
      | Some (TextNode data) =>
          if str_truthy (trim data) then Some c else first_text_child h rest
      | _ => first_text_child h rest
      end
  end.

(** On a submit or button control [element.value = s] sets the [value]
    attribute, and [element.placeholder = s] sets the [placeholder] attribute.
    None of the DOM calls made here raises, so the [try] block is the body. *)
Definition updateElement (h : gmap node_id node) (i : node_id) (translation : string)
  : gmap node_id node :=
  match h !! i with
  | Some (ElementNode e) =>
      if String.eqb (localName e) "input" || String.eqb (localName e) "textarea" then
        if String.eqb (element_type e) "submit" || String.eqb (element_type e) "button"
        then set_attribute h i "value" translation
        else set_attribute h i "placeholder" translation
      else if String.eqb (localName e) "option" then
        set_textContent h i e translation
      else
        let hasChildElements := negb (Nat.eqb (length (children h e)) 0) in
        if hasChildElements then
          match first_text_child h (childNodes e) with
          | Some c => <[c := TextNode translation]> h
          | None =>
              let textNode := fresh (dom h) in
              <[i := ElementNode (with_childNodes (textNode :: childNodes e) e)]>
                (<[textNode := TextNode translation]> h)
          end
        else
          if negb (String.eqb (textContent (size h) h i) translation)
          then set_textContent h i e translation
          else h
  | _ => h
  end.

(** *** The specification's reading of [updateElement] *)

(** A string made of white space only. *)
Fixpoint all_white (s : string) : bool :=
  match s with
  | EmptyString => true
  | String c r => is_white c && all_white r
  end.

(** A direct text node with non-whitespace content. *)
Definition text_bearing (h : gmap node_id node) (c : node_id) : bool :=
  match h !! c with
  | Some (TextNode data) => negb (all_white data)
  | _ => false
  end.

(** Elements with a strategy of their own in [updateElement]. *)
Definition form_control (e : element) : bool :=
  String.eqb (localName e) "input" || String.eqb (localName e) "textarea"
  || String.eqb (localName e) "option".

(** [<a data-i18n=..><i></i> Old</a>]: an icon and a direct text node. *)
Definition link_with_icon : gmap node_id node :=
  {[ 1 := ElementNode {| localName := "a";
                         attributes := {[ "data-i18n" := "nav.home" ]};
                         childNodes := [2; 3] |};
     2 := ElementNode {| localName := "i"; attributes := ∅; childNodes := [] |};
     3 := TextNode " Old" ]}.

(** An option that was given markup, and an input that was given a child. *)
Definition option_with_icon : gmap node_id node :=
  {[ 1 := ElementNode {| localName := "option"; attributes := ∅; childNodes := [2; 3] |};
     2 := ElementNode {| localName := "img"; attributes := ∅; childNodes := [] |};
     3 := TextNode "Old" ]}.

Definition input_with_child : gmap node_id node :=
  {[ 1 := ElementNode {| localName := "input"; attributes := ∅; childNodes := [2] |};
     2 := ElementNode {| localName := "span"; attributes := ∅; childNodes := [] |} ]}.

(** ** The page: the engine together with what it reads and writes *)

(** Work the engine has handed to the browser for later. *)
Inductive task : Type :=
| ApplyWhenReady      (* the [DOMContentLoaded] listener of [init] *)
| ObserveDOM          (* the [setTimeout] of [applyWhenReady] *)
| ApplyOnFrame.       (* the [requestAnimationFrame] of the mutation callback *)

#[export] Instance task_eq_dec : EqDecision task.
Proof. solve_decision. Defined.

Record world : Type := mkWorld {
  engine : I18nStatic;
  document : Document;
  localStorage : storage;
  (** locale files requested so far, oldest first *)
  requests : list string;
  (** subscriber calls made so far, oldest first *)
  notified : list (callback * string);
  (** [i18n:changed] events dispatched so far, oldest first *)
  dispatched : list string;
  (** listeners and timers waiting to run *)
  pending : list task
}.

Definition with_engine (e : I18nStatic) (w : world) : world :=
  {| engine := e; document := document w; localStorage := localStorage w;
     requests := requests w; notified := notified w; dispatched := dispatched w;
     pending := pending w |}.

Definition with_document (d : Document) (w : world) : world :=
  {| engine := engine w; document := d; localStorage := localStorage w;
     requests := requests w; notified := notified w; dispatched := dispatched w;
     pending := pending w |}.

Definition with_localStorage (s : storage) (w : world) : world :=
  {| engine := engine w; document := document w; localStorage := s;
     requests := requests w; notified := notified w; dispatched := dispatched w;
     pending := pending w |}.

Definition with_requests (r : list string) (w : world) : world :=
  {| engine := engine w; document := document w; localStorage := localStorage w;
     requests := r; notified := notified w; dispatched := dispatched w;
     pending := pending w |}.

Definition with_notified (n : list (callback * string)) (w : world) : world :=
  {| engine := engine w; document := document w; localStorage := localStorage w;
     requests := requests w; notified := n; dispatched := dispatched w;
     pending := pending w |}.

Definition with_dispatched (l : list string) (w : world) : world :=
  {| engine := engine w; document := document w; localStorage := localStorage w;
     requests := requests w; notified := notified w; dispatched := l;
     pending := pending w |}.

Definition with_pending (l : list task) (w : world) : world :=
  {| engine := engine w; document := document w; localStorage := localStorage w;
     requests := requests w; notified := notified w; dispatched := dispatched w;
     pending := l |}.

Definition with_currentLang (lang : string) (this : I18nStatic) : I18nStatic :=
  {| currentLang := lang; translations := translations this;
     initialized := initialized this; observers := observers this;
     isApplying := isApplying this; observer := observer this |}.

Definition with_translations (t : gmap string JSON) (this : I18nStatic) : I18nStatic :=
  {| currentLang := currentLang this; translations := t;
     initialized := initialized this; observers := observers this;
     isApplying := isApplying this; observer := observer this |}.

Definition with_initialized (b : bool) (this : I18nStatic) : I18nStatic :=
  {| currentLang := currentLang this; translations := translations this;
     initialized := b; observers := observers this;
     isApplying := isApplying this; observer := observer this |}.

Definition with_observers (l : list callback) (this : I18nStatic) : I18nStatic :=
  {| currentLang := currentLang this; translations := translations this;
     initialized := initialized this; observers := l;
     isApplying := isApplying this; observer := observer this |}.

Definition with_isApplying (b : bool) (this : I18nStatic) : I18nStatic :=
  {| currentLang := currentLang this; translations := translations this;
     initialized := initialized this; observers := observers this;
     isApplying := b; observer := observer this |}.

Definition with_observer (o : option bool) (this : I18nStatic) : I18nStatic :=
  {| currentLang := currentLang this; translations := translations this;
     initialized := initialized this; observers := observers this;
     isApplying := isApplying this; observer := o |}.

(** *** Actions: code that reads and writes the page and may raise *)

(** [None]: the call did not finish within its fuel. *)
Definition action (A : Type) : Type := world → option (completion A * world).

#[export] Instance action_ret : MRet action := λ A a w, Some (Return a, w).

#[export] Instance action_bind : MBind action := λ A B f m w,
  match m w with
  | Some (Return a, w') => f a w'
  | Some (Throw, w') => Some (Throw, w')
  | None => None
  end.

(** [throw] *)
Definition raise {A} : action A := λ w, Some (Throw, w).

(** An expression that may raise, evaluated without touching the page. *)
Definition lift {A} (c : completion A) : action A := λ w, Some (c, w).

(** Reading and writing the page. *)
Definition gets {A} (f : world → A) : action A := λ w, Some (Return (f w), w).
Definition modify (f : world → world) : action unit := λ w, Some (Return tt, f w).

(** [try { body } catch (e) { handler }] *)
Definition attempt {A} (body handler : action A) : action A := λ w,
  match body w with
  | Some (Return a, w') => Some (Return a, w')
  | Some (Throw, w') => handler w'
  | None => None
  end.

(** [try { body } finally { cleanup }] with a [cleanup] that cannot raise. *)
Definition finally {A} (body : action A) (cleanup : world → world) : action A := λ w,
  match body w with
  | Some (c, w') => Some (c, cleanup w')
  | None => None
  end.

(** [l.forEach(f)]: a callback that raises ends the loop. *)
Fixpoint forEach {A} (l : list A) (f : A → action unit) : action unit :=
  match l with
  | [] => mret tt
  | x :: rest => f x;; forEach rest f
  end.

(** *** loadTranslations (client.js, lines 75-95) *)

(** The [try] block: request the file, reject a non-success status, parse the
    body and memoize it under [lang].  The request is logged in [requests]. *)
Definition load_try (h : Host) (lang : string) (w : world) : completion JSON * world :=
  let w1 := with_requests (requests w ++ [lang]) w in
  match fetch h (length (requests w)) lang with
  | NetworkError => (Throw, w1)
  | Response false _ => (Throw, w1)
  | Response true None => (Throw, w1)
  | Response true (Some body) =>
      (Return body,
       with_engine (with_translations (<[lang := body]> (translations (engine w1)))
                      (engine w1)) w1)
  end.

(** One call runs to completion before anything else touches the engine;
    [fuel] bounds the depth of the recursive call in the [catch] block, and
    [None] means the bound was hit.  The assignment in [load_try] is reached
    only for a [lang] whose read was falsy, so it makes or replaces an own
    member of the store. *)
Fixpoint loadTranslations (fuel : nat) (h : Host) (lang : string) : action jsvalue :=
  match fuel with
  | O => λ _, None
  | S fuel' => λ w,
      if js_truthy (stored (engine w) lang)
      then Some (Return (stored (engine w) lang), w)
      else
        match load_try h lang w with
        | (Return d, w') => Some (Return (Plain (Some d)), w')
        | (Throw, w') =>
            if negb (String.eqb lang DEFAULT_LANGUAGE)
               && negb (js_truthy (stored (engine w') DEFAULT_LANGUAGE))
            then loadTranslations fuel' h DEFAULT_LANGUAGE w'
            else Some (Return (js_or (stored (engine w') DEFAULT_LANGUAGE)
                                 (Plain (Some (JObj [])))), w')
        end
  end.

(** *** The specification's reading of a load *)

(** The dictionary a request delivers; [None] on a network failure, a
    non-success status or an unreadable body. *)
Definition fetched_body (o : fetch_outcome) : option JSON :=
  match o with
  | Response true (Some body) => Some body
  | _ => None
  end.

(** A locale counts as loaded when reading it off the store gives a truthy
    value. *)
Definition loaded (this : I18nStatic) (lang : string) : bool :=
  js_truthy (stored this lang).

(** The world after [lang]'s file was requested, and after [body] was stored. *)
Definition requested (lang : string) (w : world) : world :=
  with_requests (requests w ++ [lang]) w.

Definition memoized (lang : string) (body : JSON) (w : world) : world :=
  with_engine (with_translations (<[lang := body]> (translations (engine w)))
                 (engine w)) w.

(** A network on which only the Spanish file can be fetched. *)
Definition host_only_es : Host :=
  {| url_lang := Absent;
     navigator_language := None;
     fetch := λ _ lang, if String.eqb lang "es" then Response true (Some dict_es)
                        else Response false None;
     JSON_parse := λ _, None;
     parse_fragment := λ _ s, [MText s];
     valid_attribute_name := str_truthy;
     custom_events := true;
     callback_raises := λ _ _, false |}.

Definition empty_document : Document :=
  {| nodes := ∅; documentElement := None; title := ""; loading := false |}.

Definition engine_new (lang : string) : I18nStatic :=
  {| currentLang := lang; translations := ∅; initialized := false;
     observers := []; isApplying := false; observer := None |}.

Definition world_new : world :=
  {| engine := engine_new "es"; document := empty_document;
     localStorage := StorageUndefined; requests := [];
     notified := []; dispatched := []; pending := [] |}.

(** *** Queries over the document *)

(** Elements of the subtree at [i], in tree order. *)
Fixpoint subtree (fuel : nat) (h : gmap node_id node) (i : node_id) : list node_id :=
  match fuel with
  | O => []
  | S fuel' =>
      match h !! i with
      | Some (ElementNode e) => i :: flat_map (subtree fuel' h) (childNodes e)
      | _ => []
      end
  end.

(** Every element attached to the document, in tree order; a tree is never
    deeper than the number of nodes in the store. *)
Definition elements (d : Document) : list node_id :=
  match documentElement d with
  | Some root => subtree (size (nodes d)) (nodes d) root
  | None => []
  end.

(** [document.querySelectorAll('[name]')], a static list. *)
Definition querySelectorAll (d : Document) (name : string) : list node_id :=
  List.filter (λ i, bool_decide (is_Some (getAttribute (nodes d) i name))) (elements d).

(** [document.querySelector('meta[name="n"]')] *)
Definition querySelector_meta (d : Document) (n : string) : option node_id :=
  List.find (λ i, match nodes d !! i with
                  | Some (ElementNode e) =>
                      String.eqb (localName e) "meta"
                      && bool_decide (attributes e !! "name" = Some n)
                  | _ => false
                  end) (elements d).

(** [document.body] *)
Definition body (d : Document) : option node_id :=
  match documentElement d with
  | Some root =>
      match nodes d !! root with
      | Some (ElementNode e) =>
          List.find (λ c, match nodes d !! c with
                          | Some (ElementNode b) =>
                              String.eqb (localName b) "body"
                              || String.eqb (localName b) "frameset"
                          | _ => false
                          end) (childNodes e)
      | _ => None
      end
  | None => None
  end.

(** *** innerHTML *)

(** Nodes created for parsed markup; the children come first, then the
    element that holds them. *)
Fixpoint create (m : markup) (h : gmap node_id node) : node_id * gmap node_id node :=
  match m with
  | MText data => let i := fresh (dom h) in (i, <[i := TextNode data]> h)
  | MComment data => let i := fresh (dom h) in (i, <[i := CommentNode data]> h)
  | MElement name attrs kids =>
      let '(ids, h1) :=
        (fix create_all (ms : list markup) (h : gmap node_id node) :=
           match ms with
           | [] => ([], h)
           | m :: rest =>
               let '(i, h') := create m h in
               let '(ids, h'') := create_all rest h' in
               (i :: ids, h'')
           end) kids h in
      let i := fresh (dom h1) in
      (i, <[i := ElementNode {| localName := name;
                                attributes := list_to_map attrs;
                                childNodes := ids |}]> h1)
  end.

Fixpoint create_all (ms : list markup) (h : gmap node_id node)
  : list node_id * gmap node_id node :=
  match ms with
  | [] => ([], h)
  | m :: rest =>
      let '(i, h') := create m h in
      let '(ids, h'') := create_all rest h' in
      (i :: ids, h'')
  end.

(** [element.innerHTML = s]: the children are replaced by the parsed nodes. *)
Definition set_innerHTML (host : Host) (h : gmap node_id node) (i : node_id) (s : string)
  : gmap node_id node :=
  match h !! i with
  | Some (ElementNode e) =>
      let '(ids, h1) := create_all (parse_fragment host (localName e) s) h in
      <[i := ElementNode (with_childNodes ids e)]> h1
  | _ => h
  end.

(** *** applyTranslations (client.js, lines 172-265) *)

Definition modify_nodes (f : gmap node_id node → gmap node_id node) : action unit :=
  modify (λ w, with_document (with_nodes (f (nodes (document w))) (document w)) w).

(** [translation && translation !== key] *)
Definition found (translation : string) (key : value) : bool :=
  str_truthy translation
  && negb match key with
          | Some (JStr k) => String.eqb translation k
          | _ => false
          end.

(** [this.getTranslation(key)] *)
Definition translate (key : value) : action string :=
  this ← gets engine;
  lift (getTranslation this (default JNull key) None).

(** Callback of the [data-i18n] loop. *)
Definition translate_text (i : node_id) : action unit :=
  key ← gets (λ w, getAttribute (nodes (document w)) i "data-i18n");
  match key with
  | Some k =>
      if str_truthy k then
        translation ← translate (Some (JStr k));
        if found translation (Some (JStr k))
        then modify_nodes (λ h, updateElement h i translation)
        else mret tt
      else mret tt
  | None => mret tt
  end.

(** Callback of the [data-i18n-html] loop. *)
Definition translate_html (host : Host) (i : node_id) : action unit :=
  key ← gets (λ w, getAttribute (nodes (document w)) i "data-i18n-html");
  match key with
  | Some k =>
      if str_truthy k then
        translation ← translate (Some (JStr k));
        if found translation (Some (JStr k))
        then modify_nodes (λ h, set_innerHTML host h i translation)
        else mret tt
      else mret tt
  | None => mret tt
  end.

(** [Object.keys(v)] *)
Definition object_keys (v : JSON) : completion (list string) :=
  match v with
  | JNull => Throw
  | JObj fields => Return (map fst fields)
  | JArr items => Return (map index_name (seq 0 (length items)))
  | JStr s => Return (map index_name (seq 0 (String.length s)))
  | JBool _ | JNum _ => Return []
  end.

(** [attrs[attr]] for an [attr] that [Object.keys(attrs)] listed, which is
    an own member; a string is indexed by position. *)
Definition member (v : JSON) (k : string) : value :=
  match v with
  | JStr s =>
      item_at k 0 (map (λ c, JStr (String c EmptyString)) (list_ascii_of_string s))
  | _ => own_prop (Some v) k
  end.

(** [element.setAttribute(name, val)] on an HTML element. *)
Definition setAttribute (host : Host) (i : node_id) (name val : string) : action unit :=
  if valid_attribute_name host name
  then modify_nodes (λ h, set_attribute h i (lowercase name) val)
  else raise.

(** Callback of the [data-i18n-attr] loop, with its own [try]/[catch]. *)
Definition translate_attrs (host : Host) (i : node_id) : action unit :=
  attrData ← gets (λ w, getAttribute (nodes (document w)) i "data-i18n-attr");
  match attrData with
  | Some data =>
      if str_truthy data then
        attempt
          (attrs ← lift (match JSON_parse host data with
                         | Some v => Return v
                         | None => Throw
                         end);
           keys ← lift (object_keys attrs);
           forEach keys (λ attr,
             let key := member attrs attr in
             translation ← translate key;
             if found translation key
             then setAttribute host i attr translation
             else mret tt))
          (mret tt)
      else mret tt
  | None => mret tt
  end.

(** The [i18n-title] and [i18n-description] markers. *)
Definition translate_title : action unit :=
  titleMeta ← gets (λ w, querySelector_meta (document w) "i18n-title");
  match titleMeta with
  | Some m =>
      titleKey ← gets (λ w, getAttribute (nodes (document w)) m "content");
      match titleKey with
      | Some k =>
          if str_truthy k then
            translation ← translate (Some (JStr k));
            if found translation (Some (JStr k))
            then modify (λ w, with_document (with_title translation (document w)) w)
            else mret tt
          else mret tt
      | None => mret tt
      end
  | None => mret tt
  end.

Definition translate_description : action unit :=
  descMeta ← gets (λ w, querySelector_meta (document w) "i18n-description");
  match descMeta with
  | Some m =>
      descKey ← gets (λ w, getAttribute (nodes (document w)) m "content");
      match descKey with
      | Some k =>
          if str_truthy k then
            metaDesc ← gets (λ w, querySelector_meta (document w) "description");
            match metaDesc with
            | Some target =>
                translation ← translate (Some (JStr k));
                if found translation (Some (JStr k))
                then modify_nodes (λ h, set_attribute h target "content" translation)
                else mret tt
            | None => mret tt
            end
          else mret tt
      | None => mret tt
      end
  | None => mret tt
  end.

(** [this.observer.disconnect()] and [this.observer.observe(document.body, ..)] *)
Definition disconnect_observer (w : world) : world :=
  match observer (engine w) with
  | Some _ => with_engine (with_observer (Some false) (engine w)) w
  | None => w
  end.

Definition reconnect_observer (w : world) : world :=
  match observer (engine w), body (document w) with
  | Some _, Some _ => with_engine (with_observer (Some true) (engine w)) w
  | _, _ => w
  end.

Definition set_isApplying (b : bool) (w : world) : world :=
  with_engine (with_isApplying b (engine w)) w.

(** The [try] block of [applyTranslations]. *)
Definition apply_pass (host : Host) : action unit :=
  modify disconnect_observer;;
  els ← gets (λ w, querySelectorAll (document w) "data-i18n");
  forEach els translate_text;;
  htmlElements ← gets (λ w, querySelectorAll (document w) "data-i18n-html");
  forEach htmlElements (translate_html host);;
  attrElements ← gets (λ w, querySelectorAll (document w) "data-i18n-attr");
  forEach attrElements (translate_attrs host);;
  translate_title;;
  translate_description;;
  modify reconnect_observer.

Definition applyTranslations (host : Host) : action unit := λ w,
  if isApplying (engine w) then Some (Return tt, w)
  else
    (modify (set_isApplying true);;
     finally (attempt (apply_pass host) (mret tt)) (set_isApplying false)) w.

(** *** notifyObservers and onLanguageChange (client.js, lines 387-408) *)

(** [callback(lang)]: the call is recorded, then the subscriber may raise. *)
Definition call_observer (host : Host) (lang : string) (cb : callback) : action unit :=
  modify (λ w, with_notified (notified w ++ [(cb, lang)]) w);;
  if callback_raises host cb lang then raise else mret tt.

Definition notifyObservers (host : Host) (lang : string) : action unit :=
  attempt
    (subscribers ← gets (λ w, observers (engine w));
     forEach subscribers (λ cb, attempt (call_observer host lang cb) (mret tt)))
    (mret tt).

(** What a caller may pass to [onLanguageChange]. *)
Inductive argument : Type :=
| Function (cb : callback)
| NotFunction.

Definition onLanguageChange (arg : argument) : action unit :=
  match arg with
  | Function cb =>
      modify (λ w, with_engine (with_observers (observers (engine w) ++ [cb]) (engine w)) w)
  | NotFunction => mret tt
  end.

(** *** changeLanguage (client.js, lines 138-167) *)

(** [if (typeof localStorage !== 'undefined') localStorage.setItem(k, v)] *)
Definition setItem (k v : string) : action unit := λ w,
  match localStorage w with
  | StorageUndefined => Some (Return tt, w)
  | StorageDenied => Some (Throw, w)
  | StorageItems items full =>
      if full then Some (Throw, w)
      else Some (Return tt, with_localStorage (StorageItems (<[k := v]> items) full) w)
  end.

(** [if (document.documentElement) document.documentElement.lang = lang] *)
Definition set_document_lang (lang : string) (w : world) : world :=
  match documentElement (document w) with
  | Some root =>
      with_document
        (with_nodes (set_attribute (nodes (document w)) root "lang" lang) (document w)) w
  | None => w
  end.

(** [window.dispatchEvent(new CustomEvent('i18n:changed', { detail: { lang } }))] *)
Definition dispatch_changed (host : Host) (lang : string) : action unit :=
  if custom_events host
  then modify (λ w, with_dispatched (dispatched w ++ [lang]) w)
  else raise.

Definition set_currentLang (lang : string) (w : world) : world :=
  with_engine (with_currentLang lang (engine w)) w.

Definition changeLanguage (fuel : nat) (host : Host) (lang : string) : action unit :=
  if negb (supported lang) then mret tt
  else
    modify (set_currentLang lang);;
    attempt (setItem STORAGE_KEY lang) (mret tt);;
    modify (set_document_lang lang);;
    loadTranslations fuel host lang;;
    applyTranslations host;;
    attempt (dispatch_changed host lang) (mret tt);;
    notifyObservers host lang.

(** *** init and observeDOM (client.js, lines 309-382) *)

Definition set_initialized (w : world) : world :=
  with_engine (with_initialized true (engine w)) w.

Definition schedule (t : task) (w : world) : world :=
  with_pending (pending w ++ [t]) w.

(** The closure [applyWhenReady] of [init]. *)
Definition applyWhenReady (host : Host) : action unit :=
  applyTranslations host;;
  modify (schedule ObserveDOM);;
  modify set_initialized.

Definition init (fuel : nat) (host : Host) : action unit := λ w,
  if initialized (engine w) then Some (Return tt, w)
  else
    attempt
      (lang ← (λ w, lift (detectLanguage host (localStorage w)) w);
       modify (set_currentLang lang);;
       modify (set_document_lang lang);;
       loadTranslations fuel host lang;;
       still_loading ← gets (λ w, loading (document w));
       if (still_loading : bool) then modify (schedule ApplyWhenReady)
       else applyWhenReady host)
      (modify set_initialized) w.

Definition observeDOM : action unit := λ w,
  match body (document w), observer (engine w) with
  | Some _, None => Some (Return tt, with_engine (with_observer (Some true) (engine w)) w)
  | _, _ => Some (Return tt, w)
  end.

(** The MutationObserver callback; [relevant] tells whether some added
    element carries or contains an annotation. *)
Definition on_mutations (relevant : bool) : action unit := λ w,
  if isApplying (engine w) then Some (Return tt, w)
  else if relevant then Some (Return tt, schedule ApplyOnFrame w)
  else Some (Return tt, w).

(** [new I18nStatic()] *)
Definition new_I18nStatic (host : Host) (st : storage) : completion I18nStatic :=
  cbind (detectLanguage host st) (λ lang,
    Return {| currentLang := lang; translations := ∅; initialized := false;
              observers := []; isApplying := false; observer := None |}).

(** *** The life of a page *)

(** What can happen to the page once the engine exists. *)
Inductive event : Type :=
| CallInit
| CallChangeLanguage (lang : string)
| CallOnLanguageChange (arg : argument)
| CallApplyTranslations
| CallLoadTranslations (lang : string)
| DOMContentLoaded
| Timeout
| AnimationFrame
| Mutations (relevant : bool)
| Elsewhere (d : Document) (st : storage).   (* other scripts, the user *)

(** Removing the first waiting occurrence of a task, if there is one. *)
Fixpoint take_first (t : task) (l : list task) : option (list task) :=
  match l with
  | [] => None
  | x :: rest =>
      if decide (x = t) then Some rest else (x ::.) <$> take_first t rest
  end.

Definition take (t : task) (w : world) : option world :=
  (λ l, with_pending l w) <$> take_first t (pending w).

Definition ignore {A} (a : action A) : action unit := a;; mret tt.

Definition handle (fuel : nat) (host : Host) (ev : event) : action unit := λ w,
  match ev with
  | CallInit => init fuel host w
  | CallChangeLanguage lang => changeLanguage fuel host lang w
  | CallOnLanguageChange arg => onLanguageChange arg w
  | CallApplyTranslations => applyTranslations host w
  | CallLoadTranslations lang => ignore (loadTranslations fuel host lang) w
  | DOMContentLoaded =>
      let w := with_document
                 {| nodes := nodes (document w);
                    documentElement := documentElement (document w);
                    title := title (document w); loading := false |} w in
      match take ApplyWhenReady w with
      | Some w' => applyWhenReady host w'
      | None => Some (Return tt, w)
      end
  | Timeout =>
      match take ObserveDOM w with
      | Some w' => observeDOM w'
      | None => Some (Return tt, w)
      end
  | AnimationFrame =>
      match take ApplyOnFrame w with
      | Some w' => applyTranslations host w'
      | None => Some (Return tt, w)
      end
  | Mutations relevant =>
      match observer (engine w) with
      | Some true => on_mutations relevant w
      | _ => Some (Return tt, w)
      end
  | Elsewhere d st => Some (Return tt, with_localStorage st (with_document d w))
  end.

(** Pages reachable from a freshly constructed engine. *)
Inductive reachable (host : Host) : world → Prop :=
| reach_new d st this :
    new_I18nStatic host st = Return this →
    reachable host {| engine := this; document := d; localStorage := st;
                      requests := []; notified := []; dispatched := [];
                      pending := [] |}
| reach_step w fuel ev c w' :
    reachable host w →
    handle fuel host ev w = Some (c, w') →
    reachable host w'.

(** *** Reasoning about actions *)

(** Every finished run of [a] relates the world before to the world after. *)
Definition keeps {A} (R : relation world) (a : action A) : Prop :=
  ∀ w c w', a w = Some (c, w') → R w w'.

(** [a] always finishes, normally or by raising. *)
Definition total {A} (a : action A) : Prop :=
  ∀ w, ∃ c w', a w = Some (c, w').

(** [a] always finishes and never raises. *)
Definition safe {A} (a : action A) : Prop :=
  ∀ w, ∃ x w', a w = Some (Return x, w').

(** The engine state a subscriber relies on, and the record of past calls. *)
Definition same_subscribers : relation world := λ w w',
  currentLang (engine w') = currentLang (engine w)
  ∧ observers (engine w') = observers (engine w)
  ∧ notified w' = notified w.

(** The active locale is untouched. *)
Definition same_lang : relation world := λ w w',
  currentLang (engine w') = currentLang (engine w).

(** The active locale is one of the supported ones. *)
Definition lang_ok (w : world) : Prop :=
  supported (currentLang (engine w)) = true.

(** *** Scenario for locale switching *)

(** Three subscribers, the second of which raises on every call. *)
Definition host_second_raises : Host :=
  {| url_lang := Absent;
     navigator_language := None;
     fetch := λ _ lang, if String.eqb lang "es" then Response true (Some dict_es)
                        else if String.eqb lang "fr" then Response true (Some dict_fr)
                        else Response false None;
     JSON_parse := λ _, None;
     parse_fragment := λ _ s, [MText s];
     valid_attribute_name := str_truthy;
     custom_events := true;
     callback_raises := λ cb _, Nat.eqb cb 2 |}.

Definition world_subscribed : world :=
  {| engine := with_observers [1; 2; 3] (engine_new "es");
     document := empty_document;
     localStorage := StorageItems ∅ false;
     requests := []; notified := []; dispatched := []; pending := [] |}.

(** The calls [notifyObservers] owes to the subscribers. *)
Definition calls_for (lang : string) (subscribers : list callback)
  : list (callback * string) :=
  map (λ cb, (cb, lang)) subscribers.

(** *** Scenario for repeated synchronisation *)

(** [<html><body><span data-i18n="ui.sep"><i></i></span></body></html>] *)
Definition page_nodes : gmap node_id node :=
  {[ 1 := ElementNode {| localName := "html"; attributes := ∅; childNodes := [2] |};
     2 := ElementNode {| localName := "body"; attributes := ∅; childNodes := [3] |};
     3 := ElementNode {| localName := "span";
                         attributes := {[ "data-i18n" := "ui.sep" ]};
                         childNodes := [4] |};
     4 := ElementNode {| localName := "i"; attributes := ∅; childNodes := [] |} ]}.

(** The page above under a Spanish dictionary whose entry [ui.sep] is [sep]. *)
Definition page_with_separator (sep : string) : world :=
  {| engine := {| currentLang := "es";
                  translations := {[ "es" := JObj [("ui", JObj [("sep", JStr sep)])] ]};
                  initialized := true; observers := []; isApplying := false;
                  observer := None |};
     document := {| nodes := page_nodes; documentElement := Some 1;
                    title := ""; loading := false |};
     localStorage := StorageUndefined;
     requests := []; notified := []; dispatched := []; pending := [] |}.

(** The world after one pass, and after two. *)
Definition after_pass (host : Host) (w : world) : option world :=
  match applyTranslations host w with
  | Some (Return _, w') => Some w'
  | _ => None
  end.

Definition after_two_passes (host : Host) (w : world) : option world :=
  after_pass host w ≫= after_pass host.

(** [element.childNodes] and the rendered text of an element of the page. *)
Definition childNodes_of (w : world) (i : node_id) : list node_id :=
  match nodes (document w) !! i with
  | Some (ElementNode e) => childNodes e
  | _ => []
  end.

Definition text_of (w : world) (i : node_id) : string :=
  textContent (size (nodes (document w))) (nodes (document w)) i.

(** *** Frames and invariants of actions *)

(** The worlds agree on what [f] reads. *)
Definition same_on {A} (f : world → A) : relation world := λ w w', f w' = f w.

(** Every finished run of [a] started where [I] holds ends where [I] holds. *)
Definition preserves {A} (I : world → Prop) (a : action A) : Prop :=
  ∀ w c w', I w → a w = Some (c, w') → I w'.

(** What a synchronisation pass has no business with: everything but the
    document, the re-entrancy flag and the observer connection. *)
Definition outside_pass (w : world) :=
  (currentLang (engine w), translations (engine w), initialized (engine w),
   observers (engine w), localStorage w, requests w, notified w, dispatched w,
   pending w).

(** What a dictionary load has no business with: everything but the
    dictionaries and the request log. *)
Definition outside_load (w : world) :=
  (currentLang (engine w), initialized (engine w), observers (engine w),
   isApplying (engine w), observer (engine w), document w, localStorage w,
   notified w, dispatched w, pending w).

(** No key has a translation to apply: whatever [getTranslation] returns
    fails the test [translation && translation !== key]. *)
Definition nothing_to_apply (this : I18nStatic) : Prop :=
  ∀ key t, getTranslation this (default JNull key) None = Return t →
           found t key = false.

(** The document survives as long as nothing is there to apply. *)
Definition document_kept : relation world := λ w w',
  nothing_to_apply (engine w) →
  nothing_to_apply (engine w') ∧ document w' = document w.

(** Dictionaries in the store stay what they are. *)
Definition store_grows : relation world := λ w w',
  ∀ lang d, translations (engine w) !! lang = Some d →
            truthy (Some d) = true →
            translations (engine w') !! lang = Some d.

(** Subscribers and the record of their calls are only ever extended. *)
Definition subscribers_grow : relation world := λ w w',
  observers (engine w) `prefix_of` observers (engine w')
  ∧ notified w `prefix_of` notified w'.

(** The request log is only ever extended. *)
Definition requests_grow : relation world := λ w w',
  requests w `prefix_of` requests w'.

(** The re-entrancy flag is down. *)
Definition idle (w : world) : Prop := isApplying (engine w) = false.

(** A flag that is down stays down. *)
Definition stays_idle : relation world := λ w w', idle w → idle w'.

(** The page of the pass scenario before any dictionary has arrived. *)
Definition page_unloaded : world :=
  {| engine := engine_new "es";
     document := {| nodes := page_nodes; documentElement := Some 1;
                    title := ""; loading := false |};
     localStorage := StorageUndefined;
     requests := []; notified := []; dispatched := []; pending := [] |}.

(** The fresh page once the Spanish dictionary is in the store. *)
Definition world_es_loaded : world := memoized "es" dict_es world_new.

(** A network on which the two dictionaries of the resolver scenario are
    served. *)
Definition host_es_fr : Host :=
  {| url_lang := Absent;
     navigator_language := None;
     fetch := λ _ lang, if String.eqb lang "es" then Response true (Some dict_es)
                        else if String.eqb lang "fr" then Response true (Some dict_fr)
                        else Response false None;
     JSON_parse := λ _, None;
     parse_fragment := λ _ s, [MText s];
     valid_attribute_name := str_truthy;
     custom_events := true;
     callback_raises := λ _ _, false |}.

(** *** The small getters (client.js, lines 469-475) *)

Definition getCurrentLanguage (this : I18nStatic) : string := currentLang this.

Definition getSupportedLanguages : list string := SUPPORTED_LANGUAGES.

(** *** What a switch of locale leaves behind *)

(** The storage after a best-effort [setItem(STORAGE_KEY, lang)]: written when
    there is a storage with room, left alone otherwise. *)
Definition persisted (lang : string) (st : storage) : storage :=
  match st with
  | StorageItems items false => StorageItems (<[STORAGE_KEY := lang]> items) false
  | _ => st
  end.

(** The events dispatched by one switch. *)
Definition announced (host : Host) (lang : string) : list string :=
  if custom_events host then [lang] else [].

(** What a switch reads or writes besides dictionaries, document and calls. *)
Definition switch_state (w : world) :=
  (currentLang (engine w), localStorage w, dispatched w, pending w,
   initialized (engine w)).

(** What the start of the engine reads or writes besides dictionaries,
    requests and the document. *)
Definition start_state (w : world) :=
  (currentLang (engine w), initialized (engine w), pending w, localStorage w,
   observers (engine w), notified w).

(** Worlds that differ at most in node [i] of the tree. *)
Definition only_node (i : node_id) : relation world := λ w w',
  (∀ j, j ≠ i → nodes (document w') !! j = nodes (document w) !! j)
  ∧ is_element (nodes (document w')) i = is_element (nodes (document w)) i
  ∧ title (document w') = title (document w)
  ∧ engine w' = engine w.

(** One round of the loop over [Object.keys(attrs)], seen from the element:
    the attribute named by the entry receives the translation of the entry's
    key when there is one. *)
Definition apply_attr (this : I18nStatic) (e : element) (entry : string * JSON) : element :=
  match getTranslation this entry.2 None with
  | Return translation =>
      if found translation (Some entry.2)
      then with_attribute (lowercase entry.1) translation e
      else e
  | Throw => e
  end.

(** A form field annotated as in the README's example of [data-i18n-attr],
    and a host whose [JSON.parse] reads that annotation. *)
Definition quoted (s : string) : string :=
  String "034"%char s +:+ String "034"%char EmptyString.

Definition attr_data : string :=
  "{" +:+ quoted "placeholder" +:+ ":" +:+ quoted "form.email" +:+ ","
      +:+ quoted "title" +:+ ":" +:+ quoted "form.hint" +:+ "}".

Definition host_attr_map : Host :=
  {| url_lang := Absent;
     navigator_language := None;
     fetch := λ _ _, NetworkError;
     JSON_parse := λ s,
       if String.eqb s attr_data
       then Some (JObj [("placeholder", JStr "form.email"); ("title", JStr "form.hint")])
       else None;
     parse_fragment := λ _ s, [MText s];
     valid_attribute_name := str_truthy;
     custom_events := true;
     callback_raises := λ _ _, false |}.

Definition field_with_map : element :=
  {| localName := "input";
     attributes := {[ "data-i18n-attr" := attr_data ]};
     childNodes := [] |}.

Definition world_attr_map : world :=
  {| engine :=
       with_translations
         {[ "es" := JObj [("form", JObj [("email", JStr "Correo")])] ]}
         (engine_new "es");
     document :=
       {| nodes := {[ 1 := ElementNode field_with_map ]};
          documentElement := None; title := ""; loading := false |};
     localStorage := storage_pt;
     requests := []; notified := []; dispatched := []; pending := [] |}.

(** A French dictionary in which [nav] is a group, beside a default
    dictionary in which [nav] is itself a text. *)
Definition engine_group_fr : I18nStatic :=
  with_currentLang "fr"
    (with_translations
       {[ "fr" := JObj [("nav", JObj [("home", JStr "Accueil")])];
          "es" := JObj [("nav", JStr "Navegar")] ]}
       (engine_new "fr")).

(** *** initializeI18n (client.js, lines 489-511) *)



(** *** The previous [updateElement] (the earlier client.js, lines 265-284) *)

Module Previous.
Definition updateElement (h : gmap node_id node) (i : node_id) (translation : string)
  : gmap node_id node :=
  match h !! i with
  | Some (ElementNode e) =>
      if String.eqb (localName e) "input" || String.eqb (localName e) "textarea" then
        if String.eqb (element_type e) "submit" || String.eqb (element_type e) "button"
        then set_attribute h i "value" translation
        else set_attribute h i "placeholder" translation
      else if String.eqb (localName e) "option" then
        set_textContent h i e translation
      else
        if negb (String.eqb (textContent (size h) h i) translation)
        then set_textContent h i e translation
        else h
  | _ => h
  end.
End Previous.

(** A page whose observer is connected. *)
Definition world_observed : world :=
  {| engine := with_observer (Some true) (engine_new "es");
     document := {| nodes := page_nodes; documentElement := Some 1;
                    title := ""; loading := false |};
     localStorage := storage_pt;
     requests := []; notified := []; dispatched := []; pending := [] |}.

(** [<html><body><a data-i18n="nav.home"><i></i> Old</a></body></html>],
    before any dictionary is loaded, and while it is still being parsed with
    the Spanish dictionary loaded and the pass waiting for
    [DOMContentLoaded]. *)
Definition home_nodes : gmap node_id node :=
  {[ 1 := ElementNode {| localName := "html"; attributes := ∅; childNodes := [2] |};
     2 := ElementNode {| localName := "body"; attributes := ∅; childNodes := [3] |};
     3 := ElementNode {| localName := "a";
                         attributes := {[ "data-i18n" := "nav.home" ]};
                         childNodes := [4; 5] |};
     4 := ElementNode {| localName := "i"; attributes := ∅; childNodes := [] |};
     5 := TextNode " Old" ]}.


Definition page_home_waiting : world :=
  {| engine := with_translations {[ "es" := dict_es ]} (engine_new "es");
     document := {| nodes := home_nodes; documentElement := Some 1;
                    title := ""; loading := true |};
     localStorage := StorageUndefined;
     requests := ["es"]; notified := []; dispatched := [];
     pending := [ApplyWhenReady] |}.

(** The page once the parser is done: [document.readyState] is no longer
    ['loading']. *)
Definition ready (w : world) : world :=
  with_document {| nodes := nodes (document w);
                   documentElement := documentElement (document w);
                   title := title (document w); loading := false |} w.

(** *** A load seen across its awaits *)

(** The [try] block of [loadTranslations] suspends between sending the
    request and storing the parsed body.  [load_begin] is the part before the
    suspension: the answer from the store, or the request sent, remembered
    with its number.  [load_resume] is the part after it. *)
Record suspended : Type := mkSuspended {
  load_lang : string;
  load_number : nat
}.

Definition load_begin (lang : string) (w : world) : jsvalue + suspended * world :=
  if js_truthy (stored (engine w) lang) then inl (stored (engine w) lang)
  else inr ({| load_lang := lang; load_number := length (requests w) |},
            with_requests (requests w ++ [lang]) w).

Definition load_resume (h : Host) (p : suspended) (w : world) : completion JSON * world :=
  match fetch h (load_number p) (load_lang p) with
  | NetworkError => (Throw, w)
  | Response false _ => (Throw, w)
  | Response true None => (Throw, w)
  | Response true (Some body) =>
      (Return body,
       with_engine (with_translations (<[load_lang p := body]> (translations (engine w)))
                      (engine w)) w)
  end.

(** A network that serves a newer French file to the second request. *)
Definition dict_fr_newer : JSON :=
  JObj [("nav", JObj [("home", JStr "Bienvenue")])].

Definition host_fr_updated : Host :=
  {| url_lang := Absent;
     navigator_language := None;
     fetch := λ n lang, if String.eqb lang "fr"
                        then Response true (Some (if (n =? 0)%nat then dict_fr
                                                  else dict_fr_newer))
                        else Response false None;
     JSON_parse := λ _, None;
     parse_fragment := λ _ s, [MText s];
     valid_attribute_name := str_truthy;
     custom_events := true;
     callback_raises := λ _ _, false |}.

(** * Properties *)

(** ** Strings *)

Lemma split_nonempty sep s : split sep s ≠ [].
Proof.
  destruct s as [|c r]; simpl; [done|].
  destruct (Ascii.eqb c sep); [done|].
  by destruct (split sep r).
Qed.

Lemma join_split sep s : join sep (split sep s) = s.
Proof.
  induction s as [|c r IH]; simpl; [done|].
  destruct (Ascii.eqb_spec c sep) as [->|Hne].
  - pose proof (split_nonempty sep r) as Hr.
    destruct (split sep r) as [|h t] eqn:E; [done|].
    change (join sep ("" :: h :: t)) with (String sep (join sep (h :: t))).
    by rewrite IH.
  - destruct (split sep r) as [|h t] eqn:E; [by destruct (split_nonempty sep r)|].
    destruct t as [|h' t]; simpl in *; by rewrite <- IH.
Qed.

Lemma str_truthy_true s : str_truthy s = true ↔ s ≠ "".
Proof. destruct s; simpl; split; intros; congruence. Qed.

Lemma supported_cases x :
  supported x = true ↔ x = "en" ∨ x = "es" ∨ x = "fr" ∨ x = "pt".
Proof.
  unfold supported, includes, SUPPORTED_LANGUAGES. cbn [existsb].
  rewrite !orb_true_iff, !String.eqb_eq. intuition congruence.
Qed.

(** ** Walking a dictionary *)

Lemma tree_node_traversable d :
  truthy (Some d) && typeof_object (Some d) = tree_node d.
Proof. destruct d as [|[]|n|s|l|f]; simpl; by rewrite ?andb_false_r. Qed.

Lemma own_walk_undefined ks : own_walk undefined ks = undefined.
Proof. by destruct ks. Qed.

Lemma own_walk_cons d k ks :
  own_walk (Some d) (k :: ks) =
  if tree_node d then own_walk (own_prop (Some d) k) ks else undefined.
Proof. cbn [own_walk]. by rewrite tree_node_traversable. Qed.

Lemma own_walk_leads_to d ks r : own_walk (Some d) ks = Some r ↔ leads_to d ks r.
Proof.
  split.
  - revert d. induction ks as [|k ks IH]; intros d H.
    + simpl in H. injection H as ->. constructor.
    + rewrite own_walk_cons in H. destruct (tree_node d) eqn:Ht; [|done].
      destruct (own_prop (Some d) k) as [d'|] eqn:Hg.
      * econstructor; eauto.
      * by rewrite own_walk_undefined in H.
  - induction 1 as [d|d k d' ks r Ht Hg _ IH]; [done|].
    by rewrite own_walk_cons, Ht, Hg.
Qed.

Lemma own_walk_path_fails d ks : own_walk (Some d) ks = undefined ↔ path_fails d ks.
Proof.
  split.
  - revert d. induction ks as [|k ks IH]; intros d H; [done|].
    rewrite own_walk_cons in H. destruct (tree_node d) eqn:Ht.
    + destruct (own_prop (Some d) k) as [d'|] eqn:Hg.
      * eapply fails_below; eauto.
      * by apply fails_missing.
    + by apply fails_not_tree.
  - induction 1 as [d k ks Ht|d k ks Ht Hg|d k d' ks Ht Hg _ IH];
      rewrite own_walk_cons, Ht; [done| |by rewrite Hg].
    by rewrite Hg, own_walk_undefined.
Qed.

Lemma leads_to_tree_node d ks r :
  leads_to d ks r → ks ≠ [] → tree_node d = true.
Proof. by destruct 1. Qed.

Lemma tree_node_truthy d : tree_node d = true → truthy (Some d) = true.
Proof. by destruct d. Qed.

Lemma translated_tree_node d key s : translated_in d key s → tree_node d = true.
Proof. intros H. eapply leads_to_tree_node; [exact H | apply split_nonempty]. Qed.

(** *** The walk of the code *)

Lemma traversable_plain d : traversable (Plain (Some d)) = tree_node d.
Proof. unfold traversable. cbn. apply tree_node_traversable. Qed.

Lemma walk_undefined ks : walk (Plain undefined) ks = Plain undefined.
Proof. by destruct ks. Qed.

Lemma walk_path_undefined v ks :
  v ≠ Plain undefined → walk v ks = Plain undefined ↔ path_undefined v ks.
Proof.
  intros Hv. split.
  - revert v Hv. induction ks as [|k ks IH]; intros v Hv H; [done|].
    cbn [walk] in H. destruct (traversable v) eqn:Ht.
    + destruct (get_prop v k) as [[d|]|b] eqn:E.
      * apply undefined_below; [done|]. rewrite E. by apply IH.
      * by apply undefined_absent.
      * apply undefined_below; [done|]. rewrite E. by apply IH.
    + by apply undefined_not_traversable.
  - clear Hv. induction 1 as [v k ks Ht|v k ks Ht Hg|v k ks Ht _ IH];
      cbn [walk]; rewrite Ht; [done| |done].
    by rewrite Hg, walk_undefined.
Qed.

(** An own member is found before any inherited one. *)
Lemma get_prop_own d k d' :
  own_prop (Some d) k = Some d' → get_prop (Plain (Some d)) k = Plain (Some d').
Proof.
  destruct d as [| | | |items|fields]; try done; intros H.
  - cbn [get_prop]. by rewrite H.
  - cbn in H. cbn [get_prop]. by rewrite H.
Qed.

Lemma walk_follows d ks r : leads_to d ks r → walk (Plain (Some d)) ks = Plain (Some r).
Proof.
  induction 1 as [d|d k d' ks r Ht Hg _ IH]; [done|].
  cbn [walk]. by rewrite traversable_plain, Ht, (get_prop_own _ _ _ Hg).
Qed.

(** What is inherited is never a string and never leads to one. *)
Lemma stringless_undefined : stringless (Plain undefined).
Proof. intros ks s. by rewrite walk_undefined. Qed.

Lemma stringless_leaf v :
  traversable v = false → (∀ s, v ≠ Plain (Some (JStr s))) → stringless v.
Proof. intros Ht Hv [|k ks] s; cbn [walk]; [apply Hv|by rewrite Ht]. Qed.

Lemma stringless_step v :
  (∀ s, v ≠ Plain (Some (JStr s))) → (∀ k, stringless (get_prop v k)) → stringless v.
Proof.
  intros Hv Hk [|k ks] s; cbn [walk]; [apply Hv|].
  destruct (traversable v); [apply Hk|done].
Qed.

Lemma stringless_from_object_prototype proto k :
  stringless proto → stringless (from_object_prototype proto k).
Proof.
  intros Hp. unfold from_object_prototype.
  destruct (includes _ k); [by apply stringless_leaf|].
  destruct (String.eqb k "__proto__"); [done|apply stringless_undefined].
Qed.

Lemma stringless_from_array_prototype proto k :
  stringless proto → stringless (from_array_prototype proto k).
Proof.
  intros Hp. unfold from_array_prototype.
  destruct (includes _ k); [by apply stringless_leaf|].
  destruct (String.eqb k "length"); [by apply stringless_leaf|].
  by apply stringless_from_object_prototype.
Qed.

Lemma stringless_ObjectPrototype : stringless (Inherited ObjectPrototype).
Proof.
  apply stringless_step; [done|]. intros k. cbn [get_prop].
  apply stringless_from_object_prototype. by apply stringless_leaf.
Qed.

Lemma stringless_ArrayPrototype : stringless (Inherited ArrayPrototype).
Proof.
  apply stringless_step; [done|]. intros k. cbn [get_prop].
  apply stringless_from_array_prototype, stringless_ObjectPrototype.
Qed.

(** A read gives the own member, or something that leads to no string. *)
Lemma get_prop_cases d k :
  (∃ d', own_prop (Some d) k = Some d' ∧ get_prop (Plain (Some d)) k = Plain (Some d'))
  ∨ (own_prop (Some d) k = undefined ∧ stringless (get_prop (Plain (Some d)) k)).
Proof.
  destruct (own_prop (Some d) k) as [d'|] eqn:Ho.
  - left. exists d'. split; [done|]. by apply get_prop_own.
  - right. split; [done|].
    destruct d as [| | | |items|fields]; try apply stringless_undefined.
    + cbn [get_prop]. rewrite Ho.
      apply stringless_from_array_prototype, stringless_ArrayPrototype.
    + cbn in Ho. cbn [get_prop]. rewrite Ho.
      apply stringless_from_object_prototype, stringless_ObjectPrototype.
Qed.

(** The walk ends on a string only along members the dictionary holds. *)
Lemma walk_string d ks s :
  walk (Plain (Some d)) ks = Plain (Some (JStr s)) → leads_to d ks (JStr s).
Proof.
  revert d. induction ks as [|k ks IH]; intros d H.
  - cbn in H. injection H as ->. constructor.
  - cbn [walk] in H. rewrite traversable_plain in H.
    destruct (tree_node d) eqn:Ht; [|done].
    destruct (get_prop_cases d k) as [(d' & Ho & Hg)|[_ Hno]].
    + rewrite Hg in H. econstructor; eauto.
    + by destruct (Hno ks s).
Qed.

(** Along segments that name nothing inherited the code reads the dictionary
    as the specification does. *)
Lemma get_prop_plain_name d k :
  inherited_name k = false →
  get_prop (Plain (Some d)) k = Plain (own_prop (Some d) k).
Proof.
  unfold inherited_name. intros H.
  apply orb_false_iff in H as [H Hproto]. apply orb_false_iff in H as [Hobj Harr].
  destruct d as [| | | |items|fields]; try done.
  - cbn [get_prop]. destruct (own_prop (Some (JArr items)) k) eqn:Ho; [done|].
    unfold from_array_prototype, from_object_prototype. rewrite Harr, Hobj, Hproto.
    cbn in Ho. by destruct (String.eqb k "length").
  - cbn [get_prop own_prop]. destruct (assoc k fields); [done|].
    unfold from_object_prototype. by rewrite Hobj, Hproto.
Qed.

Lemma walk_plain_names v ks :
  Forall (λ k, inherited_name k = false) ks →
  walk (Plain v) ks = Plain (own_walk v ks).
Proof.
  intros Hks. revert v. induction Hks as [|k ks Hk _ IH]; intros v; [done|].
  cbn [walk own_walk]. destruct v as [d|]; [|done].
  rewrite traversable_plain, tree_node_traversable.
  destruct (tree_node d); [|done]. by rewrite get_prop_plain_name.
Qed.

(** ** The store of dictionaries *)

Lemma stored_own this lang d :
  translations this !! lang = Some d → stored this lang = Plain (Some d).
Proof. unfold stored. by intros ->. Qed.

Lemma stored_default this :
  stored this DEFAULT_LANGUAGE = Plain (translations this !! DEFAULT_LANGUAGE).
Proof. unfold stored. by destruct (translations this !! DEFAULT_LANGUAGE). Qed.

Lemma stored_supported this L :
  supported L = true → stored this L = Plain (translations this !! L).
Proof.
  intros H. apply supported_cases in H as [-> | [-> | [-> | ->]]]; unfold stored;
    by destruct (translations this !! _).
Qed.

Lemma stored_cases this lang :
  (∃ d, translations this !! lang = Some d ∧ stored this lang = Plain (Some d))
  ∨ (translations this !! lang = None ∧ stringless (stored this lang)).
Proof.
  unfold stored. destruct (translations this !! lang) as [d|]; [left; by eexists|].
  right. split; [done|].
  apply stringless_from_object_prototype, stringless_ObjectPrototype.
Qed.

Lemma empty_object_stringless : stringless (Plain (Some (JObj []))).
Proof. intros ks s H. apply walk_string in H. inversion H; subst; discriminate. Qed.

(** The default dictionary, or [{}] in its place, as [resolve] reads it. *)
Lemma default_or_empty this :
  js_or (stored this DEFAULT_LANGUAGE) (Plain (Some (JObj [])))
  = match translations this !! DEFAULT_LANGUAGE with
    | Some d => if truthy (Some d) then Plain (Some d) else Plain (Some (JObj []))
    | None => Plain (Some (JObj []))
    end.
Proof.
  rewrite stored_default. unfold js_or. cbn [js_truthy].
  by destruct (translations this !! DEFAULT_LANGUAGE).
Qed.

(** ** getTranslation *)

Lemma target_lang_supported this L :
  supported L = true → target_lang this (Some L) = L.
Proof. unfold target_lang. by destruct L. Qed.

Lemma resolve_from_locale this lang d key s :
  translations this !! target_lang this lang = Some d →
  translated_in d key s →
  resolve this key lang = s.
Proof.
  intros Hd Hs. unfold resolve. rewrite (stored_own _ _ _ Hd).
  pose proof (tree_node_truthy d (translated_tree_node _ _ _ Hs)) as Ht.
  set (dflt := js_or (stored this DEFAULT_LANGUAGE) _).
  replace (js_or (Plain (Some d)) dflt) with (Plain (Some d))
    by (unfold js_or; cbn [js_truthy]; by rewrite Ht).
  apply walk_follows in Hs. by rewrite Hs.
Qed.

Lemma resolve_from_default this lang d0 key s :
  stored this (target_lang this lang) = Plain (translations this !! target_lang this lang) →
  (∀ d, translations this !! target_lang this lang = Some d →
        path_undefined (Plain (Some d)) (split "." key)) →
  translations this !! DEFAULT_LANGUAGE = Some d0 →
  translated_in d0 key s →
  resolve this key lang = s.
Proof.
  intros Hst Hfail Hd0 Hs. unfold resolve. rewrite default_or_empty, Hd0, Hst.
  pose proof (tree_node_truthy d0 (translated_tree_node _ _ _ Hs)) as Ht0.
  rewrite Ht0. apply walk_follows in Hs.
  destruct (translations this !! target_lang this lang) as [d|] eqn:Hd.
  - unfold js_or. cbn [js_truthy]. destruct (truthy (Some d)).
    + specialize (Hfail d eq_refl). apply walk_path_undefined in Hfail; [|done].
      rewrite Hfail. cbn [is_undefined andb].
      destruct (String.eqb_spec (target_lang this lang) DEFAULT_LANGUAGE) as [E|_].
      * rewrite E, Hd0 in Hd. injection Hd as <-. congruence.
      * cbn [negb]. by rewrite Hs.
    + by rewrite Hs.
  - unfold js_or. cbn [js_truthy truthy]. by rewrite Hs.
Qed.

Lemma resolve_untranslated this lang key :
  untranslated_in (translations this !! target_lang this lang) key →
  untranslated_in (translations this !! DEFAULT_LANGUAGE) key →
  resolve this key lang = key.
Proof.
  intros HL HD. unfold resolve.
  set (dflt := js_or (stored this DEFAULT_LANGUAGE) (Plain (Some (JObj [])))).
  assert (Hno : ∀ s, walk dflt (split "." key) ≠ Plain (Some (JStr s))).
  { intros s. unfold dflt. rewrite default_or_empty.
    destruct (translations this !! DEFAULT_LANGUAGE) as [d|] eqn:Hd;
      [|apply empty_object_stringless].
    destruct (truthy (Some d)); [|apply empty_object_stringless].
    intros Hw. apply walk_string in Hw. by apply (HD d s). }
  assert (HnoL : ∀ s, walk (js_or (stored this (target_lang this lang)) dflt)
                        (split "." key) ≠ Plain (Some (JStr s))).
  { intros s. unfold js_or at 1. destruct (js_truthy _) eqn:Ht; [|by apply Hno].
    destruct (stored_cases this (target_lang this lang)) as [(d & Hd & ->)|[_ Hst]].
    - intros Hw. apply walk_string in Hw. by apply (HL d s).
    - apply Hst. }
  match goal with |- context [if ?c then _ else _] => destruct c end.
  - destruct (walk dflt _) as [[[| | |s| |]|]|]; try done. by destruct (Hno s).
  - destruct (walk (js_or _ dflt) _) as [[[| | |s| |]|]|]; try done. by destruct (HnoL s).
Qed.

(** C1 fails on the code where a segment of the key names a member that
    every object inherits: [nav.constructor] is missing from the French
    dictionary and present in the default one, yet the lookup under [fr]
    returns the key, because [value[k]] finds the inherited [constructor] and
    the result is not [undefined]. *)
Lemma getTranslation_inherited_name_blocks_default :
  supported "fr" = true
  ∧ translations engine_builder !! "fr" = Some dict_fr
  ∧ path_fails dict_fr (split "." "nav.constructor")
  ∧ translations engine_builder !! DEFAULT_LANGUAGE = Some dict_es_builder
  ∧ translated_in dict_es_builder "nav.constructor" "Constructor"
  ∧ getTranslation engine_builder (JStr "nav.constructor") (Some "fr")
    = Return "nav.constructor"
  ∧ getTranslation engine_builder (JStr "nav.constructor") (Some "fr")
    ≠ Return "Constructor".
Proof.
  split; [reflexivity|]. split; [reflexivity|].
  split; [apply own_walk_path_fails; reflexivity|]. split; [reflexivity|].
  split; [apply own_walk_leads_to; reflexivity|]. split; [reflexivity|].
  discriminate.
Qed.

Lemma path_fails_undefined d ks :
  Forall (λ k, inherited_name k = false) ks →
  path_fails d ks → path_undefined (Plain (Some d)) ks.
Proof.
  intros Hks Hf. apply walk_path_undefined; [done|].
  rewrite walk_plain_names by done. f_equal. by apply own_walk_path_fails.
Qed.

(** C1, amended.  Under a supported locale [L], a non-empty dotted key whose
    path leads to a string leaf of [L]'s loaded dictionary resolves to that
    leaf.  A key whose path ends on [undefined] in [L]'s dictionary as the
    code reads it (a segment that the node it is read off neither holds nor
    inherits, or a segment read off something that is not a tree node) and
    leads to a string leaf of the default locale's dictionary resolves to the
    default's leaf; this is the case whenever the path fails in [L]'s
    dictionary and no segment of the key names an inherited member. *)
Theorem getTranslation_locale_then_default this L key :
  supported L = true →
  key ≠ "" →
  (∀ d s, translations this !! L = Some d →
          translated_in d key s →
          getTranslation this (JStr key) (Some L) = Return s)
  ∧ (∀ d0 s, (∀ d, translations this !! L = Some d →
                   path_undefined (Plain (Some d)) (split "." key)) →
          translations this !! DEFAULT_LANGUAGE = Some d0 →
          translated_in d0 key s →
          getTranslation this (JStr key) (Some L) = Return s)
  ∧ (∀ d0 s, Forall (λ k, inherited_name k = false) (split "." key) →
          (∀ d, translations this !! L = Some d → path_fails d (split "." key)) →
          translations this !! DEFAULT_LANGUAGE = Some d0 →
          translated_in d0 key s →
          getTranslation this (JStr key) (Some L) = Return s).
Proof.
  intros HL Hkey. apply str_truthy_true in Hkey.
  unfold getTranslation. cbn [truthy]. rewrite Hkey. cbn [negb].
  assert (Hdefault : ∀ d0 s,
            (∀ d, translations this !! L = Some d →
                  path_undefined (Plain (Some d)) (split "." key)) →
            translations this !! DEFAULT_LANGUAGE = Some d0 →
            translated_in d0 key s →
            Return (resolve this key (Some L)) = Return s).
  { intros d0 s Hfail Hd0 Hs. f_equal.
    eapply resolve_from_default; [| |exact Hd0|exact Hs];
      rewrite target_lang_supported by done; [by apply stored_supported|done]. }
  split; [|split; [exact Hdefault|]].
  - intros d s Hd Hs. f_equal. eapply resolve_from_locale; [|exact Hs].
    by rewrite target_lang_supported.
  - intros d0 s Hnames Hfail. apply Hdefault.
    intros d Hd. by apply path_fails_undefined, Hfail.
Qed.

Lemma getTranslation_locale_then_default_witness :
  getTranslation engine_es_fr (JStr "nav.home") (Some "fr") = Return "Accueil"
  ∧ getTranslation engine_es_fr (JStr "nav.about") (Some "fr") = Return "Nosotros".
Proof.
  split.
  - refine (proj1 (getTranslation_locale_then_default engine_es_fr "fr" "nav.home"
                     eq_refl _) dict_fr "Accueil" _ _).
    + discriminate.
    + reflexivity.
    + apply own_walk_leads_to. reflexivity.
  - refine (proj2 (proj2 (getTranslation_locale_then_default engine_es_fr "fr" "nav.about"
                     eq_refl _)) dict_es "Nosotros" _ _ _ _).
    + discriminate.
    + repeat constructor.
    + intros d Hd. vm_compute in Hd. injection Hd as <-.
      apply own_walk_path_fails. reflexivity.
    + reflexivity.
    + apply own_walk_leads_to. reflexivity.
Defined.

(** C2 fails on the code for a truthy key that is not a string, such as the
    number an attribute map [{"title": 5}] hands over: [key.split] is not a
    function and the call raises. *)
Lemma getTranslation_raises_on_number :
  getTranslation engine_es_fr (JNum 5) None = Throw
  ∧ ¬ returns (getTranslation engine_es_fr (JNum 5) None).
Proof. split; [reflexivity|]. intros [s Hs]. discriminate Hs. Qed.

(** C2, amended.  On a string key [getTranslation] always returns a string
    and never raises: a key with no translation in the requested locale's
    dictionary nor in the default locale's (in particular when nothing is
    loaded) comes back verbatim.  Every falsy key, the empty string and
    [null] among them, gives the empty string.  A truthy key that is not a
    string makes the call raise. *)
Theorem getTranslation_total this lang :
  (∀ key, returns (getTranslation this (JStr key) lang))
  ∧ (∀ key,
        untranslated_in (translations this !! target_lang this lang) key →
        untranslated_in (translations this !! DEFAULT_LANGUAGE) key →
        getTranslation this (JStr key) lang = Return key)
  ∧ (translations this = ∅ → ∀ key, getTranslation this (JStr key) lang = Return key)
  ∧ (∀ key, truthy (Some key) = false → getTranslation this key lang = Return "")
  ∧ (∀ key, truthy (Some key) = true → (∀ s, key ≠ JStr s) →
            getTranslation this key lang = Throw).
Proof.
  assert (Hmiss : ∀ key,
        untranslated_in (translations this !! target_lang this lang) key →
        untranslated_in (translations this !! DEFAULT_LANGUAGE) key →
        getTranslation this (JStr key) lang = Return key).
  { intros key HL HD. unfold getTranslation. destruct key as [|c r]; [done|].
    cbn [truthy str_truthy negb]. f_equal. by apply resolve_untranslated. }
  split; [|split; [exact Hmiss|split; [|split]]].
  - intros key. unfold getTranslation. destruct key; cbn; eexists; reflexivity.
  - intros Hempty key. apply Hmiss; rewrite Hempty, lookup_empty; by intros d s.
  - intros key Hf. unfold getTranslation. by rewrite Hf.
  - intros key Ht Hs. unfold getTranslation. rewrite Ht. cbn [negb].
    destruct key; try done. by destruct (Hs s).
Qed.

Lemma getTranslation_total_witness :
  getTranslation engine_es_fr (JStr "nav.contact") (Some "fr") = Return "nav.contact"
  ∧ getTranslation engine_es_fr (JStr "title.short") (Some "es") = Return "title.short"
  ∧ getTranslation engine_es_fr (JBool true) None = Throw.
Proof.
  split; [|split].
  - apply (proj1 (proj2 (getTranslation_total engine_es_fr (Some "fr")))).
    + intros d s Hd Hs. vm_compute in Hd. injection Hd as <-.
      apply own_walk_leads_to in Hs. vm_compute in Hs. discriminate.
    + intros d s Hd Hs. vm_compute in Hd. injection Hd as <-.
      apply own_walk_leads_to in Hs. vm_compute in Hs. discriminate.
  - apply (proj1 (proj2 (getTranslation_total engine_es_fr (Some "es")))).
    + intros d s Hd Hs. vm_compute in Hd. injection Hd as <-.
      apply own_walk_leads_to in Hs. vm_compute in Hs. discriminate.
    + intros d s Hd Hs. vm_compute in Hd. injection Hd as <-.
      apply own_walk_leads_to in Hs. vm_compute in Hs. discriminate.
  - apply (proj2 (proj2 (proj2 (proj2 (getTranslation_total engine_es_fr None))))).
    + reflexivity.
    + discriminate.
Defined.

(** ** detectLanguage *)

Lemma default_supported : supported DEFAULT_LANGUAGE = true.
Proof. reflexivity. Qed.

Lemma first_accepted_supported signals : supported (first_accepted signals) = true.
Proof.
  induction signals as [|s rest IH]; simpl; [done|].
  destruct (accepted s) eqn:E; [|done].
  destruct s as [s|]; [|done]. simpl in *. by apply andb_true_iff in E as [_ ?].
Qed.

(** The scenario of the specification: [?lang=fr], stored [es], browser [de]. *)
Example detection_priority_scenario :
  detectLanguage
    {| url_lang := Present "fr"; navigator_language := Some "de";
       fetch := λ _ _, NetworkError; JSON_parse := λ _, None;
       parse_fragment := λ _ _, []; valid_attribute_name := λ _, true;
       custom_events := true; callback_raises := λ _ _, false |}
    (StorageItems {[ STORAGE_KEY := "es" ]} false) = Return "fr".
Proof. reflexivity. Qed.

Example detection_storage_scenario :
  detectLanguage host_plain storage_pt = Return "pt".
Proof. reflexivity. Qed.

(** C4 as stated does not hold: when reading the URL raises, the stored
    locale is never consulted, and when touching the storage raises, the
    browser language is never consulted. *)
Lemma detectLanguage_skips_later_sources :
  detectLanguage host_no_url_api storage_pt = Return "es"
  ∧ detect_by_priority host_no_url_api storage_pt = "pt"
  ∧ detectLanguage host_browser_fr StorageDenied = Return "es"
  ∧ detect_by_priority host_browser_fr StorageDenied = "fr"
  ∧ ¬ (∀ h st, detectLanguage h st = Return (detect_by_priority h st)).
Proof.
  split; [reflexivity|]. split; [reflexivity|].
  split; [reflexivity|]. split; [reflexivity|].
  intros H. specialize (H host_no_url_api storage_pt). vm_compute in H. discriminate.
Qed.

(** What [detectLanguage] computes, source by source. *)
Lemma detectLanguage_result h st :
  detectLanguage h st =
    Return (if detection_interrupted h st then DEFAULT_LANGUAGE
            else detect_by_priority h st).
Proof.
  unfold detectLanguage, detect_try, detection_interrupted, detect_by_priority,
    url_signal.
  assert (Hst : ∀ pre, accepted pre = false →
    match try_catch (detect_from_storage h st) (Return None) with
    | Return (Some lang) => Return lang
    | Return None => Return DEFAULT_LANGUAGE
    | Throw => Throw
    end = Return (if negb (accepted pre) &&
                     match st with StorageDenied => true | _ => false end
                  then DEFAULT_LANGUAGE
                  else first_accepted [pre; storage_signal st; browser_signal h])).
  { intros pre Hpre. cbn [first_accepted]. rewrite Hpre. cbn [negb andb].
    assert (Hb : match detect_from_browser h with
                 | Some lang => Return lang
                 | None => Return DEFAULT_LANGUAGE
                 end = Return (if accepted (browser_signal h)
                               then default DEFAULT_LANGUAGE (browser_signal h)
                               else DEFAULT_LANGUAGE)).
    { unfold detect_from_browser, browser_signal.
      destruct (navigator_language h) as [l|]; [|done].
      destruct (str_truthy l) eqn:El; [|done]. cbn [accepted default].
      destruct (supported (first_subtag l)) eqn:Es; [|by rewrite andb_false_r].
      destruct (first_subtag l); [done|]. done. }
    destruct st as [| |items full]; cbn [detect_from_storage try_catch storage_signal].
    - cbn [accepted]. exact Hb.
    - done.
    - destruct (accepted (getItem items STORAGE_KEY)) eqn:Ea.
      + cbn [try_catch]. destruct (getItem items STORAGE_KEY); [done|done].
      + cbn [try_catch]. exact Hb. }
  destruct (url_lang h) as [| |u]; cbn [try_catch].
  - done.
  - by apply (Hst None).
  - destruct (accepted (Some u)) eqn:Eu.
    + cbn [try_catch first_accepted]. rewrite Eu. done.
    + specialize (Hst (Some u) Eu). cbn [first_accepted] in Hst |- *.
      rewrite Eu in Hst. rewrite Hst. by rewrite Eu. 
Qed.

Lemma detectLanguage_supported h st :
  ∃ lang, detectLanguage h st = Return lang ∧ supported lang = true.
Proof.
  eexists. split; [apply detectLanguage_result|].
  destruct (detection_interrupted h st); [reflexivity|apply first_accepted_supported].
Qed.

(** C4, amended.  [detectLanguage] never raises and its result is supported.
    Sources are read in the order URL, storage, browser language, default;
    an absent source, or one whose value is not supported, passes the turn to
    the next; a source that raises ends detection with the default locale. *)
Theorem detectLanguage_priority h st :
  detectLanguage h st =
    Return (if detection_interrupted h st then DEFAULT_LANGUAGE
            else detect_by_priority h st)
  ∧ (detection_interrupted h st = false →
     detectLanguage h st = Return (detect_by_priority h st))
  ∧ (detection_interrupted h st = true →
     detectLanguage h st = Return DEFAULT_LANGUAGE)
  ∧ ∃ lang, detectLanguage h st = Return lang ∧ supported lang = true.
Proof.
  pose proof (detectLanguage_result h st) as E.
  split; [exact E|]. split; [|split].
  - intros Hi. by rewrite Hi in E.
  - intros Hi. by rewrite Hi in E.
  - apply detectLanguage_supported.
Qed.

Lemma detectLanguage_priority_witness :
  detectLanguage host_plain storage_pt = Return "pt"
  ∧ detectLanguage host_browser_fr StorageDenied = Return "es".
Proof.
  split.
  - apply (proj1 (proj2 (detectLanguage_priority host_plain storage_pt))).
    reflexivity.
  - apply (proj1 (proj2 (proj2 (detectLanguage_priority host_browser_fr StorageDenied)))).
    reflexivity.
Defined.

(** ** pluralize *)

Lemma num_le_one count : num_le count one = true ↔ at_most_one count.
Proof.
  destruct count as [|[]|q]; simpl; try (split; [discriminate|tauto || congruence]).
  - split; done.
  - apply Qle_bool_iff.
Qed.

Lemma num_eq_one count : num_eq count one = true ↔ exactly_one count.
Proof.
  destruct count as [|s|q]; simpl; try (split; [discriminate|tauto]).
  apply Qeq_bool_iff.
Qed.

(** C10. For the target locale [lang || currentLang]: under ['fr'] and ['pt']
    the singular is returned exactly when [count <= 1], so for zero and for
    negative counts; under every other locale exactly when [count] equals 1,
    so zero gives the plural. *)
Theorem pluralize_threshold {A} this (count : number) (singular plural : A) lang :
  let targetLang := target_lang this lang in
  (targetLang = "fr" ∨ targetLang = "pt" →
     (at_most_one count → pluralize this count singular plural lang = singular)
     ∧ (¬ at_most_one count → pluralize this count singular plural lang = plural))
  ∧ (targetLang ≠ "fr" → targetLang ≠ "pt" →
     (exactly_one count → pluralize this count singular plural lang = singular)
     ∧ (¬ exactly_one count → pluralize this count singular plural lang = plural)).
Proof.
  intros targetLang. unfold pluralize. fold targetLang. split.
  - intros Hl.
    assert (E : (if String.eqb targetLang "fr" then
                   if num_le count one then singular else plural
                 else if String.eqb targetLang "pt" then
                   if num_le count one then singular else plural
                 else if num_eq count one then singular else plural)
                = if num_le count one then singular else plural).
    { destruct Hl as [-> | ->]; reflexivity. }
    rewrite E. pose proof (num_le_one count) as Hle.
    destruct (num_le count one); split; intros H; try done.
    + destruct H. by apply Hle.
    + apply Hle in H. discriminate.
  - intros Hfr Hpt.
    apply String.eqb_neq in Hfr, Hpt. rewrite Hfr, Hpt.
    pose proof (num_eq_one count) as Heq.
    destruct (num_eq count one); split; intros H; try done.
    + destruct H. by apply Heq.
    + apply Heq in H. discriminate.
Qed.

Lemma pluralize_threshold_witness :
  pluralize engine_es_fr (Finite 0) "jour" "jours" (Some "fr") = "jour"
  ∧ pluralize engine_es_fr (Finite (-2)) "dia" "dias" (Some "pt") = "dia"
  ∧ pluralize engine_es_fr (Finite 2) "jour" "jours" (Some "fr") = "jours"
  ∧ pluralize engine_es_fr (Finite 0) "hora" "horas" None = "horas"
  ∧ pluralize engine_es_fr (Finite 1) "day" "days" (Some "en") = "day".
Proof.
  split; [|split; [|split; [|split]]].
  - refine (proj1 (proj1 (pluralize_threshold engine_es_fr (Finite 0) "jour" "jours"
                            (Some "fr")) _) _).
    + by left.
    + simpl. discriminate.
  - refine (proj1 (proj1 (pluralize_threshold engine_es_fr (Finite (-2)) "dia" "dias"
                            (Some "pt")) _) _).
    + by right.
    + simpl. discriminate.
  - refine (proj2 (proj1 (pluralize_threshold engine_es_fr (Finite 2) "jour" "jours"
                            (Some "fr")) _) _).
    + by left.
    + simpl. intros H. by apply H.
  - refine (proj2 (proj2 (pluralize_threshold engine_es_fr (Finite 0) "hora" "horas"
                            None) _ _) _).
    + discriminate.
    + discriminate.
    + simpl. discriminate.
  - refine (proj1 (proj2 (pluralize_threshold engine_es_fr (Finite 1) "day" "days"
                            (Some "en")) _ _) _).
    + discriminate.
    + discriminate.
    + simpl. reflexivity.
Defined.

(** ** trim *)

Lemma trim_start_empty s : trim_start s = "" ↔ all_white s = true.
Proof.
  induction s as [|c r IH]; simpl; [done|].
  destruct (is_white c); simpl; [done|]. split; discriminate.
Qed.

Lemma all_white_trim_start s : all_white (trim_start s) = all_white s.
Proof.
  induction s as [|c r IH]; simpl; [done|].
  destruct (is_white c) eqn:E; simpl; [done|]. by rewrite E.
Qed.

Lemma all_white_rev_app s1 s2 :
  all_white (String.rev_app s1 s2) = all_white s1 && all_white s2.
Proof.
  revert s2. induction s1 as [|c r IH]; intros s2; simpl; [done|].
  rewrite IH. simpl. destruct (is_white c), (all_white r); simpl; try done.
Qed.

Lemma all_white_rev s : all_white (String.rev s) = all_white s.
Proof. unfold String.rev. rewrite all_white_rev_app. simpl. by rewrite andb_true_r. Qed.

Lemma rev_app_empty s1 s2 : String.rev_app s1 s2 = "" → s1 = "" ∧ s2 = "".
Proof.
  revert s2. induction s1 as [|c r IH]; intros s2; simpl; [done|].
  intros H. by apply IH in H as [_ ?].
Qed.

Lemma trim_empty s : trim s = "" ↔ all_white s = true.
Proof.
  unfold trim. split.
  - intros H. apply rev_app_empty in H as [H _].
    apply trim_start_empty in H. by rewrite all_white_rev, all_white_trim_start in H.
  - intros H.
    assert (E : trim_start (String.rev (trim_start s)) = "").
    { apply trim_start_empty. by rewrite all_white_rev, all_white_trim_start. }
    by rewrite E.
Qed.

Lemma trim_truthy s : str_truthy (trim s) = negb (all_white s).
Proof.
  pose proof (trim_empty s) as H. destruct (trim s) as [|c r]; simpl.
  - by rewrite (proj1 H eq_refl).
  - destruct (all_white s); [|done]. discriminate (proj2 H eq_refl).
Qed.

(** ** updateElement *)

Lemma first_text_child_find h ids :
  first_text_child h ids = List.find (text_bearing h) ids.
Proof.
  induction ids as [|c rest IH]; simpl; [done|]. unfold text_bearing at 1.
  destruct (h !! c) as [[data| |]|]; try done.
  rewrite trim_truthy. by destruct (all_white data).
Qed.

Lemma find_text_bearing h ids c :
  List.find (text_bearing h) ids = Some c →
  c ∈ ids ∧ ∃ data, h !! c = Some (TextNode data) ∧ all_white data = false.
Proof.
  intros H. apply find_some in H as [Hin Hb]. split; [by apply list_elem_of_In|].
  unfold text_bearing in Hb. destruct (h !! c) as [[data| |]|]; try done.
  exists data. split; [done|]. by destruct (all_white data).
Qed.

Lemma children_ext h h' e :
  (∀ c, c ∈ childNodes e → is_element h' c = is_element h c) →
  children h' e = children h e.
Proof.
  unfold children. induction (childNodes e) as [|c rest IH]; intros H; simpl; [done|].
  rewrite H by left. rewrite IH; [done|]. intros c' Hc'. apply H. by right.
Qed.

Lemma is_element_insert_text h c s j :
  is_element h c = false → is_element (<[c := TextNode s]> h) j = is_element h j.
Proof.
  intros Hc. unfold is_element. destruct (decide (c = j)) as [->|Hne].
  - rewrite lookup_insert_eq. unfold is_element in Hc.
    by destruct (h !! j) as [[]|].
  - by rewrite lookup_insert_ne.
Qed.

Lemma updateElement_generic h i e translation :
  h !! i = Some (ElementNode e) →
  form_control e = false →
  children h e ≠ [] →
  updateElement h i translation =
    match List.find (text_bearing h) (childNodes e) with
    | Some c => <[c := TextNode translation]> h
    | None =>
        let t := fresh (dom h) in
        <[i := ElementNode (with_childNodes (t :: childNodes e) e)]>
          (<[t := TextNode translation]> h)
    end.
Proof.
  intros Hi Hform Hch. unfold updateElement. rewrite Hi.
  unfold form_control in Hform. apply orb_false_iff in Hform as [Hform ->].
  rewrite Hform. destruct (children h e) as [|c cs] eqn:E; [done|].
  cbn [length Nat.eqb negb]. by rewrite first_text_child_find.
Qed.

(** ** Re-applying a translation to an element *)

Lemma find_after_update {A} (P Q : A → bool) l c :
  List.find P l = Some c →
  (∀ j, j ≠ c → Q j = P j) →
  Q c = true →
  List.find Q l = Some c.
Proof.
  intros Hfind Hother Hc. induction l as [|x l IH]; [done|]. simpl in *.
  destruct (P x) eqn:Px.
  - injection Hfind as ->. by rewrite Hc.
  - assert (x ≠ c) as Hx by (intros ->; apply find_some in Hfind as [_ ?]; congruence).
    rewrite (Hother x Hx), Px. by apply IH.
Qed.

Lemma text_bearing_insert_other h c s j :
  j ≠ c → text_bearing (<[c := TextNode s]> h) j = text_bearing h j.
Proof. intros Hj. unfold text_bearing. by rewrite lookup_insert_ne. Qed.

Lemma text_bearing_insert h c s :
  all_white s = false → text_bearing (<[c := TextNode s]> h) c = true.
Proof. intros Hs. unfold text_bearing. by rewrite lookup_insert_eq, Hs. Qed.

Lemma all_white_truthy s : all_white s = false → str_truthy s = true.
Proof. by destruct s. Qed.

Lemma element_type_with_attribute name val e :
  name ≠ "type" → element_type (with_attribute name val e) = element_type e.
Proof.
  intros Hn. unfold element_type. cbn [localName attributes with_attribute].
  by rewrite lookup_insert_ne.
Qed.

Lemma set_attribute_twice h i e name val :
  h !! i = Some (ElementNode e) →
  set_attribute (set_attribute h i name val) i name val = set_attribute h i name val.
Proof.
  intros Hi. unfold set_attribute. rewrite Hi, lookup_insert_eq, insert_insert_eq.
  do 2 f_equal. unfold with_attribute. cbn. by rewrite insert_insert_eq.
Qed.

Lemma textContent_single_text h i e t s n :
  h !! i = Some (ElementNode e) →
  childNodes e = [t] →
  h !! t = Some (TextNode s) →
  textContent (S n) h i = s.
Proof.
  intros Hi Hcn Ht. cbn [textContent]. rewrite Hi, Hcn. cbn [map]. rewrite Ht.
  destruct n; cbn [textContent]; by rewrite Ht.
Qed.

Lemma updateElement_form_field h i e translation :
  h !! i = Some (ElementNode e) →
  String.eqb (localName e) "input" || String.eqb (localName e) "textarea" = true →
  updateElement h i translation
  = set_attribute h i
      (if String.eqb (element_type e) "submit" || String.eqb (element_type e) "button"
       then "value" else "placeholder") translation.
Proof.
  intros Hi Hctl. unfold updateElement. rewrite Hi, Hctl.
  by destruct (orb (String.eqb (element_type e) _) _).
Qed.

(** The children of a generic element after [updateElement]. *)
Lemma updateElement_generic_children h i e translation :
  h !! i = Some (ElementNode e) →
  form_control e = false →
  children h e ≠ [] →
  ∃ e', updateElement h i translation !! i = Some (ElementNode e')
        ∧ localName e' = localName e
        ∧ attributes e' = attributes e
        ∧ children (updateElement h i translation) e' = children h e.
Proof.
  intros Hi Hform Hch.
  rewrite (updateElement_generic h i e translation Hi Hform Hch).
  destruct (List.find (text_bearing h) (childNodes e)) as [c|] eqn:Hfind.
  - destruct (find_text_bearing _ _ _ Hfind) as [Hin [data [Hc Hw]]].
    assert (Hci : c ≠ i) by congruence.
    assert (Hce : is_element h c = false) by (unfold is_element; by rewrite Hc).
    exists e. rewrite lookup_insert_ne by done. repeat split; try done.
    apply children_ext. intros j _. by apply is_element_insert_text.
  - cbv zeta. set (t := fresh (dom h)).
    assert (Ht : h !! t = None) by (apply not_elem_of_dom, is_fresh).
    assert (Hti : t ≠ i) by congruence.
    eexists. rewrite lookup_insert_eq. repeat split; try done.
    unfold children. cbn [childNodes with_childNodes List.filter].
    assert (Ht' : is_element (<[i:=ElementNode (with_childNodes (t :: childNodes e) e)]>
               (<[t:=TextNode translation]> h)) t = false).
    { unfold is_element. by rewrite lookup_insert_ne, lookup_insert_eq. }
    rewrite Ht'. apply (children_ext h _ e). intros j _.
    unfold is_element. destruct (decide (j = i)) as [->|Hji].
    + by rewrite lookup_insert_eq, Hi.
    + rewrite lookup_insert_ne by done.
      destruct (decide (j = t)) as [->|Hjt].
      * by rewrite lookup_insert_eq, Ht.
      * by rewrite lookup_insert_ne.
Qed.

(** X24.  Applying the same visible translation a second time changes nothing,
    for every element but an option (whose text node is made anew). *)
Lemma updateElement_twice h i e translation :
  h !! i = Some (ElementNode e) →
  localName e ≠ "option" →
  all_white translation = false →
  updateElement (updateElement h i translation) i translation
  = updateElement h i translation.
Proof.
  intros Hi Hopt Hw. apply String.eqb_neq in Hopt.
  destruct (String.eqb (localName e) "input" || String.eqb (localName e) "textarea")
    eqn:Hctl.
  - (* form field: the same attribute receives the same value *)
    rewrite (updateElement_form_field h i e translation Hi Hctl).
    set (name := if String.eqb (element_type e) "submit"
                    || String.eqb (element_type e) "button"
                 then "value" else "placeholder").
    assert (Hname : name ≠ "type")
      by (unfold name; by destruct (orb (String.eqb (element_type e) _) _)).
    assert (Hi1 : set_attribute h i name translation !! i
                  = Some (ElementNode (with_attribute name translation e))).
    { unfold set_attribute. rewrite Hi. apply lookup_insert_eq. }
    rewrite (updateElement_form_field _ i _ translation Hi1 Hctl).
    rewrite (element_type_with_attribute _ _ _ Hname). fold name.
    by apply (set_attribute_twice h i e).
  - assert (Hform : form_control e = false) by (unfold form_control; by rewrite Hctl, Hopt).
    destruct (children h e) as [|k ks] eqn:Hch.
    + (* no element children: the text comparison stops the second write *)
      unfold updateElement at 2 3. rewrite Hi, Hctl, Hopt, Hch. cbn [length Nat.eqb negb].
      destruct (String.eqb (textContent (size h) h i) translation) eqn:Htc; cbn [negb].
      * unfold updateElement. by rewrite Hi, Hctl, Hopt, Hch, Htc.
      * unfold set_textContent. rewrite (all_white_truthy _ Hw).
        set (t := fresh (dom h)).
        assert (Ht : h !! t = None) by (apply not_elem_of_dom, is_fresh).
        assert (Hti : t ≠ i) by congruence.
        set (h1 := <[i:=ElementNode (with_childNodes [t] e)]> (<[t:=TextNode translation]> h)).
        assert (Hi1 : h1 !! i = Some (ElementNode (with_childNodes [t] e)))
          by apply lookup_insert_eq.
        assert (Ht1 : h1 !! t = Some (TextNode translation))
          by (unfold h1; by rewrite lookup_insert_ne, lookup_insert_eq).
        unfold updateElement. rewrite Hi1. cbn [localName with_childNodes].
        rewrite Hctl, Hopt. unfold children. cbn [childNodes with_childNodes List.filter].
        unfold is_element at 1. rewrite Ht1. cbn [length Nat.eqb negb].
        destruct (size h1) as [|n] eqn:Hsize.
        { apply map_size_empty_iff in Hsize. by rewrite Hsize, lookup_empty in Hi1. }
        rewrite (textContent_single_text h1 i _ t translation n Hi1 eq_refl Ht1).
        by rewrite String.eqb_refl.
    + (* element children: the same text node receives the same text *)
      assert (Hne : children h e ≠ []) by (by rewrite Hch).
      destruct (updateElement_generic_children h i e translation Hi Hform Hne)
        as (e' & Hi' & Hname & _ & Hch').
      assert (Hform' : form_control e' = false) by (unfold form_control; by rewrite Hname, Hctl, Hopt).
      rewrite (updateElement_generic _ i e' translation Hi' Hform')
        by (by rewrite Hch').
      revert Hi'. rewrite (updateElement_generic h i e translation Hi Hform Hne).
      destruct (List.find (text_bearing h) (childNodes e)) as [c|] eqn:Hfind.
      * destruct (find_text_bearing _ _ _ Hfind) as [_ [data [Hc _]]].
        rewrite lookup_insert_ne by congruence. rewrite Hi. intros [= <-].
        rewrite (find_after_update _ _ _ _ Hfind).
        -- apply insert_insert_eq.
        -- intros j Hj. by apply text_bearing_insert_other.
        -- by apply text_bearing_insert.
      * cbv zeta. set (t := fresh (dom h)).
        assert (Ht : h !! t = None) by (apply not_elem_of_dom, is_fresh).
        assert (Hti : t ≠ i) by congruence.
        rewrite lookup_insert_eq. intros [= <-]. cbn [childNodes with_childNodes List.find].
        unfold text_bearing at 1. rewrite lookup_insert_ne, lookup_insert_eq by done.
        rewrite Hw. cbn [negb].
        rewrite (insert_insert_ne _ t i) by done. by rewrite insert_insert_eq.
Qed.

(** C5 as stated does not hold for every element: an [option] with an element
    child loses that child, and an [input] receives an attribute, no text node. *)
Lemma updateElement_form_controls_differ :
  (children option_with_icon
     {| localName := "option"; attributes := ∅; childNodes := [2; 3] |} = [2]
   ∧ updateElement option_with_icon 1 "New" !! 1 =
       Some (ElementNode {| localName := "option"; attributes := ∅; childNodes := [4] |})
   ∧ updateElement option_with_icon 1 "New" !! 4 = Some (TextNode "New")
   ∧ children (updateElement option_with_icon 1 "New")
       {| localName := "option"; attributes := ∅; childNodes := [4] |} = [])
  ∧ (children input_with_child
       {| localName := "input"; attributes := ∅; childNodes := [2] |} = [2]
     ∧ updateElement input_with_child 1 "New" !! 1 =
         Some (ElementNode {| localName := "input";
                              attributes := {[ "placeholder" := "New" ]};
                              childNodes := [2] |})).
Proof. vm_compute. repeat split. Qed.

(** C5, amended.  For an element that is not an input, textarea or option and
    that has element children, [updateElement] touches a direct text node
    only: the first direct text node with non-whitespace content gets the
    translation as its data, or, when there is none, a new text node carrying
    the translation becomes the first child.  The element keeps its name, its
    attributes and the same child elements in the same order, and no other
    element of the store is changed. *)
Theorem updateElement_keeps_child_elements h i e translation :
  h !! i = Some (ElementNode e) →
  form_control e = false →
  children h e ≠ [] →
  let h' := updateElement h i translation in
  match List.find (text_bearing h) (childNodes e) with
  | Some c =>
      c ∈ childNodes e
      ∧ (∃ data, h !! c = Some (TextNode data) ∧ all_white data = false)
      ∧ h' = <[c := TextNode translation]> h
  | None =>
      ∃ t, h !! t = None
           ∧ h' = <[i := ElementNode (with_childNodes (t :: childNodes e) e)]>
                    (<[t := TextNode translation]> h)
  end
  ∧ (∃ e', h' !! i = Some (ElementNode e')
           ∧ localName e' = localName e
           ∧ attributes e' = attributes e
           ∧ children h' e' = children h e)
  ∧ (∀ j, j ≠ i → is_element h j = true → h' !! j = h !! j).
Proof.
  intros Hi Hform Hch h'. unfold h'.
  rewrite (updateElement_generic h i e translation Hi Hform Hch). clear h'.
  destruct (List.find (text_bearing h) (childNodes e)) as [c|] eqn:Hfind.
  - destruct (find_text_bearing _ _ _ Hfind) as [Hin [data [Hc Hw]]].
    assert (Hci : c ≠ i) by congruence.
    assert (Hce : is_element h c = false) by (unfold is_element; by rewrite Hc).
    split; [eauto|]. split.
    + exists e. rewrite lookup_insert_ne by done. repeat split; try done.
      apply children_ext. intros j _. by apply is_element_insert_text.
    + intros j Hj Hel. rewrite lookup_insert_ne; [done|].
      intros ->. congruence.
  - cbv zeta. set (t := fresh (dom h)).
    assert (Ht : h !! t = None) by (apply not_elem_of_dom, is_fresh).
    assert (Hti : t ≠ i) by congruence.
    split; [eauto|]. split.
    + eexists. rewrite lookup_insert_eq. repeat split; try done.
      unfold children. cbn [childNodes with_childNodes List.filter].
      assert (Ht' : is_element (<[i:=ElementNode (with_childNodes (t :: childNodes e) e)]>
                 (<[t:=TextNode translation]> h)) t = false).
      { unfold is_element. by rewrite lookup_insert_ne, lookup_insert_eq. }
      rewrite Ht'. apply (children_ext h _ e). intros j _.
      unfold is_element. destruct (decide (j = i)) as [->|Hji].
      * by rewrite lookup_insert_eq, Hi.
      * rewrite lookup_insert_ne by done.
        destruct (decide (j = t)) as [->|Hjt].
        -- by rewrite lookup_insert_eq, Ht.
        -- by rewrite lookup_insert_ne.
    + intros j Hj Hel. rewrite lookup_insert_ne by done.
      rewrite lookup_insert_ne; [done|]. intros <-.
      unfold is_element in Hel. by rewrite Ht in Hel.
Qed.

Lemma updateElement_keeps_child_elements_witness :
  updateElement link_with_icon 1 "Inicio" = <[3 := TextNode "Inicio"]> link_with_icon
  ∧ updateElement link_with_icon 1 "Inicio" !! 2 = link_with_icon !! 2.
Proof.
  pose proof (updateElement_keeps_child_elements link_with_icon 1
    {| localName := "a"; attributes := {[ "data-i18n" := "nav.home" ]};
       childNodes := [2; 3] |} "Inicio" eq_refl eq_refl) as H.
  assert (Hch : children link_with_icon
    {| localName := "a"; attributes := {[ "data-i18n" := "nav.home" ]};
       childNodes := [2; 3] |} ≠ []) by (vm_compute; discriminate).
  specialize (H Hch). cbv zeta in H.
  change (List.find (text_bearing link_with_icon)
            (childNodes {| localName := "a";
                           attributes := {[ "data-i18n" := "nav.home" ]};
                           childNodes := [2; 3] |})) with (Some 3) in H.
  destruct H as [[_ [_ Hupd]] [_ Hframe]].
  split; [exact Hupd|]. apply Hframe; [lia|reflexivity].
Defined.

(** ** loadTranslations *)

Lemma load_try_body h lang w :
  load_try h lang w =
    match fetched_body (fetch h (length (requests w)) lang) with
    | Some body => (Return body, memoized lang body (requested lang w))
    | None => (Throw, requested lang w)
    end.
Proof. unfold load_try. by destruct (fetch _ _ _) as [|[] [body|]]. Qed.

(** A locale that reads as loaded is answered from the store. *)
Lemma loadTranslations_hit fuel h lang w :
  loaded (engine w) lang = true →
  loadTranslations (S fuel) h lang w = Some (Return (stored (engine w) lang), w).
Proof. unfold loaded. intros Hl. cbn [loadTranslations]. by rewrite Hl. Qed.

Lemma loaded_own this lang d :
  translations this !! lang = Some d → loaded this lang = truthy (Some d).
Proof. intros Hd. unfold loaded. by rewrite (stored_own _ _ _ Hd). Qed.

Lemma loadTranslations_loaded fuel h lang w d :
  translations (engine w) !! lang = Some d →
  truthy (Some d) = true →
  loadTranslations (S fuel) h lang w = Some (Return (Plain (Some d)), w).
Proof.
  intros Hd Ht. rewrite loadTranslations_hit by (by rewrite (loaded_own _ _ _ Hd)).
  by rewrite (stored_own _ _ _ Hd).
Qed.

Lemma loadTranslations_miss fuel h lang w :
  loaded (engine w) lang = false →
  loadTranslations (S fuel) h lang w =
    match fetched_body (fetch h (length (requests w)) lang) with
    | Some body => Some (Return (Plain (Some body)), memoized lang body (requested lang w))
    | None =>
        if negb (String.eqb lang DEFAULT_LANGUAGE)
           && negb (loaded (engine w) DEFAULT_LANGUAGE)
        then loadTranslations fuel h DEFAULT_LANGUAGE (requested lang w)
        else Some (Return (js_or (stored (engine w) DEFAULT_LANGUAGE)
                             (Plain (Some (JObj [])))), requested lang w)
    end.
Proof.
  unfold loaded. intros Hl. cbn [loadTranslations]. rewrite Hl, load_try_body.
  by destruct (fetched_body _).
Qed.

(** Loading the default locale when it is not in the store. *)
Lemma loadTranslations_default_miss fuel h w :
  loaded (engine w) DEFAULT_LANGUAGE = false →
  loadTranslations (S fuel) h DEFAULT_LANGUAGE w =
    match fetched_body (fetch h (length (requests w)) DEFAULT_LANGUAGE) with
    | Some body =>
        Some (Return (Plain (Some body)),
              memoized DEFAULT_LANGUAGE body (requested DEFAULT_LANGUAGE w))
    | None => Some (Return (Plain (Some (JObj []))), requested DEFAULT_LANGUAGE w)
    end.
Proof.
  intros Hl. rewrite loadTranslations_miss by done.
  destruct (fetched_body _); [done|]. cbn [String.eqb negb andb].
  rewrite String.eqb_refl. cbn [negb andb].
  unfold loaded in Hl. unfold js_or. by rewrite Hl.
Qed.

(** Lookups under a locale that does not read as loaded go to the default
    dictionary, exactly as lookups under the default locale do. *)
Lemma getTranslation_unloaded this lang key :
  str_truthy lang = true →
  loaded this lang = false →
  getTranslation this key (Some lang) = getTranslation this key (Some DEFAULT_LANGUAGE).
Proof.
  unfold loaded. intros Hlang Hl. unfold getTranslation.
  destruct (negb (truthy (Some key))); [done|]. destruct key; try done.
  f_equal. unfold resolve, target_lang. rewrite Hlang. cbn [str_truthy DEFAULT_LANGUAGE].
  fold DEFAULT_LANGUAGE. rewrite String.eqb_refl. cbn [negb]. rewrite andb_false_r.
  set (dflt := js_or (stored this DEFAULT_LANGUAGE) (Plain (Some (JObj [])))).
  replace (js_or (stored this lang) dflt) with dflt
    by (unfold js_or at 1; by rewrite Hl).
  replace (js_or (stored this DEFAULT_LANGUAGE) dflt) with dflt
    by (unfold dflt, js_or; by destruct (js_truthy (stored this DEFAULT_LANGUAGE))).
  destruct (is_undefined (walk dflt (split "." s))) eqn:E; [|done].
  cbn [andb]. destruct (negb (String.eqb lang DEFAULT_LANGUAGE)); [|done].
  destruct (walk dflt (split "." s)) as [[?|]|?]; done.
Qed.

Lemma loadTranslations_returns fuel h lang w :
  ∃ d w', loadTranslations (S (S fuel)) h lang w = Some (Return d, w').
Proof.
  destruct (loaded (engine w) lang) eqn:Hl.
  - eexists _, _. by apply loadTranslations_hit.
  - rewrite loadTranslations_miss by done.
    destruct (fetched_body _) as [body|]; [by eauto|].
    destruct (negb (String.eqb lang DEFAULT_LANGUAGE)
              && negb (loaded (engine w) DEFAULT_LANGUAGE)) eqn:Hc; [|by eauto].
    apply andb_true_iff in Hc as [_ Hd]. apply negb_true_iff in Hd.
    rewrite loadTranslations_default_miss by done.
    destruct (fetched_body _); eauto.
Qed.

(** A load of a locale that is not loaded starts by requesting its file. *)
Lemma loadTranslations_requests_first fuel h lang w c w' :
  loaded (engine w) lang = false →
  loadTranslations fuel h lang w = Some (c, w') →
  (requests w ++ [lang]) `prefix_of` requests w'.
Proof.
  intros Hl H. destruct fuel as [|fuel]; [done|].
  rewrite loadTranslations_miss in H by done.
  destruct (fetched_body _) as [body|]; [by injection H as _ <-|].
  destruct (_ && _) eqn:Hc; [|by injection H as _ <-].
  apply andb_true_iff in Hc as [_ Hd]. apply negb_true_iff in Hd.
  destruct fuel as [|fuel]; [done|].
  rewrite loadTranslations_default_miss in H by done.
  destruct (fetched_body _); injection H as _ <-; cbn; by eexists.
Qed.

(** C3 fails on the code in what it says of the failed locale: after the
    file of [fr] could not be fetched, the default dictionary is stored under
    the default key and nothing is stored under [fr], so that a second load
    of [fr] sends a request for its file again. *)
Lemma loadTranslations_failed_locale_not_memoized :
  ∃ w' w'',
    loadTranslations 2 host_only_es "fr" world_new
      = Some (Return (Plain (Some dict_es)), w')
    ∧ requests w' = ["fr"; "es"]
    ∧ translations (engine w') !! "fr" = None
    ∧ translations (engine w') !! "es" = Some dict_es
    ∧ loadTranslations 2 host_only_es "fr" w'
      = Some (Return (Plain (Some dict_es)), w'')
    ∧ requests w'' = ["fr"; "es"; "fr"].
Proof. eexists _, _. repeat split; reflexivity. Qed.

(** C3, amended.  A call with fuel for its one nested call always resolves,
    never rejects.  A locale that reads as loaded is answered from the store
    with no request.  A fetched dictionary is stored under its locale and is
    answered from the store the next time.  When the file of a non-default
    locale cannot be fetched, the result is the default locale's dictionary:
    the stored one, or the one fetched now and stored under the default key,
    or the empty dictionary when that request fails too; nothing is stored
    under the failed locale, a later load of it requests its file again, and
    every lookup under it gives what the same lookup under the default locale
    gives, which is the text of the dictionary just fetched where that holds
    one.  A failed load of the default locale itself resolves to the empty
    dictionary. *)
Theorem loadTranslations_fallback_chain h w lang fuel :
  (2 ≤ fuel)%nat →
  let n := length (requests w) in
  (∃ d w', loadTranslations fuel h lang w = Some (Return d, w'))
  ∧ (loaded (engine w) lang = true →
     loadTranslations fuel h lang w = Some (Return (stored (engine w) lang), w))
  ∧ (∀ d, translations (engine w) !! lang = Some d →
          truthy (Some d) = true →
          loadTranslations fuel h lang w = Some (Return (Plain (Some d)), w))
  ∧ (∀ body, loaded (engine w) lang = false →
          fetched_body (fetch h n lang) = Some body →
          truthy (Some body) = true →
          ∃ w', loadTranslations fuel h lang w = Some (Return (Plain (Some body)), w')
                ∧ requests w' = requests w ++ [lang]
                ∧ translations (engine w') !! lang = Some body
                ∧ loadTranslations fuel h lang w' = Some (Return (Plain (Some body)), w'))
  ∧ (lang ≠ DEFAULT_LANGUAGE →
     str_truthy lang = true →
     loaded (engine w) lang = false →
     fetched_body (fetch h n lang) = None →
     ∃ d w', loadTranslations fuel h lang w = Some (Return d, w')
       ∧ translations (engine w') !! lang = translations (engine w) !! lang
       ∧ loaded (engine w') lang = false
       ∧ (∀ c w'', loadTranslations fuel h lang w' = Some (c, w'') →
                   (requests w' ++ [lang]) `prefix_of` requests w'')
       ∧ (∀ key, getTranslation (engine w') key (Some lang)
                 = getTranslation (engine w') key (Some DEFAULT_LANGUAGE))
       ∧ (∀ d0, translations (engine w) !! DEFAULT_LANGUAGE = Some d0 →
                truthy (Some d0) = true →
                d = Plain (Some d0) ∧ w' = requested lang w)
       ∧ (loaded (engine w) DEFAULT_LANGUAGE = false →
          match fetched_body (fetch h (S n) DEFAULT_LANGUAGE) with
          | Some d0 =>
              d = Plain (Some d0)
              ∧ w' = memoized DEFAULT_LANGUAGE d0
                       (requested DEFAULT_LANGUAGE (requested lang w))
              ∧ (∀ key s, key ≠ "" → translated_in d0 key s →
                          getTranslation (engine w') (JStr key) (Some lang) = Return s)
          | None =>
              d = Plain (Some (JObj []))
              ∧ w' = requested DEFAULT_LANGUAGE (requested lang w)
          end))
  ∧ (loaded (engine w) DEFAULT_LANGUAGE = false →
     fetched_body (fetch h n DEFAULT_LANGUAGE) = None →
     loadTranslations fuel h DEFAULT_LANGUAGE w
       = Some (Return (Plain (Some (JObj []))), requested DEFAULT_LANGUAGE w)).
Proof.
  intros Hfuel n.
  destruct fuel as [|[|fuel]]; [lia|lia|]. clear Hfuel.
  split; [apply loadTranslations_returns|].
  split; [apply loadTranslations_hit|].
  split; [intros d; apply loadTranslations_loaded|].
  split; [|split].
  - intros body Hl Hb Ht. exists (memoized lang body (requested lang w)).
    rewrite loadTranslations_miss by done. fold n. rewrite Hb.
    assert (Hst : translations (engine (memoized lang body (requested lang w))) !! lang
                  = Some body) by (cbn; apply lookup_insert_eq).
    split; [done|]. split; [done|]. split; [done|].
    by apply loadTranslations_loaded.
  - intros Hne Hlang Hl Hb.
    rewrite loadTranslations_miss by done. fold n. rewrite Hb.
    apply String.eqb_neq in Hne. rewrite Hne. cbn [negb andb].
    destruct (loaded (engine w) DEFAULT_LANGUAGE) eqn:Hd; cbn [negb].
    + eexists _, _. split; [reflexivity|]. split; [done|]. split; [done|]. split.
      { intros c w''. by apply loadTranslations_requests_first. }
      split. { intros key. by apply getTranslation_unloaded. }
      split; [|done]. intros d0 Hd0 Ht0. split; [|done].
      rewrite default_or_empty, Hd0. by rewrite Ht0.
    + assert (Hd' : loaded (engine (requested lang w)) DEFAULT_LANGUAGE = false) by done.
      rewrite loadTranslations_default_miss by done.
      replace (length (requests (requested lang w))) with (S n)
        by (cbn; rewrite length_app; cbn; unfold n; lia).
      destruct (fetched_body (fetch h (S n) DEFAULT_LANGUAGE)) as [d0|].
      * eexists _, _. split; [reflexivity|].
        set (w' := memoized DEFAULT_LANGUAGE d0
                     (requested DEFAULT_LANGUAGE (requested lang w))).
        assert (Hkeep : translations (engine w') !! lang = translations (engine w) !! lang).
        { cbn. apply lookup_insert_ne. intros E. apply String.eqb_neq in Hne. by subst. }
        assert (Hl' : loaded (engine w') lang = false).
        { unfold loaded, stored in *. by rewrite Hkeep. }
        split; [exact Hkeep|]. split; [exact Hl'|]. split.
        { intros c w''. by apply loadTranslations_requests_first. }
        split. { intros key. by apply getTranslation_unloaded. }
        split.
        { intros d1 Hd1 Ht1. by rewrite (loaded_own _ _ _ Hd1), Ht1 in Hd. }
        intros _. split; [done|]. split; [done|].
        intros key s Hkey Hs. rewrite getTranslation_unloaded by done.
        unfold getTranslation. cbn [truthy]. rewrite (proj2 (str_truthy_true key) Hkey).
        cbn [negb]. f_equal. eapply resolve_from_locale; [|exact Hs].
        cbn. apply lookup_insert_eq.
      * eexists _, _. split; [reflexivity|]. split; [done|]. split; [done|]. split.
        { intros c w''. by apply loadTranslations_requests_first. }
        split. { intros key. by apply getTranslation_unloaded. }
        split; [|done].
        intros d1 Hd1 Ht1. by rewrite (loaded_own _ _ _ Hd1), Ht1 in Hd.
  - intros Hl Hb. rewrite loadTranslations_default_miss by done. fold n. by rewrite Hb.
Qed.

Lemma loadTranslations_fallback_chain_witness :
  loadTranslations 2 host_only_es "fr" world_new
    = Some (Return (Plain (Some dict_es)),
            memoized "es" dict_es (requested "es" (requested "fr" world_new)))
  ∧ loadTranslations 2 host_only_es "es"
      (memoized "es" dict_es (requested "es" (requested "fr" world_new)))
    = Some (Return (Plain (Some dict_es)),
            memoized "es" dict_es (requested "es" (requested "fr" world_new)))
  ∧ loadTranslations 2 host_only_es "toString" world_new
    = Some (Return (Inherited BuiltinFunction), world_new).
Proof.
  split; [|split].
  - destruct (proj1 (proj2 (proj2 (proj2 (proj2
      (loadTranslations_fallback_chain host_only_es world_new "fr" 2 (le_n 2))))))
      ltac:(discriminate) eq_refl eq_refl eq_refl)
      as [d [w' [Hrun [_ [_ [_ [_ [_ Hfetch]]]]]]]].
    specialize (Hfetch eq_refl). cbn in Hfetch. destruct Hfetch as (-> & -> & _).
    exact Hrun.
  - refine (proj1 (proj2 (proj2 (loadTranslations_fallback_chain host_only_es
      (memoized "es" dict_es (requested "es" (requested "fr" world_new)))
      "es" 2 (le_n 2)))) dict_es _ _).
    + vm_compute. reflexivity.
    + reflexivity.
  - exact (proj1 (proj2 (loadTranslations_fallback_chain host_only_es world_new
             "toString" 2 (le_n 2))) eq_refl).
Defined.

(** ** Actions *)

Section keeps.
Context (R : relation world) `{!PreOrder R}.

Lemma keeps_ret {A} (a : A) : keeps R (mret a).
Proof. intros w c w' [= _ <-]. reflexivity. Qed.

Lemma keeps_raise {A} : keeps R (@raise A).
Proof. intros w c w' [= _ <-]. reflexivity. Qed.

Lemma keeps_lift {A} (x : completion A) : keeps R (lift x).
Proof. intros w c w' [= _ <-]. reflexivity. Qed.

Lemma keeps_gets {A} (f : world → A) : keeps R (gets f).
Proof. intros w c w' [= _ <-]. reflexivity. Qed.

Lemma keeps_modify f : (∀ w, R w (f w)) → keeps R (modify f).
Proof. intros Hf w c w' [= _ <-]. apply Hf. Qed.

Lemma keeps_bind {A B} (a : action A) (f : A → action B) :
  keeps R a → (∀ x, keeps R (f x)) → keeps R (a ≫= f).
Proof.
  intros Ha Hf w c w' H. unfold mbind, action_bind in H.
  destruct (a w) as [[[x|] w1]|] eqn:E; [| |done].
  - transitivity w1; [by eapply Ha|by eapply Hf].
  - injection H as _ <-. by eapply Ha.
Qed.

Lemma keeps_attempt {A} (body handler : action A) :
  keeps R body → keeps R handler → keeps R (attempt body handler).
Proof.
  intros Hb Hh w c w' H. unfold attempt in H.
  destruct (body w) as [[[x|] w1]|] eqn:E; [| |done].
  - injection H as _ <-. by eapply Hb.
  - transitivity w1; [by eapply Hb|by eapply Hh].
Qed.

Lemma keeps_finally {A} (body : action A) cleanup :
  keeps R body → (∀ w, R w (cleanup w)) → keeps R (finally body cleanup).
Proof.
  intros Hb Hc w c w' H. unfold finally in H.
  destruct (body w) as [[c1 w1]|] eqn:E; [|done].
  injection H as _ <-. transitivity w1; [by eapply Hb|apply Hc].
Qed.

Lemma keeps_forEach {A} (l : list A) (f : A → action unit) :
  (∀ x, keeps R (f x)) → keeps R (forEach l f).
Proof.
  intros Hf. induction l as [|x l IH]; cbn [forEach].
  - apply keeps_ret.
  - apply keeps_bind; [apply Hf|by intros _].
Qed.
End keeps.

Lemma total_safe {A} (a : action A) : safe a → total a.
Proof. intros H w. destruct (H w) as (x & w' & E). eauto. Qed.

Lemma total_ret {A} (a : A) : total (mret a : action A).
Proof. intros w. by eexists _, _. Qed.

Lemma total_raise {A} : total (@raise A).
Proof. intros w. by eexists _, _. Qed.

Lemma total_lift {A} (x : completion A) : total (lift x).
Proof. intros w. by eexists _, _. Qed.

Lemma total_gets {A} (f : world → A) : total (gets f).
Proof. intros w. by eexists _, _. Qed.

Lemma total_modify f : total (modify f).
Proof. intros w. by eexists _, _. Qed.

Lemma total_bind {A B} (a : action A) (f : A → action B) :
  total a → (∀ x, total (f x)) → total (a ≫= f).
Proof.
  intros Ha Hf w. unfold mbind, action_bind.
  destruct (Ha w) as (c & w1 & ->). destruct c as [x|]; [apply Hf|by eexists _, _].
Qed.

Lemma total_attempt {A} (body handler : action A) :
  total body → total handler → total (attempt body handler).
Proof.
  intros Hb Hh w. unfold attempt.
  destruct (Hb w) as (c & w1 & ->). destruct c as [x|]; [by eexists _, _|apply Hh].
Qed.

Lemma total_forEach {A} (l : list A) (f : A → action unit) :
  (∀ x, total (f x)) → total (forEach l f).
Proof.
  intros Hf. induction l as [|x l IH]; cbn [forEach].
  - apply total_ret.
  - apply total_bind; [apply Hf|by intros _].
Qed.

Lemma safe_ret {A} (a : A) : safe (mret a : action A).
Proof. intros w. by eexists _, _. Qed.

Lemma safe_gets {A} (f : world → A) : safe (gets f).
Proof. intros w. by eexists _, _. Qed.

Lemma safe_modify f : safe (modify f).
Proof. intros w. by eexists _, _. Qed.

Lemma safe_bind {A B} (a : action A) (f : A → action B) :
  safe a → (∀ x, safe (f x)) → safe (a ≫= f).
Proof.
  intros Ha Hf w. unfold mbind, action_bind.
  destruct (Ha w) as (x & w1 & ->). apply Hf.
Qed.

(** A [catch] block that cannot raise makes the whole statement safe. *)
Lemma safe_attempt {A} (body handler : action A) :
  total body → safe handler → safe (attempt body handler).
Proof.
  intros Hb Hh w. unfold attempt.
  destruct (Hb w) as (c & w1 & ->). destruct c as [x|]; [by eexists _, _|apply Hh].
Qed.

Lemma safe_finally {A} (body : action A) cleanup :
  safe body → safe (finally body cleanup).
Proof.
  intros Hb w. unfold finally. destruct (Hb w) as (x & w1 & ->). by eexists _, _.
Qed.

Lemma safe_forEach {A} (l : list A) (f : A → action unit) :
  (∀ x, safe (f x)) → safe (forEach l f).
Proof.
  intros Hf. induction l as [|x l IH]; cbn [forEach].
  - apply safe_ret.
  - apply safe_bind; [apply Hf|by intros _].
Qed.

#[export] Instance same_subscribers_preorder : PreOrder same_subscribers.
Proof.
  split.
  - by intros w.
  - intros w1 w2 w3 (?&?&?) (?&?&?). repeat split; congruence.
Qed.

#[export] Instance same_lang_preorder : PreOrder same_lang.
Proof.
  split.
  - by intros w.
  - intros w1 w2 w3 H1 H2. unfold same_lang in *. congruence.
Qed.

Lemma keeps_weaken {A} (R R' : relation world) (a : action A) :
  (∀ w w', R w w' → R' w w') → keeps R a → keeps R' a.
Proof. intros HR Ha w c w' H. apply HR. by eapply Ha. Qed.

Lemma same_subscribers_lang w w' : same_subscribers w w' → same_lang w w'.
Proof. by intros (?&?&?). Qed.

Lemma run_bind {A B} (a : action A) (f : A → action B) w x w1 :
  a w = Some (Return x, w1) → (a ≫= f) w = f x w1.
Proof. intros H. unfold mbind, action_bind. by rewrite H. Qed.

Lemma attempt_return {A} (body handler : action A) w x w1 :
  body w = Some (Return x, w1) → attempt body handler w = Some (Return x, w1).
Proof. intros H. unfold attempt. by rewrite H. Qed.

(** Destructs the scrutinee of the action in the goal. *)
Ltac case_action :=
  match goal with
  | |- _ (match ?x with _ => _ end) => destruct x
  | |- _ _ (match ?x with _ => _ end) => destruct x
  end.

Ltac total_tac :=
  repeat first
    [ apply total_ret | apply total_raise | apply total_lift | apply total_gets
    | apply total_modify
    | apply total_bind; [|intros ?] | apply total_attempt
    | apply total_forEach; intros ?
    | case_action ].

(** Steps of a frame proof; the preorder is found by instance search. *)
Ltac k_leaf :=
  first [apply keeps_ret | apply keeps_raise | apply keeps_lift | apply keeps_gets];
  try (exact _).
Ltac k_bind := apply keeps_bind; try (exact _); [|intros ?].
Ltac k_attempt := apply keeps_attempt; try (exact _).
Ltac k_finally := apply keeps_finally; try (exact _).
Ltac k_forEach := apply keeps_forEach; try (exact _); intros ?.
Ltac k_modify := apply keeps_modify; try (exact _); intros ?.

(** ** applyTranslations *)

Lemma keeps_translate R `{!PreOrder R} key : keeps R (translate key).
Proof. unfold translate. k_bind; k_leaf. Qed.

Lemma keeps_modify_nodes f : keeps same_subscribers (modify_nodes f).
Proof. unfold modify_nodes. k_modify. by repeat split. Qed.

Lemma keeps_setAttribute host i name val :
  keeps same_subscribers (setAttribute host i name val).
Proof.
  unfold setAttribute. destruct (valid_attribute_name host name).
  - apply keeps_modify_nodes.
  - k_leaf.
Qed.

Lemma same_subscribers_disconnect w : same_subscribers w (disconnect_observer w).
Proof. unfold disconnect_observer. by destruct (observer (engine w)). Qed.

Lemma same_subscribers_reconnect w : same_subscribers w (reconnect_observer w).
Proof.
  unfold reconnect_observer.
  by destruct (observer (engine w)) as [?|], (body (document w)) as [?|].
Qed.

Lemma keeps_translate_text i : keeps same_subscribers (translate_text i).
Proof.
  unfold translate_text. k_bind; [k_leaf|]. destruct x as [k|]; [|k_leaf].
  destruct (str_truthy k); [|k_leaf].
  k_bind; [apply keeps_translate; exact _|].
  destruct (found _ _); [apply keeps_modify_nodes|k_leaf].
Qed.

Lemma keeps_translate_html host i : keeps same_subscribers (translate_html host i).
Proof.
  unfold translate_html. k_bind; [k_leaf|]. destruct x as [k|]; [|k_leaf].
  destruct (str_truthy k); [|k_leaf].
  k_bind; [apply keeps_translate; exact _|].
  destruct (found _ _); [apply keeps_modify_nodes|k_leaf].
Qed.

Lemma keeps_translate_attrs host i : keeps same_subscribers (translate_attrs host i).
Proof.
  unfold translate_attrs. k_bind; [k_leaf|]. destruct x as [data|]; [|k_leaf].
  destruct (str_truthy data); [|k_leaf].
  k_attempt; [|k_leaf].
  k_bind; [k_leaf|]. k_bind; [k_leaf|]. k_forEach.
  k_bind; [apply keeps_translate; exact _|].
  destruct (found _ _); [apply keeps_setAttribute|k_leaf].
Qed.

Lemma keeps_translate_title : keeps same_subscribers translate_title.
Proof.
  unfold translate_title. k_bind; [k_leaf|]. destruct x as [m|]; [|k_leaf].
  k_bind; [k_leaf|]. destruct x as [k|]; [|k_leaf].
  destruct (str_truthy k); [|k_leaf].
  k_bind; [apply keeps_translate; exact _|].
  destruct (found _ _); [|k_leaf]. k_modify. by repeat split.
Qed.

Lemma keeps_translate_description : keeps same_subscribers translate_description.
Proof.
  unfold translate_description. k_bind; [k_leaf|]. destruct x as [m|]; [|k_leaf].
  k_bind; [k_leaf|]. destruct x as [k|]; [|k_leaf].
  destruct (str_truthy k); [|k_leaf].
  k_bind; [k_leaf|]. destruct x as [target|]; [|k_leaf].
  k_bind; [apply keeps_translate; exact _|].
  destruct (found _ _); [apply keeps_modify_nodes|k_leaf].
Qed.

Lemma keeps_apply_pass host : keeps same_subscribers (apply_pass host).
Proof.
  unfold apply_pass.
  k_bind; [k_modify; apply same_subscribers_disconnect|].
  k_bind; [k_leaf|]. k_bind; [k_forEach; apply keeps_translate_text|].
  k_bind; [k_leaf|]. k_bind; [k_forEach; apply keeps_translate_html|].
  k_bind; [k_leaf|]. k_bind; [k_forEach; apply keeps_translate_attrs|].
  k_bind; [apply keeps_translate_title|].
  k_bind; [apply keeps_translate_description|].
  k_modify; apply same_subscribers_reconnect.
Qed.

Lemma keeps_applyTranslations host : keeps same_subscribers (applyTranslations host).
Proof.
  intros w c w'. unfold applyTranslations.
  destruct (isApplying (engine w)).
  - intros [= _ <-]. reflexivity.
  - revert w c w'. k_bind; [k_modify; by repeat split|].
    k_finally; [|by repeat split].
    k_attempt; [apply keeps_apply_pass|k_leaf].
Qed.

Lemma total_translate key : total (translate key).
Proof. unfold translate. total_tac. Qed.

Lemma total_apply_pass host : total (apply_pass host).
Proof.
  unfold apply_pass, translate_text, translate_html, translate_attrs, translate_title,
    translate_description, setAttribute, modify_nodes.
  repeat first
    [ apply total_translate | apply total_ret | apply total_raise | apply total_lift
    | apply total_gets | apply total_modify
    | apply total_bind; [|intros ?] | apply total_attempt
    | apply total_forEach; intros ?
    | case_action ].
Qed.

(** A synchronisation pass always finishes and never raises. *)
Lemma safe_applyTranslations host : safe (applyTranslations host).
Proof.
  intros w. unfold applyTranslations. destruct (isApplying (engine w)).
  - by eexists _, _.
  - apply safe_bind; [apply safe_modify|]. intros _.
    apply safe_finally, safe_attempt; [apply total_apply_pass|apply safe_ret].
Qed.

Lemma keeps_loadTranslations fuel host lang :
  keeps same_subscribers (loadTranslations fuel host lang).
Proof.
  revert lang. induction fuel as [|fuel IH]; intros lang w c w' H; [done|].
  destruct (loaded (engine w) lang) eqn:Hl.
  - rewrite (loadTranslations_hit _ _ _ _ Hl) in H. by injection H as _ <-.
  - rewrite loadTranslations_miss in H by done.
    destruct (fetched_body _) as [body|]; [by injection H as _ <-|].
    destruct (_ && _).
    + transitivity (requested lang w); [done|by eapply IH].
    + by injection H as _ <-.
Qed.

Lemma safe_loadTranslations fuel host lang :
  (2 ≤ fuel)%nat → safe (loadTranslations fuel host lang).
Proof.
  intros Hfuel w. destruct fuel as [|[|fuel]]; [lia|lia|].
  apply loadTranslations_returns.
Qed.

(** ** Re-entrancy of a pass *)

(** A call made while a pass is running does nothing. *)
Lemma applyTranslations_while_applying host w :
  isApplying (engine w) = true →
  applyTranslations host w = Some (Return tt, w).
Proof. intros H. unfold applyTranslations. by rewrite H. Qed.

(** A pass that ran always leaves the flag cleared. *)
Lemma applyTranslations_clears_flag host w c w' :
  isApplying (engine w) = false →
  applyTranslations host w = Some (c, w') →
  isApplying (engine w') = false.
Proof.
  intros H. unfold applyTranslations. rewrite H.
  unfold mbind, action_bind, modify, finally.
  destruct (attempt _ _ _) as [[c1 w1]|]; [|done]. by intros [= _ <-].
Qed.

(** The nodes of an element are those of its children, then its own. *)
Lemma create_element name attrs kids h :
  create (MElement name attrs kids) h
  = let '(ids, h1) := create_all kids h in
    let i := fresh (dom h1) in
    (i, <[i := ElementNode {| localName := name;
                              attributes := list_to_map attrs;
                              childNodes := ids |}]> h1).
Proof. reflexivity. Qed.

(** ** notifyObservers *)

Lemma forEach_call_observers host lang subscribers w :
  forEach subscribers (λ cb, attempt (call_observer host lang cb) (mret tt)) w
  = Some (Return tt, with_notified (notified w ++ calls_for lang subscribers) w).
Proof.
  revert w. induction subscribers as [|cb rest IH]; intros w.
  - cbn. rewrite app_nil_r. by destruct w.
  - cbn [forEach].
    assert (E : attempt (call_observer host lang cb) (mret tt) w
                = Some (Return tt, with_notified (notified w ++ [(cb, lang)]) w)).
    { unfold attempt, call_observer, mbind, action_bind, modify.
      by destruct (callback_raises host cb lang). }
    rewrite (run_bind _ _ _ _ _ E), IH. cbn.
    by rewrite <- app_assoc.
Qed.

Lemma notifyObservers_calls host lang w :
  notifyObservers host lang w
  = Some (Return tt,
          with_notified (notified w ++ calls_for lang (observers (engine w))) w).
Proof.
  unfold notifyObservers. apply attempt_return.
  rewrite (run_bind (gets (λ w, observers (engine w))) _ w (observers (engine w)) w eq_refl).
  apply forEach_call_observers.
Qed.

(** ** changeLanguage *)

Lemma safe_setItem_attempt k v : safe (attempt (setItem k v) (mret tt)).
Proof.
  intros w. unfold attempt, setItem.
  destruct (localStorage w) as [| |items []]; by eexists _, _.
Qed.

Lemma keeps_setItem_attempt k v :
  keeps same_subscribers (attempt (setItem k v) (mret tt)).
Proof.
  intros w c w'. unfold attempt, setItem.
  destruct (localStorage w) as [| |items []]; by intros [= _ <-].
Qed.

Lemma safe_dispatch_attempt host lang :
  safe (attempt (dispatch_changed host lang) (mret tt)).
Proof.
  intros w. unfold attempt, dispatch_changed.
  destruct (custom_events host); by eexists _, _.
Qed.

Lemma keeps_dispatch_attempt host lang :
  keeps same_subscribers (attempt (dispatch_changed host lang) (mret tt)).
Proof.
  intros w c w'. unfold attempt, dispatch_changed.
  destruct (custom_events host); by intros [= _ <-].
Qed.

Lemma same_subscribers_document_lang lang w :
  same_subscribers w (set_document_lang lang w).
Proof. unfold set_document_lang. by destruct (documentElement (document w)). Qed.

(** Running a safe step that keeps [R] gives an intermediate world. *)
Lemma run_safe {A B} (R : relation world) (a : action A) (f : A → action B) w :
  safe a → keeps R a →
  ∃ x w1, R w w1 ∧ (a ≫= f) w = f x w1.
Proof.
  intros Hs Hk. destruct (Hs w) as (x & w1 & E).
  exists x, w1. split; [by eapply Hk|by apply run_bind].
Qed.

(** A supported locale: the switch completes, the engine holds the new
    locale, and every subscriber has been called once, in order. *)
Lemma changeLanguage_supported fuel host lang w :
  supported lang = true →
  (2 ≤ fuel)%nat →
  ∃ w', changeLanguage fuel host lang w = Some (Return tt, w')
        ∧ currentLang (engine w') = lang
        ∧ observers (engine w') = observers (engine w)
        ∧ notified w' = notified w ++ calls_for lang (observers (engine w)).
Proof.
  intros Hs Hfuel. unfold changeLanguage. rewrite Hs. cbn [negb].
  rewrite (run_bind (modify (set_currentLang lang)) _ w tt (set_currentLang lang w) eq_refl).
  set (w0 := set_currentLang lang w).
  destruct (run_safe same_subscribers (attempt (setItem STORAGE_KEY lang) (mret tt))
              (λ _, modify (set_document_lang lang);;
                    loadTranslations fuel host lang;;
                    applyTranslations host;;
                    attempt (dispatch_changed host lang) (mret tt);;
                    notifyObservers host lang) w0
              (safe_setItem_attempt _ _) (keeps_setItem_attempt _ _))
    as (x1 & w1 & R1 & ->).
  rewrite (run_bind (modify (set_document_lang lang)) _ w1 tt
             (set_document_lang lang w1) eq_refl).
  pose proof (same_subscribers_document_lang lang w1) as R2.
  set (w2 := set_document_lang lang w1) in *.
  destruct (run_safe same_subscribers (loadTranslations fuel host lang)
              (λ _, applyTranslations host;;
                    attempt (dispatch_changed host lang) (mret tt);;
                    notifyObservers host lang) w2
              (safe_loadTranslations _ _ _ Hfuel) (keeps_loadTranslations _ _ _))
    as (x3 & w3 & R3 & ->).
  destruct (run_safe same_subscribers (applyTranslations host)
              (λ _, attempt (dispatch_changed host lang) (mret tt);;
                    notifyObservers host lang) w3
              (safe_applyTranslations _) (keeps_applyTranslations _))
    as (x4 & w4 & R4 & ->).
  destruct (run_safe same_subscribers (attempt (dispatch_changed host lang) (mret tt))
              (λ _, notifyObservers host lang) w4
              (safe_dispatch_attempt _ _) (keeps_dispatch_attempt _ _))
    as (x5 & w5 & R5 & ->).
  rewrite notifyObservers_calls. eexists. split; [reflexivity|].
  assert (R : same_subscribers w0 w5).
  { transitivity w1; [done|]. transitivity w2; [done|]. transitivity w3; [done|].
    by transitivity w4. }
  destruct R as (Hl & Ho & Hn). cbn. by rewrite Hl, Ho, Hn.
Qed.

Lemma onLanguageChange_appends arg w :
  ∃ w', onLanguageChange arg w = Some (Return tt, w')
        ∧ observers (engine w')
          = observers (engine w)
            ++ match arg with Function cb => [cb] | NotFunction => [] end
        ∧ notified w' = notified w.
Proof.
  destruct arg as [cb|]; eexists; (split; [reflexivity|]); cbn; [done|].
  by rewrite app_nil_r.
Qed.

(** C7.  For a locale outside the supported set [changeLanguage] returns
    normally and leaves the whole page as it was: active locale, stored
    choice, document language attribute and loaded dictionaries are
    untouched, nothing is fetched and no subscriber is called. *)
Theorem changeLanguage_unsupported fuel host lang w :
  supported lang = false →
  changeLanguage fuel host lang w = Some (Return tt, w).
Proof. intros H. unfold changeLanguage. by rewrite H. Qed.

Lemma changeLanguage_unsupported_witness :
  changeLanguage 2 host_second_raises "de" world_subscribed
  = Some (Return tt, world_subscribed).
Proof. apply (changeLanguage_unsupported 2 host_second_raises "de" world_subscribed eq_refl). Defined.

(** C8.  Subscribers are kept in registration order, and a switch to a
    supported locale completes and calls every one of them exactly once, in
    that order, with the new locale, whichever of them raise. *)
Theorem changeLanguage_notifies_in_order fuel host lang w :
  supported lang = true →
  (2 ≤ fuel)%nat →
  (∀ arg, ∃ w1, onLanguageChange arg w = Some (Return tt, w1)
                ∧ observers (engine w1)
                  = observers (engine w)
                    ++ match arg with Function cb => [cb] | NotFunction => [] end)
  ∧ ∃ w', changeLanguage fuel host lang w = Some (Return tt, w')
          ∧ observers (engine w') = observers (engine w)
          ∧ notified w' = notified w ++ calls_for lang (observers (engine w)).
Proof.
  intros Hs Hfuel. split.
  - intros arg. destruct (onLanguageChange_appends arg w) as (w1 & E & Ho & _). eauto.
  - destruct (changeLanguage_supported fuel host lang w Hs Hfuel) as (w' & E & _ & Ho & Hn).
    eauto.
Qed.

Lemma changeLanguage_notifies_in_order_witness :
  ∃ w', changeLanguage 2 host_second_raises "fr" world_subscribed = Some (Return tt, w')
        ∧ notified w' = [(1, "fr"); (2, "fr"); (3, "fr")].
Proof.
  destruct (proj2 (changeLanguage_notifies_in_order 2 host_second_raises "fr"
                     world_subscribed eq_refl (le_n 2))) as (w' & E & _ & Hn).
  exists w'. split; [exact E|exact Hn].
Defined.

(** ** The active locale *)

Lemma new_I18nStatic_supported host st this :
  new_I18nStatic host st = Return this → supported (currentLang this) = true.
Proof.
  unfold new_I18nStatic. destruct (detectLanguage_supported host st) as (lang & -> & Hs).
  cbn. by intros [= <-].
Qed.

Lemma keeps_lang_applyTranslations host : keeps same_lang (applyTranslations host).
Proof.
  eapply keeps_weaken; [apply same_subscribers_lang|apply keeps_applyTranslations].
Qed.

Lemma keeps_lang_loadTranslations fuel host lang :
  keeps same_lang (loadTranslations fuel host lang).
Proof.
  eapply keeps_weaken; [apply same_subscribers_lang|apply keeps_loadTranslations].
Qed.

Lemma keeps_lang_applyWhenReady host : keeps same_lang (applyWhenReady host).
Proof.
  unfold applyWhenReady. k_bind; [apply keeps_lang_applyTranslations|].
  k_bind; k_modify; done.
Qed.

(** What [changeLanguage] does after storing the new locale. *)
Lemma keeps_lang_after_switch fuel host lang :
  keeps same_lang
    (attempt (setItem STORAGE_KEY lang) (mret tt);;
     modify (set_document_lang lang);;
     loadTranslations fuel host lang;;
     applyTranslations host;;
     attempt (dispatch_changed host lang) (mret tt);;
     notifyObservers host lang).
Proof.
  k_bind.
  { eapply keeps_weaken; [apply same_subscribers_lang|apply keeps_setItem_attempt]. }
  k_bind.
  { k_modify. apply same_subscribers_lang, same_subscribers_document_lang. }
  k_bind; [apply keeps_lang_loadTranslations|].
  k_bind; [apply keeps_lang_applyTranslations|].
  k_bind.
  { eapply keeps_weaken; [apply same_subscribers_lang|apply keeps_dispatch_attempt]. }
  intros w c w'. rewrite notifyObservers_calls. by intros [= _ <-].
Qed.

Lemma changeLanguage_lang_ok fuel host lang w c w' :
  changeLanguage fuel host lang w = Some (c, w') → lang_ok w → lang_ok w'.
Proof.
  unfold changeLanguage. destruct (supported lang) eqn:Hs; cbn [negb].
  - rewrite (run_bind (modify (set_currentLang lang)) _ w tt (set_currentLang lang w) eq_refl).
    intros H _. apply keeps_lang_after_switch in H. unfold lang_ok. by rewrite H.
  - by intros [= _ <-].
Qed.

(** What [init] does after storing the detected locale. *)
Lemma keeps_lang_after_detect fuel host lang :
  keeps same_lang
    (modify (set_document_lang lang);;
     loadTranslations fuel host lang;;
     still_loading ← gets (λ w, loading (document w));
     if (still_loading : bool) then modify (schedule ApplyWhenReady)
     else applyWhenReady host).
Proof.
  k_bind.
  { k_modify. apply same_subscribers_lang, same_subscribers_document_lang. }
  k_bind; [apply keeps_lang_loadTranslations|].
  k_bind; [k_leaf|]. destruct x1; [k_modify; done|apply keeps_lang_applyWhenReady].
Qed.

Lemma init_lang_ok fuel host w c w' :
  init fuel host w = Some (c, w') → lang_ok w → lang_ok w'.
Proof.
  unfold init. destruct (initialized (engine w)); [by intros [= _ <-]|].
  destruct (detectLanguage_supported host (localStorage w)) as (lang & Hd & Hs).
  unfold attempt.
  rewrite (run_bind (λ w, lift (detectLanguage host (localStorage w)) w) _ w lang w)
    by (unfold lift; by rewrite Hd).
  rewrite (run_bind (modify (set_currentLang lang)) _ w tt (set_currentLang lang w) eq_refl).
  intros H _. unfold lang_ok.
  match type of H with
  | match ?a ?w0 with _ => _ end = _ =>
      destruct (a w0) as [[[[]|] w1]|] eqn:E; [| |done]
  end.
  - injection H as _ <-. apply keeps_lang_after_detect in E. by rewrite E.
  - injection H as _ <-. apply keeps_lang_after_detect in E. cbn. by rewrite E.
Qed.

Lemma take_lang t w w1 : take t w = Some w1 → same_lang w w1.
Proof.
  unfold take. destruct (take_first t (pending w)); [|done]. by intros [= <-].
Qed.

Lemma handle_lang_ok fuel host ev w c w' :
  handle fuel host ev w = Some (c, w') → lang_ok w → lang_ok w'.
Proof.
  assert (Hk : ∀ (a : action unit) w0, same_lang w w0 → keeps same_lang a →
                 a w0 = Some (c, w') → lang_ok w → lang_ok w').
  { intros a w0 H0 Ha H Hok. apply Ha in H. unfold lang_ok, same_lang in *. congruence. }
  destruct ev as [|lang|arg|  |lang| | | |relevant|d st]; cbn [handle].
  - apply init_lang_ok.
  - apply changeLanguage_lang_ok.
  - destruct arg; by intros [= _ <-].
  - apply Hk; [done|apply keeps_lang_applyTranslations].
  - apply Hk; [done|]. unfold ignore. k_bind; [apply keeps_lang_loadTranslations|k_leaf].
  - destruct (take ApplyWhenReady _) as [w1|] eqn:E.
    + apply Hk; [|apply keeps_lang_applyWhenReady]. by apply take_lang in E.
    + by intros [= _ <-].
  - destruct (take ObserveDOM w) as [w1|] eqn:E.
    + apply take_lang in E. unfold observeDOM.
      destruct (body (document w1)), (observer (engine w1)); intros [= _ <-];
        unfold lang_ok, same_lang in *; cbn; congruence.
    + by intros [= _ <-].
  - destruct (take ApplyOnFrame w) as [w1|] eqn:E.
    + apply Hk; [|apply keeps_lang_applyTranslations]. by apply take_lang in E.
    + by intros [= _ <-].
  - destruct (observer (engine w)) as [[]|]; try by intros [= _ <-].
    unfold on_mutations. destruct (isApplying (engine w)), relevant; by intros [= _ <-].
  - by intros [= _ <-].
Qed.

(** C9.  The active locale is always a supported one: right after
    construction, whatever the URL, the storage and the browser report, and
    after every later event, be it a call of [changeLanguage] or [init] with
    any argument, a timer, a mutation batch or a change made by the page. *)
Theorem currentLang_always_supported host w :
  reachable host w → lang_ok w.
Proof.
  induction 1 as [d st this Hnew|w fuel ev c w' _ IH Hstep].
  - unfold lang_ok. cbn. by eapply new_I18nStatic_supported.
  - by eapply handle_lang_ok.
Qed.

(** ** Repeating a synchronisation pass *)

(** With a visible separator the second pass changes nothing. *)
Example second_pass_idle_on_visible_text :
  after_two_passes host_plain (page_with_separator "|")
  = after_pass host_plain (page_with_separator "|")
  ∧ (λ w, childNodes_of w 3) <$> after_pass host_plain (page_with_separator "|")
    = Some [5; 4].
Proof. vm_compute. split; reflexivity. Qed.

(** C6 fails on the code: when the translation is white space only, the
    text node inserted by the first pass is not recognised by the second,
    which inserts another one. *)
Theorem second_pass_inserts_again :
  ∃ w1 w2,
    after_pass host_plain (page_with_separator " ") = Some w1
    ∧ after_pass host_plain w1 = Some w2
    ∧ childNodes_of (page_with_separator " ") 3 = [4]
    ∧ childNodes_of w1 3 = [5; 4]
    ∧ childNodes_of w2 3 = [6; 5; 4]
    ∧ text_of w1 3 = " "
    ∧ text_of w2 3 = "  "
    ∧ document w2 ≠ document w1.
Proof.
  destruct (after_pass host_plain (page_with_separator " ")) as [w1|] eqn:E1;
    [|vm_compute in E1; discriminate].
  destruct (after_pass host_plain w1) as [w2|] eqn:E2;
    [|injection E1 as <-; vm_compute in E2; discriminate].
  exists w1, w2.
  assert (H1 : childNodes_of w1 3 = [5; 4] ∧ text_of w1 3 = " ").
  { vm_compute in E1. injection E1 as <-. vm_compute. by split. }
  assert (H2 : childNodes_of w2 3 = [6; 5; 4] ∧ text_of w2 3 = "  ").
  { vm_compute in E1. injection E1 as <-. vm_compute in E2. injection E2 as <-.
    vm_compute. by split. }
  destruct H1 as [H1 H1'], H2 as [H2 H2'].
  repeat split; try done.
  intros Hd. unfold childNodes_of in H1, H2. rewrite Hd in H2. congruence.
Qed.

Lemma currentLang_always_supported_witness :
  lang_ok {| engine := engine_new "es"; document := empty_document;
             localStorage := storage_pt; requests := []; notified := [];
             dispatched := []; pending := [] |}.
Proof.
  apply (currentLang_always_supported host_no_url_api).
  eapply (reach_step host_no_url_api _ 2 (CallChangeLanguage "de")).
  - apply (reach_new host_no_url_api empty_document storage_pt (engine_new "es")).
    reflexivity.
  - reflexivity.
Defined.

(** * Further properties of the engine *)

(** ** Frames and invariants *)

#[export] Instance same_on_preorder {A} (f : world → A) : PreOrder (same_on f).
Proof.
  split.
  - by intros w.
  - intros w1 w2 w3 H1 H2. unfold same_on in *. congruence.
Qed.

#[export] Instance document_kept_preorder : PreOrder document_kept.
Proof.
  split.
  - by intros w.
  - intros w1 w2 w3 H1 H2 H. destruct (H1 H) as [H' E1].
    destruct (H2 H') as [H'' E2]. split; [done|congruence].
Qed.

#[export] Instance store_grows_preorder : PreOrder store_grows.
Proof.
  split.
  - intros w lang d Hd _. exact Hd.
  - intros w1 w2 w3 H1 H2 lang d Hd Ht. apply H2; [|done]. by apply H1.
Qed.

#[export] Instance subscribers_grow_preorder : PreOrder subscribers_grow.
Proof.
  split.
  - intros w. split; reflexivity.
  - intros w1 w2 w3 [H1 H1'] [H2 H2']. split; by etrans.
Qed.

#[export] Instance requests_grow_preorder : PreOrder requests_grow.
Proof.
  split.
  - intros w. unfold requests_grow. reflexivity.
  - intros w1 w2 w3 H1 H2. unfold requests_grow in *. by etrans.
Qed.

Lemma preserves_of_keeps {A B} (f : world → B) (P : B → Prop) (a : action A) :
  keeps (same_on f) a → preserves (λ w, P (f w)) a.
Proof. intros Ha w c w' HP H. apply Ha in H. unfold same_on in H. by rewrite H. Qed.

Lemma translate_run key w :
  translate key w = Some (getTranslation (engine w) (default JNull key) None, w).
Proof. reflexivity. Qed.

Section pass_frame.
Context (R : relation world) `{!PreOrder R}.
Context (Hdoc : ∀ w d, R w (with_document d w)).
Context (Hflag : ∀ w b, R w (set_isApplying b w)).
Context (Hobs : ∀ w o, R w (with_engine (with_observer o (engine w)) w)).

Lemma frame_modify_nodes f : keeps R (modify_nodes f).
Proof. unfold modify_nodes. k_modify. apply Hdoc. Qed.

Lemma frame_setAttribute host i name val : keeps R (setAttribute host i name val).
Proof.
  unfold setAttribute. destruct (valid_attribute_name host name).
  - apply frame_modify_nodes.
  - k_leaf.
Qed.

Lemma frame_translate_text i : keeps R (translate_text i).
Proof.
  unfold translate_text. k_bind; [k_leaf|]. destruct x as [k|]; [|k_leaf].
  destruct (str_truthy k); [|k_leaf].
  k_bind; [apply keeps_translate; exact _|].
  destruct (found _ _); [apply frame_modify_nodes|k_leaf].
Qed.

Lemma frame_translate_html host i : keeps R (translate_html host i).
Proof.
  unfold translate_html. k_bind; [k_leaf|]. destruct x as [k|]; [|k_leaf].
  destruct (str_truthy k); [|k_leaf].
  k_bind; [apply keeps_translate; exact _|].
  destruct (found _ _); [apply frame_modify_nodes|k_leaf].
Qed.

Lemma frame_translate_attrs host i : keeps R (translate_attrs host i).
Proof.
  unfold translate_attrs. k_bind; [k_leaf|]. destruct x as [data|]; [|k_leaf].
  destruct (str_truthy data); [|k_leaf].
  k_attempt; [|k_leaf].
  k_bind; [k_leaf|]. k_bind; [k_leaf|]. k_forEach.
  k_bind; [apply keeps_translate; exact _|].
  destruct (found _ _); [apply frame_setAttribute|k_leaf].
Qed.

Lemma frame_translate_title : keeps R translate_title.
Proof.
  unfold translate_title. k_bind; [k_leaf|]. destruct x as [m|]; [|k_leaf].
  k_bind; [k_leaf|]. destruct x as [k|]; [|k_leaf].
  destruct (str_truthy k); [|k_leaf].
  k_bind; [apply keeps_translate; exact _|].
  destruct (found _ _); [|k_leaf]. k_modify. apply Hdoc.
Qed.

Lemma frame_translate_description : keeps R translate_description.
Proof.
  unfold translate_description. k_bind; [k_leaf|]. destruct x as [m|]; [|k_leaf].
  k_bind; [k_leaf|]. destruct x as [k|]; [|k_leaf].
  destruct (str_truthy k); [|k_leaf].
  k_bind; [k_leaf|]. destruct x as [target|]; [|k_leaf].
  k_bind; [apply keeps_translate; exact _|].
  destruct (found _ _); [apply frame_modify_nodes|k_leaf].
Qed.

Lemma frame_disconnect w : R w (disconnect_observer w).
Proof.
  unfold disconnect_observer. destruct (observer (engine w)); [apply Hobs|reflexivity].
Qed.

Lemma frame_reconnect w : R w (reconnect_observer w).
Proof.
  unfold reconnect_observer.
  destruct (observer (engine w)) as [?|], (body (document w)) as [?|];
    try reflexivity. apply Hobs.
Qed.

Lemma frame_apply_pass host : keeps R (apply_pass host).
Proof.
  unfold apply_pass.
  k_bind; [k_modify; apply frame_disconnect|].
  k_bind; [k_leaf|]. k_bind; [k_forEach; apply frame_translate_text|].
  k_bind; [k_leaf|]. k_bind; [k_forEach; apply frame_translate_html|].
  k_bind; [k_leaf|]. k_bind; [k_forEach; apply frame_translate_attrs|].
  k_bind; [apply frame_translate_title|].
  k_bind; [apply frame_translate_description|].
  k_modify; apply frame_reconnect.
Qed.

Lemma frame_applyTranslations host : keeps R (applyTranslations host).
Proof.
  intros w c w'. unfold applyTranslations.
  destruct (isApplying (engine w)).
  - intros [= _ <-]. reflexivity.
  - revert w c w'. k_bind; [k_modify; apply Hflag|].
    k_finally; [|intros ?; apply Hflag].
    k_attempt; [apply frame_apply_pass|k_leaf].
Qed.
End pass_frame.

Section load_frame.
Context (R : relation world) `{!PreOrder R}.
Context (Hreq : ∀ w r, R w (with_requests r w)).
Context (Hstore : ∀ w t, R w (with_engine (with_translations t (engine w)) w)).

Lemma frame_loadTranslations fuel host lang : keeps R (loadTranslations fuel host lang).
Proof.
  revert lang. induction fuel as [|fuel IH]; intros lang w c w' H; [done|].
  assert (Hr : R w (requested lang w)) by apply Hreq.
  destruct (loaded (engine w) lang) eqn:Hl.
  - rewrite (loadTranslations_hit _ _ _ _ Hl) in H. injection H as _ <-.
    reflexivity.
  - rewrite loadTranslations_miss in H by done.
    destruct (fetched_body _) as [body|].
    + injection H as _ <-. etrans; [exact Hr|]. apply Hstore.
    + destruct (_ && _).
      * etrans; [exact Hr|]. by eapply IH.
      * by injection H as _ <-.
Qed.
End load_frame.

(** ** A synchronisation pass, whatever the page holds *)

(** X1.  [applyTranslations] always finishes and never raises, whatever the
    document, the dictionaries and the attribute maps contain; it leaves the
    re-entrancy flag as it found it, and a call made while a pass is running
    changes nothing at all. *)
Theorem applyTranslations_never_raises host w :
  ∃ w', applyTranslations host w = Some (Return tt, w')
        ∧ isApplying (engine w') = isApplying (engine w)
        ∧ (isApplying (engine w) = true → w' = w).
Proof.
  destruct (isApplying (engine w)) eqn:Hflag.
  - exists w. rewrite (applyTranslations_while_applying host w Hflag). by rewrite Hflag.
  - destruct (safe_applyTranslations host w) as ([] & w' & E). exists w'.
    split; [exact E|]. split; [|done].
    by apply (applyTranslations_clears_flag host w _ w' Hflag E).
Qed.

(** X2.  A pass touches nothing but the document, the re-entrancy flag and
    the observer connection: the active locale, the dictionaries, the
    subscribers, the stored choice, the request log, the record of subscriber
    calls and of dispatched events, and the pending timers are as before. *)
Theorem applyTranslations_touches_document_only host w :
  ∃ w', applyTranslations host w = Some (Return tt, w')
        ∧ currentLang (engine w') = currentLang (engine w)
        ∧ translations (engine w') = translations (engine w)
        ∧ initialized (engine w') = initialized (engine w)
        ∧ observers (engine w') = observers (engine w)
        ∧ localStorage w' = localStorage w
        ∧ requests w' = requests w
        ∧ notified w' = notified w
        ∧ dispatched w' = dispatched w
        ∧ pending w' = pending w.
Proof.
  destruct (safe_applyTranslations host w) as ([] & w' & E). exists w'.
  split; [exact E|].
  assert (H : same_on outside_pass w w').
  { eapply (frame_applyTranslations (same_on outside_pass)); [done..|exact E]. }
  unfold same_on, outside_pass in H. by simplify_eq.
Qed.

Lemma nothing_to_apply_empty this :
  translations this = ∅ → nothing_to_apply this.
Proof.
  intros Hempty key t. unfold getTranslation.
  destruct (negb (truthy (Some (default JNull key)))) eqn:Hfalsy.
  - by intros [= <-].
  - destruct key as [[| | |k| |]|]; try done. intros [= <-].
    rewrite resolve_untranslated;
      [|rewrite Hempty, lookup_empty; by intros d s..].
    unfold found. by rewrite String.eqb_refl, andb_false_r.
Qed.

Lemma kept_translated key (a : string → action unit) :
  keeps document_kept
    (translation ← translate key; if found translation key then a translation else mret tt).
Proof.
  intros w c w' H Hn. unfold mbind, action_bind in H. rewrite translate_run in H.
  destruct (getTranslation _ _ _) as [t|] eqn:E.
  - rewrite (Hn key t E) in H. by injection H as _ <-.
  - by injection H as _ <-.
Qed.

Lemma kept_flags w0 (f : I18nStatic → I18nStatic) :
  (∀ this, currentLang (f this) = currentLang this) →
  (∀ this, translations (f this) = translations this) →
  document_kept w0 (with_engine (f (engine w0)) w0).
Proof.
  intros Hl Ht Hn. split; [|done]. intros key t. cbn [engine with_engine].
  unfold getTranslation, resolve, stored, target_lang. rewrite Hl, !Ht. apply Hn.
Qed.

Lemma kept_disconnect w : document_kept w (disconnect_observer w).
Proof.
  unfold disconnect_observer. destruct (observer (engine w)); [|reflexivity].
  by apply (kept_flags _ (with_observer (Some false))).
Qed.

Lemma kept_reconnect w : document_kept w (reconnect_observer w).
Proof.
  unfold reconnect_observer.
  destruct (observer (engine w)) as [?|], (body (document w)) as [?|];
    try reflexivity.
  by apply (kept_flags _ (with_observer (Some true))).
Qed.

Lemma keeps_document_translate_text i : keeps document_kept (translate_text i).
Proof.
  unfold translate_text. k_bind; [k_leaf|]. destruct x as [k|]; [|k_leaf].
  destruct (str_truthy k); [|k_leaf]. apply kept_translated.
Qed.

Lemma keeps_document_translate_html host i :
  keeps document_kept (translate_html host i).
Proof.
  unfold translate_html. k_bind; [k_leaf|]. destruct x as [k|]; [|k_leaf].
  destruct (str_truthy k); [|k_leaf]. apply kept_translated.
Qed.

Lemma keeps_document_translate_attrs host i :
  keeps document_kept (translate_attrs host i).
Proof.
  unfold translate_attrs. k_bind; [k_leaf|]. destruct x as [data|]; [|k_leaf].
  destruct (str_truthy data); [|k_leaf].
  k_attempt; [|k_leaf].
  k_bind; [k_leaf|]. k_bind; [k_leaf|]. k_forEach. apply kept_translated.
Qed.

Lemma keeps_document_translate_title : keeps document_kept translate_title.
Proof.
  unfold translate_title. k_bind; [k_leaf|]. destruct x as [m|]; [|k_leaf].
  k_bind; [k_leaf|]. destruct x as [k|]; [|k_leaf].
  destruct (str_truthy k); [|k_leaf]. apply kept_translated.
Qed.

Lemma keeps_document_translate_description :
  keeps document_kept translate_description.
Proof.
  unfold translate_description. k_bind; [k_leaf|]. destruct x as [m|]; [|k_leaf].
  k_bind; [k_leaf|]. destruct x as [k|]; [|k_leaf].
  destruct (str_truthy k); [|k_leaf].
  k_bind; [k_leaf|]. destruct x as [target|]; [|k_leaf]. apply kept_translated.
Qed.

Lemma keeps_document_applyTranslations host :
  keeps document_kept (applyTranslations host).
Proof.
  intros w c w'. unfold applyTranslations.
  destruct (isApplying (engine w)).
  - intros [= _ <-]. reflexivity.
  - revert w c w'.
    k_bind; [k_modify; by apply (kept_flags _ (with_isApplying true))|].
    k_finally; [|intros w; by apply (kept_flags _ (with_isApplying false))].
    k_attempt; [|k_leaf]. unfold apply_pass.
    k_bind; [k_modify; apply kept_disconnect|].
    k_bind; [k_leaf|]. k_bind; [k_forEach; apply keeps_document_translate_text|].
    k_bind; [k_leaf|]. k_bind; [k_forEach; apply keeps_document_translate_html|].
    k_bind; [k_leaf|]. k_bind; [k_forEach; apply keeps_document_translate_attrs|].
    k_bind; [apply keeps_document_translate_title|].
    k_bind; [apply keeps_document_translate_description|].
    k_modify. apply kept_reconnect.
Qed.

(** X3.  While no dictionary is loaded a pass leaves the document exactly as
    the page author wrote it: no text, markup, attribute or title is written. *)
Theorem applyTranslations_without_dictionaries host w :
  translations (engine w) = ∅ →
  ∃ w', applyTranslations host w = Some (Return tt, w')
        ∧ document w' = document w.
Proof.
  intros Hempty. destruct (safe_applyTranslations host w) as ([] & w' & E).
  exists w'. split; [exact E|].
  by apply (keeps_document_applyTranslations host w _ w' E), nothing_to_apply_empty.
Qed.

Lemma applyTranslations_without_dictionaries_witness :
  ∃ w', applyTranslations host_plain page_unloaded = Some (Return tt, w')
        ∧ document w' = document page_unloaded.
Proof. apply (applyTranslations_without_dictionaries host_plain page_unloaded eq_refl). Defined.

(** ** What every event respects *)

#[export] Instance stays_idle_preorder : PreOrder stays_idle.
Proof.
  split.
  - intros w H. exact H.
  - intros w1 w2 w3 H1 H2 H. apply H2, H1, H.
Qed.

Lemma take_pending t w w1 : take t w = Some w1 → ∃ l, w1 = with_pending l w.
Proof.
  unfold take. destruct (take_first t (pending w)) as [l|]; [|done].
  intros [= <-]. by exists l.
Qed.

Section event_frame.
Context (R : relation world) `{!PreOrder R}.
Context (Hpass : ∀ host, keeps R (applyTranslations host)).
Context (Hload : ∀ fuel host lang, keeps R (loadTranslations fuel host lang)).
Context (Hlang : ∀ w lang, supported lang = true → R w (set_currentLang lang w)).
Context (Hdoc : ∀ w d, R w (with_document d w)).
Context (Hobs : ∀ w o, R w (with_engine (with_observer o (engine w)) w)).
Context (Hstorage : ∀ w st, R w (with_localStorage st w)).
Context (Hcalls : ∀ w l, R w (with_notified (notified w ++ l) w)).
Context (Hevents : ∀ w l, R w (with_dispatched l w)).
Context (Hpending : ∀ w l, R w (with_pending l w)).
Context (Hinit : ∀ w, R w (set_initialized w)).
Context (Hsubscribe : ∀ w cb,
  R w (with_engine (with_observers (observers (engine w) ++ [cb]) (engine w)) w)).

Lemma event_set_document_lang lang w : R w (set_document_lang lang w).
Proof.
  unfold set_document_lang. destruct (documentElement (document w)); [apply Hdoc|reflexivity].
Qed.

Lemma event_applyWhenReady host : keeps R (applyWhenReady host).
Proof.
  unfold applyWhenReady. k_bind; [apply Hpass|].
  k_bind; [k_modify; apply Hpending|]. k_modify. apply Hinit.
Qed.

Lemma event_setItem k v : keeps R (attempt (setItem k v) (mret tt)).
Proof.
  intros w c w'. unfold attempt, setItem.
  destruct (localStorage w) as [| |items []]; intros [= _ <-]; try reflexivity.
  apply Hstorage.
Qed.

Lemma event_dispatch host lang : keeps R (attempt (dispatch_changed host lang) (mret tt)).
Proof.
  intros w c w'. unfold attempt, dispatch_changed.
  destruct (custom_events host); intros [= _ <-]; [apply Hevents|reflexivity].
Qed.

Lemma event_notifyObservers host lang : keeps R (notifyObservers host lang).
Proof. intros w c w'. rewrite notifyObservers_calls. intros [= _ <-]. apply Hcalls. Qed.

Lemma event_changeLanguage fuel host lang : keeps R (changeLanguage fuel host lang).
Proof.
  unfold changeLanguage. destruct (supported lang) eqn:Hs; cbn [negb]; [|k_leaf].
  k_bind; [k_modify; by apply Hlang|].
  k_bind; [apply event_setItem|].
  k_bind; [k_modify; apply event_set_document_lang|].
  k_bind; [apply Hload|]. k_bind; [apply Hpass|].
  k_bind; [apply event_dispatch|]. apply event_notifyObservers.
Qed.

Lemma event_init fuel host : keeps R (init fuel host).
Proof.
  intros w c w'. unfold init.
  destruct (initialized (engine w)); [intros [= _ <-]; reflexivity|].
  destruct (detectLanguage_supported host (localStorage w)) as (lang & Hd & Hs).
  unfold attempt.
  rewrite (run_bind (λ w, lift (detectLanguage host (localStorage w)) w) _ w lang w)
    by (unfold lift; by rewrite Hd).
  match goal with
  | |- match ?a w with _ => _ end = _ → _ =>
      assert (Ha : keeps R a); [|destruct (a w) as [[[[]|] w1]|] eqn:E; [| |done]]
  end.
  - k_bind; [k_modify; by apply Hlang|].
    k_bind; [k_modify; apply event_set_document_lang|].
    k_bind; [apply Hload|]. k_bind; [k_leaf|].
    destruct x2; [k_modify; apply Hpending|apply event_applyWhenReady].
  - intros [= _ <-]. by eapply Ha.
  - intros [= _ <-]. etrans; [by eapply Ha|apply Hinit].
Qed.

Lemma event_handle fuel host ev : keeps R (handle fuel host ev).
Proof.
  intros w c w'.
  destruct ev as [|lang|arg|  |lang| | | |relevant|d st]; cbn [handle].
  - apply event_init.
  - apply event_changeLanguage.
  - destruct arg; intros [= _ <-]; [apply Hsubscribe|reflexivity].
  - apply Hpass.
  - revert w c w'. unfold ignore. k_bind; [apply Hload|k_leaf].
  - match goal with |- context [take _ ?w0] => set (w1 := w0) end.
    assert (H1 : R w w1) by apply Hdoc.
    destruct (take ApplyWhenReady w1) as [w2|] eqn:E.
    + apply take_pending in E as [l ->]. intros H.
      etrans; [exact H1|]. etrans; [apply Hpending|]. by eapply event_applyWhenReady.
    + by intros [= _ <-].
  - destruct (take ObserveDOM w) as [w1|] eqn:E.
    + apply take_pending in E as [l ->]. unfold observeDOM.
      destruct (body (document (with_pending l w))),
        (observer (engine (with_pending l w))); intros [= _ <-];
        (etrans; [apply Hpending|]); try reflexivity.
      apply (Hobs (with_pending l w)).
    + intros [= _ <-]. reflexivity.
  - destruct (take ApplyOnFrame w) as [w1|] eqn:E.
    + apply take_pending in E as [l ->]. intros H.
      etrans; [apply Hpending|]. by eapply Hpass.
    + intros [= _ <-]. reflexivity.
  - destruct (observer (engine w)) as [[]|]; try (intros [= _ <-]; reflexivity).
    unfold on_mutations.
    destruct (isApplying (engine w)), relevant; intros [= _ <-]; try reflexivity.
    apply Hpending.
  - intros [= _ <-]. etrans; [apply Hdoc|apply Hstorage].
Qed.
End event_frame.

Lemma stays_idle_same w w' :
  isApplying (engine w') = isApplying (engine w) → stays_idle w w'.
Proof. unfold stays_idle, idle. congruence. Qed.

Lemma keeps_idle_applyTranslations host : keeps stays_idle (applyTranslations host).
Proof. intros w c w' E H. by eapply applyTranslations_clears_flag. Qed.

Lemma keeps_idle_loadTranslations fuel host lang :
  keeps stays_idle (loadTranslations fuel host lang).
Proof.
  eapply keeps_weaken;
    [|apply (frame_loadTranslations (same_on (λ w, isApplying (engine w)))); done].
  intros w w' H. by apply stays_idle_same.
Qed.

(** X4.  Between two events the re-entrancy flag is always down: no call of
    the engine, timer, mutation batch or change made by the page can leave a
    synchronisation pass marked as running. *)
Theorem flag_down_between_events host w :
  reachable host w → isApplying (engine w) = false.
Proof.
  induction 1 as [d st this Hnew|w fuel ev c w' _ IH Hstep].
  - unfold new_I18nStatic in Hnew.
    destruct (detectLanguage host st); [|done]. by injection Hnew as <-.
  - eapply (event_handle stays_idle); try exact Hstep; try exact IH;
      try (intros; by apply stays_idle_same).
    + apply keeps_idle_applyTranslations.
    + apply keeps_idle_loadTranslations.
Qed.

Lemma flag_down_between_events_witness :
  isApplying (engine {| engine := engine_new "es"; document := empty_document;
                        localStorage := storage_pt; requests := []; notified := [];
                        dispatched := []; pending := [] |}) = false.
Proof.
  apply (flag_down_between_events host_no_url_api).
  eapply (reach_step host_no_url_api _ 2 (CallChangeLanguage "de")).
  - apply (reach_new host_no_url_api empty_document storage_pt (engine_new "es")).
    reflexivity.
  - reflexivity.
Defined.

Lemma subscribers_grow_same w w' :
  observers (engine w') = observers (engine w) →
  notified w' = notified w →
  subscribers_grow w w'.
Proof. intros Ho Hn. unfold subscribers_grow. by rewrite Ho, Hn. Qed.

Lemma keeps_subscribers_applyTranslations host :
  keeps subscribers_grow (applyTranslations host).
Proof.
  eapply keeps_weaken; [|apply keeps_applyTranslations].
  intros w w' (_ & Ho & Hn). by apply subscribers_grow_same.
Qed.

Lemma keeps_subscribers_loadTranslations fuel host lang :
  keeps subscribers_grow (loadTranslations fuel host lang).
Proof.
  eapply keeps_weaken; [|apply keeps_loadTranslations].
  intros w w' (_ & Ho & Hn). by apply subscribers_grow_same.
Qed.

(** X5.  The subscriber list and the record of subscriber calls are
    append-only: whatever happens to the page, every subscriber registered
    before is still registered afterwards, in the same position, and no
    recorded call is retracted. *)
Theorem subscribers_append_only fuel host ev w c w' :
  handle fuel host ev w = Some (c, w') →
  observers (engine w) `prefix_of` observers (engine w')
  ∧ notified w `prefix_of` notified w'.
Proof.
  intros Hstep.
  eapply (event_handle subscribers_grow); try exact Hstep;
    try (intros; by apply subscribers_grow_same).
  - apply keeps_subscribers_applyTranslations.
  - apply keeps_subscribers_loadTranslations.
  - intros w0 l. split; [done|]. by apply prefix_app_r.
  - intros w0 cb. split; [|done]. by apply prefix_app_r.
Qed.

Lemma subscribers_append_only_witness :
  [1; 2; 3] `prefix_of` [1; 2; 3; 4] ∧ @nil (callback * string) `prefix_of` [].
Proof.
  apply (subscribers_append_only 2 host_second_raises (CallOnLanguageChange (Function 4))
           world_subscribed (Return tt)
           (with_engine (with_observers [1; 2; 3; 4] (engine world_subscribed))
              world_subscribed)).
  reflexivity.
Defined.

Lemma store_grows_same w w' :
  translations (engine w') = translations (engine w) → store_grows w w'.
Proof. intros H lang d. by rewrite H. Qed.

Lemma keeps_store_applyTranslations host : keeps store_grows (applyTranslations host).
Proof.
  eapply keeps_weaken;
    [|apply (frame_applyTranslations (same_on (λ w, translations (engine w)))); done].
  intros w w' H. by apply store_grows_same.
Qed.

Lemma keeps_store_loadTranslations fuel host lang :
  keeps store_grows (loadTranslations fuel host lang).
Proof.
  revert lang. induction fuel as [|fuel IH]; intros lang w c w' H; [done|].
  destruct (loaded (engine w) lang) eqn:Hl.
  - rewrite (loadTranslations_hit _ _ _ _ Hl) in H. injection H as _ <-.
    reflexivity.
  - rewrite loadTranslations_miss in H by done.
    destruct (fetched_body _) as [body|].
    + injection H as _ <-. intros l d Hd Ht. cbn.
      rewrite lookup_insert_ne; [done|]. intros <-.
      by rewrite (loaded_own _ _ _ Hd), Ht in Hl.
    + destruct (_ && _).
      * etrans; [|by eapply IH]. by apply store_grows_same.
      * injection H as _ <-. by apply store_grows_same.
Qed.

(** X6.  One call of [loadTranslations], run without another load
    completing in between, never replaces or removes a loaded dictionary:
    whether it is answered from the store, fetches, falls back or fails, every
    locale that held a truthy dictionary when the call started holds the very
    same one when it ends. *)
Theorem loaded_dictionaries_are_kept fuel host lang w c w' l d :
  loadTranslations fuel host lang w = Some (c, w') →
  translations (engine w) !! l = Some d →
  truthy (Some d) = true →
  translations (engine w') !! l = Some d.
Proof.
  intros Hrun. revert l d. change (store_grows w w').
  by eapply keeps_store_loadTranslations.
Qed.

Lemma loaded_dictionaries_are_kept_witness :
  ∃ c w', loadTranslations 2 host_es_fr "fr" world_es_loaded = Some (c, w')
          ∧ translations (engine w') !! "fr" = Some dict_fr
          ∧ translations (engine w') !! "es" = Some dict_es.
Proof.
  destruct (loadTranslations 2 host_es_fr "fr" world_es_loaded) as [[c w']|] eqn:E;
    [|vm_compute in E; discriminate].
  exists c, w'. split; [done|]. split.
  - vm_compute in E. by injection E as _ <-.
  - apply (loaded_dictionaries_are_kept 2 host_es_fr "fr" world_es_loaded c w' "es" dict_es E);
      reflexivity.
Defined.

(** ** More on loading *)

(** X7.  One call of [loadTranslations] sends at most two requests, in this
    order: the file of the locale asked for and, if that fails and the default
    locale is not loaded, the file of the default locale.  A locale that is
    loaded costs no request. *)
Theorem loadTranslations_requests fuel host lang w c w' :
  loadTranslations fuel host lang w = Some (c, w') →
  (loaded (engine w) lang = true → requests w' = requests w)
  ∧ (requests w' = requests w
     ∨ requests w' = requests w ++ [lang]
     ∨ requests w' = requests w ++ [lang; DEFAULT_LANGUAGE]).
Proof.
  destruct fuel as [|fuel]; [done|]. intros H.
  destruct (loaded (engine w) lang) eqn:Hl.
  - rewrite (loadTranslations_hit _ _ _ _ Hl) in H. injection H as _ <-. auto.
  - split; [done|]. rewrite loadTranslations_miss in H by done.
    destruct (fetched_body _) as [body|]; [injection H as _ <-; auto|].
    destruct (negb (String.eqb lang DEFAULT_LANGUAGE)
              && negb (loaded (engine w) DEFAULT_LANGUAGE)) eqn:Hc;
      [|injection H as _ <-; auto].
    apply andb_true_iff in Hc as [_ Hd]. apply negb_true_iff in Hd.
    destruct fuel as [|fuel]; [done|].
    rewrite loadTranslations_default_miss in H by done.
    right. right.
    destruct (fetched_body _); injection H as _ <-; cbn; by rewrite <- app_assoc.
Qed.

Lemma loadTranslations_requests_witness :
  requests (memoized "es" dict_es (requested "es" (requested "fr" world_new)))
  = requests world_new
  ∨ requests (memoized "es" dict_es (requested "es" (requested "fr" world_new)))
    = requests world_new ++ ["fr"]
  ∨ requests (memoized "es" dict_es (requested "es" (requested "fr" world_new)))
    = requests world_new ++ ["fr"; DEFAULT_LANGUAGE].
Proof.
  apply (loadTranslations_requests 2 host_only_es "fr" world_new
           (Return (Plain (Some dict_es)))).
  reflexivity.
Defined.

(** X8.  Loading and looking up compose: once the file of a locale that
    read as not loaded (the store neither held nor inherited a truthy value
    under its name) has been fetched, a non-empty key that the fetched
    dictionary translates resolves, under that locale, to the fetched
    translation. *)
Theorem loadTranslations_then_getTranslation fuel host lang w body key s :
  (1 ≤ fuel)%nat →
  str_truthy lang = true →
  key ≠ "" →
  loaded (engine w) lang = false →
  fetched_body (fetch host (length (requests w)) lang) = Some body →
  translated_in body key s →
  ∃ w', loadTranslations fuel host lang w = Some (Return (Plain (Some body)), w')
        ∧ getTranslation (engine w') (JStr key) (Some lang) = Return s.
Proof.
  intros Hfuel Hlang Hkey Hl Hb Hs. destruct fuel as [|fuel]; [lia|].
  rewrite loadTranslations_miss by done. rewrite Hb.
  eexists. split; [reflexivity|].
  unfold getTranslation. cbn [truthy]. apply str_truthy_true in Hkey. rewrite Hkey.
  cbn [negb]. f_equal. eapply resolve_from_locale; [|exact Hs].
  unfold target_lang. rewrite Hlang. cbn. apply lookup_insert_eq.
Qed.

Lemma loadTranslations_then_getTranslation_witness :
  ∃ w', loadTranslations 1 host_es_fr "fr" world_new
          = Some (Return (Plain (Some dict_fr)), w')
        ∧ getTranslation (engine w') (JStr "nav.home") (Some "fr") = Return "Accueil".
Proof.
  apply (loadTranslations_then_getTranslation 1 host_es_fr "fr" world_new dict_fr
           "nav.home" "Accueil" (le_n 1) eq_refl).
  - discriminate.
  - reflexivity.
  - reflexivity.
  - apply own_walk_leads_to. reflexivity.
Defined.

(** ** More on switching the locale *)

Lemma setItem_attempt_run k v w :
  attempt (setItem k v) (mret tt) w
  = Some (Return tt,
          match localStorage w with
          | StorageItems items false =>
              with_localStorage (StorageItems (<[k := v]> items) false) w
          | _ => w
          end).
Proof. unfold attempt, setItem. by destruct (localStorage w) as [| |items []]. Qed.

Lemma dispatch_attempt_run host lang w :
  attempt (dispatch_changed host lang) (mret tt) w
  = Some (Return tt,
          if custom_events host then with_dispatched (dispatched w ++ [lang]) w else w).
Proof. unfold attempt, dispatch_changed. by destruct (custom_events host). Qed.

Lemma changeLanguage_effects fuel host lang w :
  supported lang = true →
  (2 ≤ fuel)%nat →
  ∃ w', changeLanguage fuel host lang w = Some (Return tt, w')
        ∧ currentLang (engine w') = lang
        ∧ localStorage w' = persisted lang (localStorage w)
        ∧ dispatched w' = dispatched w ++ announced host lang
        ∧ pending w' = pending w
        ∧ initialized (engine w') = initialized (engine w).
Proof.
  intros Hs Hfuel. unfold changeLanguage. rewrite Hs. cbn [negb].
  rewrite (run_bind (modify (set_currentLang lang)) _ w tt (set_currentLang lang w) eq_refl).
  set (w0 := set_currentLang lang w).
  rewrite (run_bind _ _ w0 tt _ (setItem_attempt_run STORAGE_KEY lang w0)).
  set (w1 := match localStorage w0 with
             | StorageItems items false =>
                 with_localStorage (StorageItems (<[STORAGE_KEY := lang]> items) false) w0
             | _ => w0
             end).
  assert (E1 : switch_state w1
               = (lang, persisted lang (localStorage w), dispatched w, pending w,
                  initialized (engine w))).
  { unfold switch_state, w1, w0, persisted, set_currentLang. cbn.
    destruct (localStorage w) as [| |items []] eqn:Est; cbn; by rewrite ?Est. }
  rewrite (run_bind (modify (set_document_lang lang)) _ w1 tt
             (set_document_lang lang w1) eq_refl).
  assert (E2 : switch_state (set_document_lang lang w1) = switch_state w1).
  { unfold set_document_lang. by destruct (documentElement (document w1)). }
  set (w2 := set_document_lang lang w1) in *.
  destruct (run_safe (same_on switch_state) (loadTranslations fuel host lang)
              (λ _, applyTranslations host;;
                    attempt (dispatch_changed host lang) (mret tt);;
                    notifyObservers host lang) w2
              (safe_loadTranslations _ _ _ Hfuel)
              (frame_loadTranslations (same_on switch_state) (λ _ _, eq_refl)
                 (λ _ _, eq_refl) _ _ _))
    as (x3 & w3 & E3 & ->).
  destruct (run_safe (same_on switch_state) (applyTranslations host)
              (λ _, attempt (dispatch_changed host lang) (mret tt);;
                    notifyObservers host lang) w3
              (safe_applyTranslations _)
              (frame_applyTranslations (same_on switch_state) (λ _ _, eq_refl)
                 (λ _ _, eq_refl) (λ _ _, eq_refl) _))
    as (x4 & w4 & E4 & ->).
  rewrite (run_bind _ _ w4 tt _ (dispatch_attempt_run host lang w4)).
  rewrite notifyObservers_calls. eexists. split; [reflexivity|].
  unfold same_on in E3, E4.
  assert (E : switch_state w4
              = (lang, persisted lang (localStorage w), dispatched w, pending w,
                 initialized (engine w))) by congruence.
  unfold switch_state in E. simplify_eq. unfold announced.
  destruct (custom_events host); cbn; rewrite ?app_nil_r; repeat split; congruence.
Qed.

(** X9.  After a switch to a supported locale [getCurrentLanguage] returns
    that locale; the choice is written to the storage when a storage with room
    exists and the storage is left alone otherwise; one [i18n:changed] event is
    dispatched where custom events exist; and neither the pending timers nor
    the initialisation mark are touched. *)
Theorem changeLanguage_leaves_behind fuel host lang w :
  supported lang = true →
  (2 ≤ fuel)%nat →
  ∃ w', changeLanguage fuel host lang w = Some (Return tt, w')
        ∧ getCurrentLanguage (engine w') = lang
        ∧ localStorage w' = persisted lang (localStorage w)
        ∧ dispatched w' = dispatched w ++ announced host lang
        ∧ pending w' = pending w
        ∧ initialized (engine w') = initialized (engine w).
Proof. apply changeLanguage_effects. Qed.

Lemma changeLanguage_leaves_behind_witness :
  ∃ w', changeLanguage 2 host_second_raises "fr" world_subscribed = Some (Return tt, w')
        ∧ getCurrentLanguage (engine w') = "fr"
        ∧ localStorage w' = StorageItems {[ STORAGE_KEY := "fr" ]} false
        ∧ dispatched w' = ["fr"].
Proof.
  destruct (changeLanguage_leaves_behind 2 host_second_raises "fr" world_subscribed
              eq_refl (le_n 2)) as (w' & E & Hl & Hst & Hd & _).
  exists w'. split; [exact E|]. split; [exact Hl|]. split; [|exact Hd].
  rewrite Hst. reflexivity.
Defined.

(** X10.  The persisted choice is what detection finds: after a switch to a
    supported locale on a page whose storage has room, [detectLanguage]
    returns that locale, unless the URL names another supported locale or
    cannot be read. *)
Theorem changeLanguage_then_detectLanguage fuel host lang w items :
  supported lang = true →
  (2 ≤ fuel)%nat →
  localStorage w = StorageItems items false →
  url_lang host ≠ Raises →
  accepted (url_signal host) = false →
  ∃ w', changeLanguage fuel host lang w = Some (Return tt, w')
        ∧ detectLanguage host (localStorage w') = Return lang.
Proof.
  intros Hs Hfuel Hst Hurl Hacc.
  destruct (changeLanguage_effects fuel host lang w Hs Hfuel) as (w' & E & _ & Hst' & _).
  exists w'. split; [exact E|].
  rewrite Hst' , Hst. cbn [persisted]. rewrite detectLanguage_result.
  unfold detection_interrupted, detect_by_priority.
  assert (Hstored : accepted (Some lang) = true).
  { unfold accepted. rewrite Hs, andb_true_r. apply supported_cases in Hs.
    by destruct Hs as [->|[->|[->| ->]]]. }
  destruct (url_lang host) eqn:Hu; [done| |];
    cbn [negb andb first_accepted storage_signal]; unfold getItem;
    by rewrite Hacc, lookup_insert_eq, Hstored.
Qed.

Lemma changeLanguage_then_detectLanguage_witness :
  ∃ w', changeLanguage 2 host_second_raises "fr" world_subscribed = Some (Return tt, w')
        ∧ detectLanguage host_second_raises (localStorage w') = Return "fr".
Proof.
  apply (changeLanguage_then_detectLanguage 2 host_second_raises "fr" world_subscribed ∅
           eq_refl (le_n 2) eq_refl).
  - discriminate.
  - reflexivity.
Defined.

(** ** Starting the engine *)

Lemma applyWhenReady_run host w :
  ∃ w', applyWhenReady host w = Some (Return tt, w')
        ∧ start_state w'
          = (currentLang (engine w), true, pending w ++ [ObserveDOM], localStorage w,
             observers (engine w), notified w).
Proof.
  unfold applyWhenReady.
  destruct (run_safe (same_on start_state) (applyTranslations host)
              (λ _, modify (schedule ObserveDOM);; modify set_initialized) w
              (safe_applyTranslations _)
              (frame_applyTranslations (same_on start_state) (λ _ _, eq_refl)
                 (λ _ _, eq_refl) (λ _ _, eq_refl) _))
    as (x & w1 & E1 & ->).
  eexists. split; [reflexivity|]. unfold same_on, start_state in *. cbn.
  congruence.
Qed.


Lemma take_first_elem t l : t ∈ l → ∃ l', take_first t l = Some l'.
Proof.
  induction l as [|x l IH]; [by intros ?%elem_of_nil|].
  intros Hin. cbn. destruct (decide (x = t)); [by eexists|].
  apply elem_of_cons in Hin as [->|Hin]; [done|].
  destruct (IH Hin) as [l' ->]. by eexists.
Qed.

Lemma take_first_pending t l l' :
  take_first t l = Some l' → ∀ x, x ∈ l' → x ∈ l.
Proof.
  revert l'. induction l as [|y l IH]; intros l'; [done|]. cbn.
  destruct (decide (y = t)).
  - intros [= <-] x Hx. by right.
  - destruct (take_first t l) as [l0|]; [|done]. intros [= <-] x Hx.
    apply elem_of_cons in Hx as [->|Hx]; [by left|]. right. by eapply IH.
Qed.

(** The listener of the deferred start: the pass, then the timer and the
    flag. *)
Lemma applyWhenReady_steps host w :
  ∃ w2, applyTranslations host w = Some (Return tt, w2)
        ∧ applyWhenReady host w = Some (Return tt, set_initialized (schedule ObserveDOM w2)).
Proof.
  destruct (safe_applyTranslations host w) as ([] & w2 & E).
  exists w2. split; [done|]. unfold applyWhenReady. by rewrite (run_bind _ _ _ _ _ E).
Qed.




(** X12.  The deferred start completes: when [DOMContentLoaded] fires with
    the listener queued by [init] waiting, the listener is taken off the
    queue, the pass runs on the page as it then is, the observer is scheduled
    and the engine is marked initialised: the page afterwards is exactly the
    result of these steps, and the active locale is the one [init] chose. *)
Theorem deferred_start_completes fuel host w :
  ApplyWhenReady ∈ pending w →
  ∃ l w2 w',
    take_first ApplyWhenReady (pending w) = Some l
    ∧ applyTranslations host (with_pending l (ready w)) = Some (Return tt, w2)
    ∧ w' = set_initialized (schedule ObserveDOM w2)
    ∧ handle fuel host DOMContentLoaded w = Some (Return tt, w')
    ∧ initialized (engine w') = true
    ∧ ObserveDOM ∈ pending w'
    ∧ currentLang (engine w') = currentLang (engine w).
Proof.
  intros Hin. destruct (take_first_elem _ _ Hin) as [l Hl].
  destruct (applyWhenReady_steps host (with_pending l (ready w))) as (w2 & Epass & E).
  destruct (applyWhenReady_run host (with_pending l (ready w))) as (w' & E' & Hst).
  rewrite E in E'. injection E' as <-.
  exists l, w2, (set_initialized (schedule ObserveDOM w2)).
  split; [done|]. split; [done|]. split; [done|]. split.
  { cbn [handle]. unfold take. cbn [pending with_document]. rewrite Hl.
    cbn [fmap option_fmap option_map]. exact E. }
  pose proof (f_equal (λ x, x.1.1.1.1.1) Hst) as Hc. cbn in Hc.
  split; [done|]. split; [|exact Hc].
  cbn. apply elem_of_app. right. by left.
Qed.

Lemma deferred_start_completes_witness :
  ∃ w', handle 2 host_plain DOMContentLoaded page_home_waiting = Some (Return tt, w')
        ∧ initialized (engine w') = true
        ∧ pending w' = [ObserveDOM]
        ∧ nodes (document w') !! 5 = Some (TextNode "Inicio").
Proof.
  destruct (deferred_start_completes 2 host_plain page_home_waiting)
    as (l & w2 & w' & Hl & Epass & Hw & E & Hi & _).
  - vm_compute. left.
  - exists w'. split; [exact E|]. split; [exact Hi|].
    vm_compute in E. by injection E as <-.
Defined.

(** ** What [updateElement] does to the rest of the tree *)

Lemma fresh_lookup (h : gmap node_id node) : h !! fresh (dom h) = None.
Proof. apply not_elem_of_dom, is_fresh. Qed.

Lemma is_element_set_textContent h i e s j :
  h !! i = Some (ElementNode e) →
  is_element (set_textContent h i e s) j = is_element h j
  ∧ (j ≠ i → is_element h j = true → set_textContent h i e s !! j = h !! j).
Proof.
  intros Hi. unfold set_textContent, is_element.
  destruct (str_truthy s).
  - pose proof (fresh_lookup h) as Hf.
    destruct (decide (j = i)) as [->|Hji].
    + rewrite lookup_insert_eq, Hi. by split.
    + rewrite lookup_insert_ne by done.
      destruct (decide (j = fresh (dom h))) as [->|Hjt].
      * rewrite lookup_insert_eq, Hf. by split.
      * rewrite lookup_insert_ne by done. by split.
  - destruct (decide (j = i)) as [->|Hji].
    + rewrite lookup_insert_eq, Hi. by split.
    + rewrite lookup_insert_ne by done. by split.
Qed.

Lemma is_element_set_attribute h i name val j :
  is_element (set_attribute h i name val) j = is_element h j
  ∧ (j ≠ i → set_attribute h i name val !! j = h !! j).
Proof.
  unfold set_attribute, is_element.
  destruct (h !! i) as [[| |e]|] eqn:Hi; try done.
  destruct (decide (j = i)) as [->|Hji].
  - rewrite lookup_insert_eq, Hi. by split.
  - rewrite lookup_insert_ne by done. by split.
Qed.

(** X13.  [updateElement] neither makes nor removes an element: every
    identity is an element afterwards exactly when it was one before, and
    every element other than the target is left as it was (tag, attributes
    and child list). *)
Theorem updateElement_spares_other_elements h i translation j :
  is_element (updateElement h i translation) j = is_element h j
  ∧ (j ≠ i → is_element h j = true → updateElement h i translation !! j = h !! j).
Proof.
  unfold updateElement.
  destruct (h !! i) as [[| |e]|] eqn:Hi; try done.
  destruct (String.eqb (localName e) "input" || String.eqb (localName e) "textarea").
  { destruct (String.eqb (element_type e) "submit" || String.eqb (element_type e) "button");
      (split; [apply is_element_set_attribute|intros ? _; by apply is_element_set_attribute]). }
  destruct (String.eqb (localName e) "option").
  { by apply is_element_set_textContent. }
  cbn zeta.
  destruct (negb (length (children h e) =? 0)%nat).
  - rewrite first_text_child_find.
    destruct (List.find (text_bearing h) (childNodes e)) as [c|] eqn:Hfind.
    + apply find_text_bearing in Hfind as (_ & data & Hc & _).
      unfold is_element.
      destruct (decide (j = c)) as [->|Hjc].
      * rewrite lookup_insert_eq, Hc. by split.
      * rewrite lookup_insert_ne by done. by split.
    + pose proof (fresh_lookup h) as Hf. unfold is_element.
      destruct (decide (j = i)) as [->|Hji].
      * rewrite lookup_insert_eq, Hi. by split.
      * rewrite lookup_insert_ne by done.
        destruct (decide (j = fresh (dom h))) as [->|Hjt].
        -- rewrite lookup_insert_eq, Hf. by split.
        -- rewrite lookup_insert_ne by done. by split.
  - destruct (negb (String.eqb (textContent (size h) h i) translation)); [|done].
    by apply is_element_set_textContent.
Qed.

Lemma updateElement_spares_other_elements_witness :
  updateElement link_with_icon 1 "Inicio" !! 2 = link_with_icon !! 2.
Proof.
  refine (proj2 (updateElement_spares_other_elements link_with_icon 1 "Inicio" 2) _ _).
  - lia.
  - reflexivity.
Defined.

(** The text of an element without element children does not depend on how
    deep the getter may look. *)
Lemma textContent_shallow h i e n m :
  h !! i = Some (ElementNode e) →
  children h e = [] →
  textContent (S n) h i = textContent (S m) h i.
Proof.
  intros Hi Hch. cbn [textContent]. rewrite Hi. f_equal.
  apply map_ext_in. intros c Hc.
  assert (Hel : is_element h c = false).
  { destruct (is_element h c) eqn:E; [|done].
    assert (c ∈ children h e) as Hin.
    { unfold children. apply list_elem_of_In, filter_In. by split. }
    rewrite Hch in Hin. by apply elem_of_nil in Hin. }
  unfold is_element in Hel.
  destruct (h !! c) as [[| |e']|] eqn:Ec; try done.
  - destruct n, m; cbn; by rewrite Ec.
  - destruct n, m; cbn; by rewrite Ec.
Qed.

Lemma textContent_set_textContent h i e s n :
  h !! i = Some (ElementNode e) →
  textContent (S n) (set_textContent h i e s) i = s.
Proof.
  intros Hi. unfold set_textContent. destruct (str_truthy s) eqn:Hs.
  - assert (fresh (dom h) ≠ i) as Hne.
    { intros E. pose proof (fresh_lookup h) as Hf. rewrite E in Hf. congruence. }
    apply (textContent_single_text _ i (with_childNodes [fresh (dom h)] e) (fresh (dom h))).
    + by rewrite lookup_insert_eq.
    + done.
    + rewrite lookup_insert_ne by done. by rewrite lookup_insert_eq.
  - cbn [textContent]. rewrite lookup_insert_eq. cbn.
    destruct s; [done|discriminate].
Qed.

(** X14.  An option, and any other element that is not an input or textarea
    and has no element children, reads as the translation afterwards; and when
    such an element (other than an option) already reads so, the tree is not
    written to at all. *)
Theorem updateElement_sets_text h i e translation n :
  h !! i = Some (ElementNode e) →
  String.eqb (localName e) "input" || String.eqb (localName e) "textarea" = false →
  localName e = "option" ∨ children h e = [] →
  textContent (S n) (updateElement h i translation) i = translation
  ∧ (localName e ≠ "option" → textContent (S n) h i = translation →
     updateElement h i translation = h).
Proof.
  intros Hi Hctl Hcase. unfold updateElement. rewrite Hi, Hctl.
  destruct (String.eqb (localName e) "option") eqn:Hopt.
  { apply String.eqb_eq in Hopt. split; [by apply textContent_set_textContent|done]. }
  destruct Hcase as [Hcase|Hch]; [apply String.eqb_neq in Hopt; done|].
  cbn zeta. rewrite Hch. cbn [length Nat.eqb negb].
  assert (Hsize : ∃ m, size h = S m).
  { destruct (size h) eqn:Hs; [|by eexists].
    apply map_size_empty_inv in Hs. by rewrite Hs in Hi. }
  destruct Hsize as [m Hm]. rewrite Hm.
  rewrite (textContent_shallow h i e m n Hi Hch).
  destruct (String.eqb (textContent (S n) h i) translation) eqn:Heq; cbn [negb].
  - apply String.eqb_eq in Heq. by split.
  - apply String.eqb_neq in Heq. split; [by apply textContent_set_textContent|done].
Qed.

Lemma updateElement_sets_text_witness :
  textContent 1 (updateElement option_with_icon 1 "Nuevo") 1 = "Nuevo".
Proof.
  refine (proj1 (updateElement_sets_text option_with_icon 1 _ "Nuevo" 0 _ _ _)).
  - reflexivity.
  - reflexivity.
  - by left.
Defined.

(** X15.  On an input or textarea the translation goes into one attribute and
    nowhere else: [value] when the element's type is submit or button (an
    input whose [type] attribute reads so in any letter case), [placeholder]
    otherwise, which includes every textarea whatever its [type] attribute
    says.  Tag, child list and the other attributes stay. *)
Theorem updateElement_form_field_attribute h i e translation :
  h !! i = Some (ElementNode e) →
  String.eqb (localName e) "input" || String.eqb (localName e) "textarea" = true →
  let is_button :=
    negb (String.eqb (localName e) "textarea")
    && match attributes e !! "type" with
       | Some t => String.eqb (lowercase t) "submit" || String.eqb (lowercase t) "button"
       | None => false
       end in
  updateElement h i translation
  = <[i := ElementNode
            (with_attribute (if is_button then "value" else "placeholder") translation e)]> h.
Proof.
  intros Hi Hctl is_button.
  rewrite (updateElement_form_field h i e translation Hi Hctl).
  assert (Hb : String.eqb (element_type e) "submit" || String.eqb (element_type e) "button"
               = is_button).
  { unfold is_button, element_type.
    destruct (String.eqb (localName e) "textarea"); [done|]. cbn [negb andb].
    destruct (attributes e !! "type") as [t|]; [|done].
    destruct (includes input_types (lowercase t)) eqn:Hin; [done|].
    destruct (String.eqb (lowercase t) "submit") eqn:E1.
    { apply String.eqb_eq in E1. rewrite E1 in Hin. discriminate. }
    destruct (String.eqb (lowercase t) "button") eqn:E2.
    { apply String.eqb_eq in E2. rewrite E2 in Hin. discriminate. }
    done. }
  rewrite Hb. unfold set_attribute. by rewrite Hi.
Qed.

Lemma updateElement_form_field_attribute_witness :
  updateElement input_with_child 1 "Buscar"
  = <[1 := ElementNode
             {| localName := "input";
                attributes := {[ "placeholder" := "Buscar" ]};
                childNodes := [2] |}]> input_with_child.
Proof.
  exact (updateElement_form_field_attribute input_with_child 1 _ "Buscar" eq_refl eq_refl).
Defined.

(** ** The attribute maps of [data-i18n-attr] *)

#[export] Instance only_node_preorder i : PreOrder (only_node i).
Proof.
  split.
  - intros w. by repeat split.
  - intros w1 w2 w3 (H1 & H2 & H3 & H4) (H1' & H2' & H3' & H4').
    repeat split; try congruence.
    intros j Hj. by rewrite H1', H1.
Qed.

Lemma only_node_setAttribute host i name val :
  keeps (only_node i) (setAttribute host i name val).
Proof.
  unfold setAttribute. destruct (valid_attribute_name host name); [|k_leaf].
  unfold modify_nodes. k_modify. cbn.
  split; [|split]; [| |done].
  - intros j Hj. by apply is_element_set_attribute.
  - apply is_element_set_attribute.
Qed.

Lemma only_node_translate_attrs host i : keeps (only_node i) (translate_attrs host i).
Proof.
  unfold translate_attrs. k_bind; [k_leaf|]. destruct x as [data|]; [|k_leaf].
  destruct (str_truthy data); [|k_leaf].
  k_attempt; [|k_leaf].
  k_bind; [k_leaf|]. k_bind; [k_leaf|]. k_forEach.
  k_bind; [apply keeps_translate; exact _|].
  destruct (found _ _); [apply only_node_setAttribute|k_leaf].
Qed.

Lemma safe_translate_attrs host i : safe (translate_attrs host i).
Proof.
  unfold translate_attrs. apply safe_bind; [apply safe_gets|]. intros [data|]; [|apply safe_ret].
  destruct (str_truthy data); [|apply safe_ret].
  apply safe_attempt; [|apply safe_ret].
  unfold setAttribute, modify_nodes.
  repeat first
    [ apply total_translate | apply total_ret | apply total_raise | apply total_lift
    | apply total_gets | apply total_modify
    | apply total_bind; [|intros ?]
    | apply total_forEach; intros ?
    | case_action ].
Qed.

(** X16.  The callback of the [data-i18n-attr] loop never raises, whatever
    the annotation holds (text that is not JSON, [null], values that are not
    strings, names [setAttribute] rejects), so one bad annotation cannot end
    the pass.  It writes to the annotated element only, and when the
    annotation does not parse or parses to something without keys it writes
    nothing. *)
Theorem translate_attrs_never_raises host i w :
  ∃ w', translate_attrs host i w = Some (Return tt, w')
        ∧ only_node i w w'
        ∧ (∀ data,
             getAttribute (nodes (document w)) i "data-i18n-attr" = Some data →
             (∀ v, JSON_parse host data = Some v →
                   object_keys v = Throw ∨ object_keys v = Return []) →
             w' = w).
Proof.
  destruct (safe_translate_attrs host i w) as ([] & w' & E).
  exists w'. split; [done|]. split; [by eapply only_node_translate_attrs|].
  intros data Hdata Hkeys. revert E. unfold translate_attrs.
  rewrite (run_bind (gets (λ w, getAttribute (nodes (document w)) i "data-i18n-attr"))
             _ w (Some data) w) by (unfold gets; by rewrite Hdata).
  destruct (str_truthy data); [|by intros [= <-]].
  unfold attempt.
  destruct (JSON_parse host data) as [v|]; [|by intros [= <-]].
  destruct (Hkeys v eq_refl) as [Hk|Hk].
  - rewrite (run_bind (lift (Return v)) _ w v w eq_refl).
    unfold mbind, action_bind, lift. rewrite Hk. by intros [= <-].
  - rewrite (run_bind (lift (Return v)) _ w v w eq_refl).
    rewrite (run_bind (lift (object_keys v)) _ w [] w) by (unfold lift; by rewrite Hk).
    by intros [= <-].
Qed.

Lemma translate_attrs_never_raises_witness :
  translate_attrs host_plain 1 world_attr_map = Some (Return tt, world_attr_map).
Proof.
  destruct (translate_attrs_never_raises host_plain 1 world_attr_map) as (w' & E & _ & H).
  rewrite E. do 2 f_equal. apply (H attr_data); [reflexivity|]. intros v Hv. discriminate Hv.
Defined.

Lemma assoc_nodup k v (fields : list (string * JSON)) :
  NoDup (map fst fields) → (k, v) ∈ fields → assoc k fields = Some v.
Proof.
  induction fields as [|[k' v'] fields IH]; [by intros _ ?%elem_of_nil|].
  cbn [map fst assoc]. intros Hnd Hin. apply NoDup_cons in Hnd as [Hk' Hnd].
  apply elem_of_cons in Hin as [[= <- <-]|Hin].
  - by rewrite String.eqb_refl.
  - destruct (String.eqb k k') eqn:E; [|by apply IH].
    apply String.eqb_eq in E as <-. exfalso. apply Hk'.
    apply list_elem_of_fmap. by exists (k, v).
Qed.

Lemma attrs_loop host full i suffix : ∀ w e,
  nodes (document w) !! i = Some (ElementNode e) →
  Forall (λ entry : string * JSON,
            assoc entry.1 full = Some entry.2
            ∧ (∃ k, entry.2 = JStr k)
            ∧ valid_attribute_name host entry.1 = true) suffix →
  ∃ w',
    forEach (map fst suffix)
      (λ attr,
         let key := member (JObj full) attr in
         translation ← translate key;
         if found translation key
         then setAttribute host i attr translation
         else mret tt) w = Some (Return tt, w')
    ∧ engine w' = engine w
    ∧ nodes (document w') !! i
      = Some (ElementNode (foldl (apply_attr (engine w)) e suffix)).
Proof.
  induction suffix as [|[attr v] suffix IH]; intros w e Hi Hall.
  - exists w. by repeat split.
  - apply Forall_cons in Hall as [(Hassoc & [k Hk] & Hvalid) Hall].
    cbn [fst snd] in Hassoc, Hk, Hvalid. subst v.
    cbn [map fst forEach foldl].
    set (step := λ attr : string, _).
    assert (Hstep : ∃ w1, step attr w = Some (Return tt, w1)
                          ∧ engine w1 = engine w
                          ∧ nodes (document w1) !! i
                            = Some (ElementNode (apply_attr (engine w) e (attr, JStr k)))).
    { unfold step. cbn zeta. unfold member. cbn [own_prop]. rewrite Hassoc.
      rewrite (run_bind (translate (Some (JStr k))) _ w
                 (if str_truthy k then resolve (engine w) k None else "") w)
        by (rewrite translate_run; cbn; unfold getTranslation; cbn;
            by destruct (str_truthy k)).
      unfold apply_attr. cbn [fst snd]. unfold getTranslation. cbn [truthy].
      destruct (str_truthy k); cbn [negb].
      - destruct (found (resolve (engine w) k None) (Some (JStr k))).
        + unfold setAttribute. rewrite Hvalid. eexists. split; [reflexivity|].
          split; [done|]. cbn. unfold set_attribute. rewrite Hi.
          by rewrite lookup_insert_eq.
        + by exists w.
      - cbn. by exists w. }
    destruct Hstep as (w1 & E1 & Heng & Hi1).
    rewrite (run_bind (step attr) _ w tt w1 E1).
    destruct (IH w1 _ Hi1 Hall) as (w' & E & Heng' & Hi').
    exists w'. split; [done|]. split; [congruence|]. by rewrite Hi', Heng.
Qed.

(** X17.  For an annotation that parses to an object whose values are all
    strings and whose names [setAttribute] accepts, the loop visits the
    entries in order: each named attribute (in lower case) receives the
    translation of its key, and an entry whose key has no translation leaves
    its attribute alone. *)
Theorem translate_attrs_applies_map host i w e data fields :
  nodes (document w) !! i = Some (ElementNode e) →
  attributes e !! "data-i18n-attr" = Some data →
  str_truthy data = true →
  JSON_parse host data = Some (JObj fields) →
  NoDup (map fst fields) →
  Forall (λ entry : string * JSON,
            (∃ k, entry.2 = JStr k) ∧ valid_attribute_name host entry.1 = true) fields →
  ∃ w', translate_attrs host i w = Some (Return tt, w')
        ∧ nodes (document w') !! i
          = Some (ElementNode (foldl (apply_attr (engine w)) e fields)).
Proof.
  intros Hi Hdata Htruthy Hparse Hnd Hall.
  destruct (attrs_loop host fields i fields w e Hi) as (w' & E & _ & Hi').
  { apply Forall_forall. intros [attr v] Hin.
    rewrite Forall_forall in Hall. destruct (Hall _ Hin) as [Hk Hv].
    split; [by apply assoc_nodup|done]. }
  exists w'. split; [|done].
  unfold translate_attrs.
  rewrite (run_bind (gets (λ w, getAttribute (nodes (document w)) i "data-i18n-attr"))
             _ w (Some data) w) by (unfold gets, getAttribute; by rewrite Hi, Hdata).
  rewrite Htruthy. apply attempt_return.
  rewrite Hparse.
  rewrite (run_bind (lift (Return (JObj fields))) _ w (JObj fields) w eq_refl).
  rewrite (run_bind (lift (object_keys (JObj fields))) _ w (map fst fields) w eq_refl).
  exact E.
Qed.

Lemma translate_attrs_applies_map_witness :
  ∃ w', translate_attrs host_attr_map 1 world_attr_map = Some (Return tt, w')
        ∧ nodes (document w') !! 1
          = Some (ElementNode (with_attribute "placeholder" "Correo" field_with_map)).
Proof.
  refine (translate_attrs_applies_map host_attr_map 1 world_attr_map field_with_map attr_data
            [("placeholder", JStr "form.email"); ("title", JStr "form.hint")] _ _ _ _ _ _).
  - reflexivity.
  - reflexivity.
  - reflexivity.
  - reflexivity.
  - apply (bool_decide_unpack _). reflexivity.
  - repeat constructor; by eexists.
Defined.

(** ** Lookups that end on something that is not a text *)

(** X18.  When the path of a key is present in the requested locale but ends
    on something that is not a string (a group of keys, a number, [null]),
    [getTranslation] returns the key itself and does not consult the default
    locale, whatever the default dictionary holds for that key. *)
Theorem getTranslation_group_is_not_a_text this lang d key r :
  key ≠ "" →
  translations this !! target_lang this lang = Some d →
  leads_to d (split "." key) r →
  (∀ s, r ≠ JStr s) →
  getTranslation this (JStr key) lang = Return key.
Proof.
  intros Hkey Hd Hpath Hr. unfold getTranslation. cbn [truthy].
  rewrite (proj2 (str_truthy_true key) Hkey). cbn [negb]. f_equal.
  unfold resolve. rewrite (stored_own _ _ _ Hd).
  assert (Ht : truthy (Some d) = true).
  { eapply tree_node_truthy, leads_to_tree_node; [exact Hpath|apply split_nonempty]. }
  set (dflt := js_or (stored this DEFAULT_LANGUAGE) _).
  replace (js_or (Plain (Some d)) dflt) with (Plain (Some d))
    by (unfold js_or; cbn [js_truthy]; by rewrite Ht).
  apply walk_follows in Hpath. rewrite Hpath. cbn [is_undefined andb].
  destruct r; try done. by destruct (Hr s).
Qed.

Lemma getTranslation_group_is_not_a_text_witness :
  getTranslation engine_group_fr (JStr "nav") None = Return "nav"
  ∧ getTranslation engine_group_fr (JStr "nav") (Some "es") = Return "Navegar".
Proof.
  split; [|reflexivity].
  refine (getTranslation_group_is_not_a_text engine_group_fr None
            (JObj [("nav", JObj [("home", JStr "Accueil")])]) "nav"
            (JObj [("home", JStr "Accueil")]) _ _ _ _).
  - discriminate.
  - reflexivity.
  - apply own_walk_leads_to. reflexivity.
  - discriminate.
Defined.

(** ** Detection and construction *)



(** ** The rewrite of [updateElement] *)

(** X20.  The present [updateElement] and the previous one agree on every
    element that is a form control or has no element children; on any other
    element whose text differs from the translation the previous one left no
    child element behind. *)
Theorem updateElement_against_previous h i translation :
  ((∀ e, h !! i = Some (ElementNode e) → form_control e = false → children h e = []) →
   updateElement h i translation = Previous.updateElement h i translation)
  ∧ (∀ e, h !! i = Some (ElementNode e) → form_control e = false →
          textContent (size h) h i ≠ translation →
          ∃ e', Previous.updateElement h i translation !! i = Some (ElementNode e')
                ∧ children (Previous.updateElement h i translation) e' = []).
Proof.
  split.
  - intros Hch. unfold updateElement, Previous.updateElement.
    destruct (h !! i) as [[| |e]|] eqn:Hi; try done.
    specialize (Hch e eq_refl). unfold form_control in Hch.
    destruct (String.eqb (localName e) "input" || String.eqb (localName e) "textarea");
      [done|].
    destruct (String.eqb (localName e) "option"); [done|].
    cbn zeta. by rewrite (Hch eq_refl).
  - intros e Hi Hform Hneq. unfold Previous.updateElement. rewrite Hi.
    unfold form_control in Hform.
    apply orb_false_iff in Hform as [-> ->].
    apply String.eqb_neq in Hneq. rewrite Hneq. cbn [negb].
    unfold set_textContent. destruct (str_truthy translation).
    + eexists. rewrite lookup_insert_eq. split; [done|].
      unfold children. cbn. unfold is_element.
      assert (fresh (dom h) ≠ i) as Hne.
      { intros E. pose proof (fresh_lookup h) as Hf. rewrite E in Hf. congruence. }
      rewrite lookup_insert_ne by done. by rewrite lookup_insert_eq.
    + eexists. rewrite lookup_insert_eq. by split.
Qed.

Lemma updateElement_against_previous_witness :
  ∃ e', Previous.updateElement link_with_icon 1 "Inicio" !! 1 = Some (ElementNode e')
        ∧ children (Previous.updateElement link_with_icon 1 "Inicio") e' = [].
Proof.
  refine (proj2 (updateElement_against_previous link_with_icon 1 "Inicio") _ _ _ _).
  - reflexivity.
  - reflexivity.
  - vm_compute. discriminate.
Defined.

(** ** The observer around a pass *)

Lemma safe_translate_str k : safe (translate (Some (JStr k))).
Proof.
  intros w. rewrite translate_run. cbn. unfold getTranslation. cbn.
  destruct (str_truthy k); by eexists _, _.
Qed.

Lemma safe_translate_text i : safe (translate_text i).
Proof.
  unfold translate_text. apply safe_bind; [apply safe_gets|]. intros [k|]; [|apply safe_ret].
  destruct (str_truthy k); [|apply safe_ret].
  apply safe_bind; [apply safe_translate_str|]. intros t.
  destruct (found _ _); [apply safe_modify|apply safe_ret].
Qed.

Lemma safe_translate_html host i : safe (translate_html host i).
Proof.
  unfold translate_html. apply safe_bind; [apply safe_gets|]. intros [k|]; [|apply safe_ret].
  destruct (str_truthy k); [|apply safe_ret].
  apply safe_bind; [apply safe_translate_str|]. intros t.
  destruct (found _ _); [apply safe_modify|apply safe_ret].
Qed.

Lemma safe_translate_title : safe translate_title.
Proof.
  unfold translate_title. apply safe_bind; [apply safe_gets|]. intros [m|]; [|apply safe_ret].
  apply safe_bind; [apply safe_gets|]. intros [k|]; [|apply safe_ret].
  destruct (str_truthy k); [|apply safe_ret].
  apply safe_bind; [apply safe_translate_str|]. intros t.
  destruct (found _ _); [apply safe_modify|apply safe_ret].
Qed.

Lemma safe_translate_description : safe translate_description.
Proof.
  unfold translate_description.
  apply safe_bind; [apply safe_gets|]. intros [m|]; [|apply safe_ret].
  apply safe_bind; [apply safe_gets|]. intros [k|]; [|apply safe_ret].
  destruct (str_truthy k); [|apply safe_ret].
  apply safe_bind; [apply safe_gets|]. intros [target|]; [|apply safe_ret].
  apply safe_bind; [apply safe_translate_str|]. intros t.
  destruct (found _ _); [apply safe_modify|apply safe_ret].
Qed.

(** The [try] block of a pass runs to its last statement. *)
Lemma apply_pass_run host w :
  ∃ w', apply_pass host w = Some (Return tt, reconnect_observer w')
        ∧ engine w' = engine (disconnect_observer w).
Proof.
  unfold apply_pass.
  rewrite (run_bind (modify disconnect_observer) _ w tt (disconnect_observer w) eq_refl).
  set (w1 := disconnect_observer w).
  pose proof (λ w d, eq_refl : same_on engine w (with_document d w)) as Hdoc.
  rewrite (run_bind (gets (λ w, querySelectorAll (document w) "data-i18n")) _ w1 _ w1 eq_refl).
  destruct (run_safe (same_on engine) (forEach (querySelectorAll (document w1) "data-i18n")
                                         translate_text)
              (λ _, htmlElements ← gets (λ w, querySelectorAll (document w) "data-i18n-html");
                    forEach htmlElements (translate_html host);;
                    attrElements ← gets (λ w, querySelectorAll (document w) "data-i18n-attr");
                    forEach attrElements (translate_attrs host);;
                    translate_title;;
                    translate_description;;
                    modify reconnect_observer) w1)
    as (x2 & w2 & E2 & ->).
  { apply safe_forEach, safe_translate_text. }
  { apply keeps_forEach; [exact _|]. intros i. apply frame_translate_text; first [exact _|exact Hdoc]. }
  rewrite (run_bind (gets (λ w, querySelectorAll (document w) "data-i18n-html")) _ w2 _ w2
             eq_refl).
  destruct (run_safe (same_on engine)
              (forEach (querySelectorAll (document w2) "data-i18n-html") (translate_html host))
              (λ _, attrElements ← gets (λ w, querySelectorAll (document w) "data-i18n-attr");
                    forEach attrElements (translate_attrs host);;
                    translate_title;;
                    translate_description;;
                    modify reconnect_observer) w2)
    as (x3 & w3 & E3 & ->).
  { apply safe_forEach, safe_translate_html. }
  { apply keeps_forEach; [exact _|]. intros i. apply frame_translate_html; first [exact _|exact Hdoc]. }
  rewrite (run_bind (gets (λ w, querySelectorAll (document w) "data-i18n-attr")) _ w3 _ w3
             eq_refl).
  destruct (run_safe (same_on engine)
              (forEach (querySelectorAll (document w3) "data-i18n-attr") (translate_attrs host))
              (λ _, translate_title;;
                    translate_description;;
                    modify reconnect_observer) w3)
    as (x4 & w4 & E4 & ->).
  { apply safe_forEach, safe_translate_attrs. }
  { apply keeps_forEach; [exact _|]. intros i. apply frame_translate_attrs; first [exact _|exact Hdoc]. }
  destruct (run_safe (same_on engine) translate_title
              (λ _, translate_description;; modify reconnect_observer) w4)
    as (x5 & w5 & E5 & ->).
  { apply safe_translate_title. }
  { apply frame_translate_title; first [exact _|exact Hdoc]. }
  destruct (run_safe (same_on engine) translate_description
              (λ _, modify reconnect_observer) w5)
    as (x6 & w6 & E6 & ->).
  { apply safe_translate_description. }
  { apply frame_translate_description; first [exact _|exact Hdoc]. }
  exists w6. split; [done|]. unfold same_on in *. congruence.
Qed.

(** X21.  A pass that is not nested in another one leaves the observer as
    it should be: none is created, and an existing one is observing again
    whenever the document still has a body at the end of the pass (it stays
    disconnected only if the body is gone). *)
Theorem applyTranslations_reconnects host w :
  isApplying (engine w) = false →
  ∃ w', applyTranslations host w = Some (Return tt, w')
        ∧ observer (engine w')
          = match observer (engine w) with
            | Some _ => Some (bool_decide (is_Some (body (document w'))))
            | None => None
            end.
Proof.
  intros Hflag. unfold applyTranslations. rewrite Hflag.
  rewrite (run_bind (modify (set_isApplying true)) _ w tt (set_isApplying true w) eq_refl).
  destruct (apply_pass_run host (set_isApplying true w)) as (w1 & E & Heng).
  unfold finally. rewrite (attempt_return _ _ _ _ _ E).
  eexists. split; [reflexivity|].
  assert (Hobs : observer (engine w1)
                 = match observer (engine w) with Some _ => Some false | None => None end).
  { rewrite Heng. unfold disconnect_observer. cbn. destruct (observer (engine w)) eqn:Eo; cbn; by rewrite ?Eo. }
  cbn. unfold reconnect_observer. rewrite Hobs.
  destruct (observer (engine w)) as [b|]; [|done].
  destruct (body (document w1)) as [b'|] eqn:Hbody; cbn.
  - rewrite Hbody. by rewrite bool_decide_eq_true_2.
  - rewrite Hbody, Hobs. rewrite bool_decide_eq_false_2; [done|by intros [? ?]].
Qed.

Lemma applyTranslations_reconnects_witness :
  ∃ w', applyTranslations host_plain world_observed = Some (Return tt, w')
        ∧ observer (engine w') = Some true.
Proof.
  destruct (applyTranslations_reconnects host_plain world_observed eq_refl) as (w' & E & Ho).
  exists w'. split; [exact E|]. rewrite Ho.
  vm_compute in E. by injection E as <-.
Defined.

(** ** Switching and then looking up *)

(** X22.  After a switch to a supported locale whose file can be fetched, a
    lookup without an explicit locale answers in the new locale. *)
Theorem changeLanguage_then_getTranslation fuel host lang w body key s :
  supported lang = true →
  (2 ≤ fuel)%nat →
  key ≠ "" →
  loaded (engine w) lang = false →
  fetched_body (fetch host (length (requests w)) lang) = Some body →
  translated_in body key s →
  ∃ w', changeLanguage fuel host lang w = Some (Return tt, w')
        ∧ getTranslation (engine w') (JStr key) None = Return s.
Proof.
  intros Hs Hfuel Hkey Hl Hb Htr. unfold changeLanguage. rewrite Hs. cbn [negb].
  destruct fuel as [|fuel]; [lia|].
  rewrite (run_bind (modify (set_currentLang lang)) _ w tt (set_currentLang lang w) eq_refl).
  set (w0 := set_currentLang lang w).
  rewrite (run_bind _ _ w0 tt _ (setItem_attempt_run STORAGE_KEY lang w0)).
  set (w1 := match localStorage w0 with
             | StorageItems items false =>
                 with_localStorage (StorageItems (<[STORAGE_KEY := lang]> items) false) w0
             | _ => w0
             end).
  rewrite (run_bind (modify (set_document_lang lang)) _ w1 tt
             (set_document_lang lang w1) eq_refl).
  set (w2 := set_document_lang lang w1).
  assert (E2 : engine w2 = with_currentLang lang (engine w) ∧ requests w2 = requests w).
  { unfold w2, set_document_lang, w1, w0, set_currentLang.
    destruct (localStorage (with_engine _ w)) as [| |items []]; cbn;
      by destruct (documentElement (document w)). }
  destruct E2 as [Heng Hreq].
  assert (Hl2 : loaded (engine w2) lang = false) by (by rewrite Heng).
  rewrite (run_bind (loadTranslations (S fuel) host lang) _ w2 (Plain (Some body))
             (memoized lang body (requested lang w2)))
    by (rewrite loadTranslations_miss by done; by rewrite Hreq, Hb).
  set (w3 := memoized lang body (requested lang w2)).
  set (view := λ w : world, (currentLang (engine w), translations (engine w) !! lang)).
  destruct (run_safe (same_on view) (applyTranslations host)
              (λ _, attempt (dispatch_changed host lang) (mret tt);;
                    notifyObservers host lang) w3
              (safe_applyTranslations _)
              (frame_applyTranslations (same_on view) (λ _ _, eq_refl)
                 (λ _ _, eq_refl) (λ _ _, eq_refl) _))
    as (x4 & w4 & E4 & ->).
  rewrite (run_bind _ _ w4 tt _ (dispatch_attempt_run host lang w4)).
  rewrite notifyObservers_calls. eexists. split; [reflexivity|].
  assert (E : view w4 = (lang, Some body)).
  { unfold same_on in E4. rewrite E4. unfold view, w3, memoized, requested. cbn.
    rewrite Heng. cbn. by rewrite lookup_insert_eq. }
  unfold view in E. injection E as Hc Ht.
  unfold getTranslation. cbn [truthy]. rewrite (proj2 (str_truthy_true key) Hkey).
  cbn [negb]. f_equal. eapply resolve_from_locale; [|exact Htr].
  unfold target_lang. destruct (custom_events host); cbn; by rewrite Hc.
Qed.

Lemma changeLanguage_then_getTranslation_witness :
  ∃ w', changeLanguage 2 host_es_fr "fr" world_new = Some (Return tt, w')
        ∧ getTranslation (engine w') (JStr "nav.home") None = Return "Accueil".
Proof.
  apply (changeLanguage_then_getTranslation 2 host_es_fr "fr" world_new dict_fr
           "nav.home" "Accueil" eq_refl (le_n 2)).
  - discriminate.
  - reflexivity.
  - reflexivity.
  - apply own_walk_leads_to. reflexivity.
Defined.

(** ** What [innerHTML] leaves alone *)

Lemma insert_fresh_kept (h : gmap node_id node) n j :
  is_Some (h !! j) → <[fresh (dom h) := n]> h !! j = h !! j.
Proof.
  intros Hj. apply lookup_insert_ne. intros E. rewrite <- E, fresh_lookup in Hj.
  by destruct Hj.
Qed.

Lemma create_all_kept ms j :
  (∀ m, m ∈ ms → ∀ h, is_Some (h !! j) → (create m h).2 !! j = h !! j) →
  ∀ h, is_Some (h !! j) → (create_all ms h).2 !! j = h !! j.
Proof.
  induction ms as [|m ms IH]; intros Hms h Hj; [done|].
  cbn [create_all].
  pose proof (Hms m ltac:(by left) h Hj) as H1.
  destruct (create m h) as [i1 h1]. cbn in H1.
  assert (Hj1 : is_Some (h1 !! j)) by (by rewrite H1).
  pose proof (IH (λ m' Hin, Hms m' ltac:(by right)) h1 Hj1) as H2.
  destruct (create_all ms h1) as [ids h2]. cbn in *. by rewrite H2.
Qed.

Lemma create_kept j : ∀ m h, is_Some (h !! j) → (create m h).2 !! j = h !! j.
Proof.
  fix IH 1. intros [data|data|name attrs kids] h Hj.
  - by apply insert_fresh_kept.
  - by apply insert_fresh_kept.
  - rewrite create_element.
    assert (Hkids : ∀ h, is_Some (h !! j) → (create_all kids h).2 !! j = h !! j).
    { clear h Hj. induction kids as [|m ms IHk]; intros h Hj; [done|].
      cbn [create_all].
      pose proof (IH m h Hj) as H1.
      destruct (create m h) as [i1 h1]. cbn in H1.
      assert (Hj1 : is_Some (h1 !! j)) by (by rewrite H1).
      pose proof (IHk h1 Hj1) as H2.
      destruct (create_all ms h1) as [ids h2]. cbn in *. by rewrite H2. }
    pose proof (Hkids h Hj) as H1.
    destruct (create_all kids h) as [ids h1]. cbn in *.
    rewrite insert_fresh_kept; [done|by rewrite H1].
Qed.

(** X23.  Assigning [innerHTML] for a [data-i18n-html] element alters no
    node that was there before except the element itself, which keeps its
    tag and its attributes; what changes is its list of children. *)
Theorem set_innerHTML_spares_existing_nodes host h i s :
  (∀ j, j ≠ i → is_Some (h !! j) → set_innerHTML host h i s !! j = h !! j)
  ∧ (∀ e, h !! i = Some (ElementNode e) →
          ∃ ids, set_innerHTML host h i s !! i = Some (ElementNode (with_childNodes ids e))).
Proof.
  unfold set_innerHTML. split.
  - intros j Hji Hj. destruct (h !! i) as [[| |e]|] eqn:Hi; try done.
    pose proof (create_all_kept (parse_fragment host (localName e) s) j
                  (λ m _, create_kept j m) h Hj) as H1.
    destruct (create_all _ h) as [ids h1]. cbn in H1.
    by rewrite lookup_insert_ne.
  - intros e Hi. rewrite Hi.
    destruct (create_all _ h) as [ids h1]. exists ids. by rewrite lookup_insert_eq.
Qed.

Lemma set_innerHTML_spares_existing_nodes_witness :
  set_innerHTML host_plain link_with_icon 1 "<b>Inicio</b>" !! 2 = link_with_icon !! 2.
Proof.
  refine (proj1 (set_innerHTML_spares_existing_nodes host_plain link_with_icon 1
                   "<b>Inicio</b>") 2 _ _).
  - lia.
  - by eexists.
Defined.

(** ** Re-applying a translation, on the link with an icon *)

Lemma updateElement_twice_witness :
  updateElement (updateElement link_with_icon 1 "Inicio") 1 "Inicio"
  = updateElement link_with_icon 1 "Inicio".
Proof.
  refine (updateElement_twice link_with_icon 1 _ "Inicio" _ _ _).
  - reflexivity.
  - discriminate.
  - reflexivity.
Defined.

(** ** Loads that overlap *)

(** Run without interruption, the two parts make up the [try] block. *)
Lemma load_try_resume h lang w :
  load_try h lang w
  = load_resume h {| load_lang := lang; load_number := length (requests w) |}
      (with_requests (requests w ++ [lang]) w).
Proof. unfold load_try, load_resume. cbn. by destruct (fetch _ _ _) as [|[] [body|]]. Qed.

(** X25.  Nothing is checked again after the awaits: when a second load of a
    locale begins while the first is still waiting for its response, both send
    a request, both store what they receive under the locale, and the
    dictionary stored by the first is replaced by the one the second
    receives. *)
Theorem overlapping_loads_both_assign h lang w first second :
  loaded (engine w) lang = false →
  fetched_body (fetch h (length (requests w)) lang) = Some first →
  fetched_body (fetch h (S (length (requests w))) lang) = Some second →
  ∃ p1 w1 p2 w2 w3 w4,
    load_begin lang w = inr (p1, w1)
    ∧ load_begin lang w1 = inr (p2, w2)
    ∧ load_resume h p1 w2 = (Return first, w3)
    ∧ translations (engine w3) !! lang = Some first
    ∧ load_resume h p2 w3 = (Return second, w4)
    ∧ translations (engine w4) !! lang = Some second
    ∧ requests w4 = requests w ++ [lang; lang].
Proof.
  unfold loaded. intros Hl H1 H2.
  eexists _, _, _, _, _, _.
  split. { unfold load_begin. by rewrite Hl. }
  split. { unfold load_begin. cbn. by rewrite Hl. }
  assert (Hlen : length (requests w ++ [lang]) = S (length (requests w)))
    by (rewrite length_app; cbn; lia).
  split.
  { unfold load_resume. cbn.
    destruct (fetch h (length (requests w)) lang) as [|[] [body|]]; try done.
    cbn in H1. by injection H1 as ->. }
  split. { cbn. apply lookup_insert_eq. }
  split.
  { unfold load_resume. cbn. rewrite Hlen.
    destruct (fetch h (S (length (requests w))) lang) as [|[] [body|]]; try done.
    cbn in H2. by injection H2 as ->. }
  split. { cbn. apply lookup_insert_eq. }
  cbn. by rewrite <- app_assoc.
Qed.

Lemma overlapping_loads_both_assign_witness :
  ∃ p1 w1 p2 w2 w3 w4,
    load_begin "fr" world_new = inr (p1, w1)
    ∧ load_begin "fr" w1 = inr (p2, w2)
    ∧ load_resume host_fr_updated p1 w2 = (Return dict_fr, w3)
    ∧ translations (engine w3) !! "fr" = Some dict_fr
    ∧ load_resume host_fr_updated p2 w3 = (Return dict_fr_newer, w4)
    ∧ translations (engine w4) !! "fr" = Some dict_fr_newer
    ∧ requests w4 = requests world_new ++ ["fr"; "fr"].
Proof.
  exact (overlapping_loads_both_assign host_fr_updated "fr" world_new dict_fr dict_fr_newer
           eq_refl eq_refl eq_refl).
Defined.
